(** * The analysis-session bridge of the Rust Analyzer client

    A shallow embedding of the Rust Analyzer bridge of solana-playground
    (the module that defines [initRustAnalyzer]):

    - [Channel]: [createWorker], i.e. [callWorker], [proxyHandler] and
      [worker.onmessage], over an explicit channel state;
    - [Loader]: the module-level cache [cachedNames], [loadDependency] and
      [update], over an explicit world that records every awaited call;
    - [Workspace]: [loadLocalFiles], as a call over the channel;
    - [Providers]: the inlay-hint provider of [registerProviders].

    Beside it, from the client's other modules: [Commands] ([createArgs])
    and [PgTutorial] (the lookups in the tutorial catalogue).

    Modelling notes.
    - A JavaScript number that counts calls is an integer ([Z]); such
      integers are exact in a JavaScript number below 2^53, so the model
      covers sessions of fewer than 2^53 calls.
    - [pendingResolve] is a plain object used as a table: a [gmap] from
      property keys (strings) to resolvers holds its own properties, and
      a key that is no own property is looked up among the names it
      inherits from [Object.prototype].  A reply that names one of those
      finds a value that is no resolver; the handler calls it all the
      same, and how it ends is part of what [onmessage] returns.
    - The code is asynchronous but every call in [update] and
      [loadDependency] is awaited in sequence; the functions are
      modelled by state passing, one call running to its end, and the
      text of the editor model is read once.  A fetch or an engine call
      that fails is outside the model.
    - The same functions are also given as flows, suspended at every
      await; a flow that runs alone is the function, and flows that
      overlap are studied for the status of a crate only.
    - [loadDependency] recurses on what the engine returns; the model
      bounds the recursion by fuel and the fuel that suffices is proved. *)

From Stdlib Require Import ZArith Lia Permutation Sorted Ascii String.
From stdpp Require Import gmap strings list fin_maps pretty.

Local Open Scope string_scope.
Local Open Scope Z_scope.
Local Open Scope list_scope.

(** ** JavaScript values that travel as correlation ids *)

(** [ev.data.id] is either a number or a string. *)
Inductive jsval :=
  | JNum (n : Z)
  | JStr (s : string).

Global Instance jsval_eq_dec : EqDecision jsval.
Proof. solve_decision. Defined.

(** The id of the one-time readiness message ([ev.data.id === "ra-worker-ready"]). *)
Definition READY : jsval := JStr "ra-worker-ready".

(** The property key [pendingResolve[v]] reads or writes: a number is
    converted to its decimal string, a string is used as it is. *)
Definition propertyKey (v : jsval) : string :=
  match v with
  | JNum n => pretty n
  | JStr s => s
  end.

(** Value of a decimal digit, if the character is one. *)
Definition digitValue (c : ascii) : option Z :=
  let n := Z.of_N (N_of_ascii c) in
  if bool_decide (48 <= n <= 57) then Some (n - 48) else None.

(** Digits read left to right on top of the accumulator [acc]. *)
Fixpoint digitsToNumber (acc : Z) (s : string) : option Z :=
  match s with
  | EmptyString => Some acc
  | String c s' =>
      match digitValue c with
      | Some d => digitsToNumber (10 * acc + d) s'
      | None => None
      end
  end.

(** [ToNumber] on the values at hand: a number is itself; the empty string
    is 0; a string of decimal digits with an optional sign is that integer;
    any other string (one holding a letter, say) is NaN, here [None]. *)
Definition toNumber (v : jsval) : option Z :=
  match v with
  | JNum n => Some n
  | JStr EmptyString => Some 0
  | JStr (String "-"%char (String c s)) => Z.opp <$> digitsToNumber 0 (String c s)
  | JStr (String "+"%char (String c s)) => digitsToNumber 0 (String c s)
  | JStr s => digitsToNumber 0 s
  end.

(** [a > b] between a number and any value, as the relational operator
    decides it: both sides go through [ToNumber], and a comparison with
    NaN is false. *)
Definition js_gt (a b : jsval) : bool :=
  match toNumber a, toNumber b with
  | Some x, Some y => bool_decide (y < x)
  | _, _ => false
  end.

(** The property names a plain object inherits from [Object.prototype]. *)
Definition Object_prototype : list string :=
  ["constructor"; "__defineGetter__"; "__defineSetter__"; "hasOwnProperty";
   "__lookupGetter__"; "__lookupSetter__"; "isPrototypeOf"; "propertyIsEnumerable";
   "toString"; "valueOf"; "__proto__"; "toLocaleString"].

(** The string starts as the decimal form of an integer does: with a
    digit or a minus sign. *)
Definition startsLikeNumber (s : string) : bool :=
  match s with
  | String c _ =>
      match digitValue c with
      | Some _ => true
      | None => bool_decide (c = "-"%char)
      end
  | EmptyString => false
  end.

(** ** The Call Channel: [createWorker] *)

Module Channel.
Section Channel.

(** Transport-serializable arguments, results, and the promise resolvers
    ([res] of [new Promise((res) => ...)]), each a fresh function. *)
Context {Arg Result Resolver : Type}.
Context `{EqDecision Resolver}.

(** [{ method, args, id }], as posted to the worker. *)
Record request := Request {
  method : string;
  args : list Arg;
  id : Z;
}.

(** [ev.data] of an inbound message. *)
Record reply := Reply {
  reply_id : jsval;
  result : Result;
}.

(** The closure state of [createWorker], and what it did so far. *)
Record chan := Chan {
  pendingResolve : gmap string Resolver;
  next_id : Z;                           (* [let id] *)
  posted : list request;                 (* [worker.postMessage], in order *)
  resolved : list (Resolver * Result);   (* resolver invocations, in order *)
  readySignals : nat;                    (* invocations of [resolve] *)
}.

(** [const pendingResolve = {}; let id = 1;] *)
Definition createWorker : chan :=
  {| pendingResolve := ∅; next_id := 1; posted := []; resolved := [];
     readySignals := 0 |}.

(** [callWorker(method, ...args)], with the resolver [res] of the promise
    it creates. *)
Definition callWorker (m : string) (a : list Arg) (res : Resolver) (st : chan) : chan :=
  {| pendingResolve := <[propertyKey (JNum (next_id st)) := res]> (pendingResolve st);
     next_id := next_id st + 1;
     posted := posted st ++ [Request m a (next_id st)];
     resolved := resolved st;
     readySignals := readySignals st |}.

(** [proxyHandler.get]: [undefined] ([None]) for ["then"], which is what
    [Reflect.get] finds on the empty target; for any other property the
    function [async (...args) => callWorker(prop, ...args)]. *)
Definition proxyHandler_get (prop : string)
  : option (list Arg → Resolver → chan → chan) :=
  if decide (prop = "then") then None
  else Some (λ a res st, callWorker prop a res st).

(** What [pendingResolve[key]] evaluates to: a resolver when the key is
    an own property of the table, the member of [Object.prototype] of that
    name when there is one, and [undefined] otherwise. *)
Inductive property :=
  | Own (pending : Resolver)
  | Inherited (member : string)
  | Undefined.

Definition pendingResolve_get (st : chan) (key : string) : property :=
  match pendingResolve st !! key with
  | Some pending => Own pending
  | None => if decide (key ∈ Object_prototype) then Inherited key else Undefined
  end.

(** How a run of the handler ends: it returns; or it has called, in place
    of a resolver, a function it found in [Object.prototype], which
    returns or throws as that builtin does without a receiver; or the
    call itself throws a [TypeError], the value found being no function. *)
Inductive completion :=
  | Returned
  | CalledInherited (member : string) (r : Result)
  | Threw.

(** [worker.onmessage]: how the handler ends and the state it leaves.
    Under ["__proto__"] the table finds [Object.prototype] itself, an
    object: truthy, and not callable.  The other inherited members are
    functions.  [delete] of a key that is no own property, where it is
    reached, changes nothing. *)
Definition onmessage (ev : reply) (st : chan) : completion * chan :=
  if decide (reply_id ev = READY) then
    (Returned,
     {| pendingResolve := pendingResolve st; next_id := next_id st;
        posted := posted st; resolved := resolved st;
        readySignals := S (readySignals st) |})
  else
    match pendingResolve_get st (propertyKey (reply_id ev)) with
    | Own pending =>
        (Returned,
         {| pendingResolve := delete (propertyKey (reply_id ev)) (pendingResolve st);
            next_id := next_id st;
            posted := posted st;
            resolved := resolved st ++ [(pending, result ev)];
            readySignals := readySignals st |})
    | Inherited member =>
        if decide (member = "__proto__") then (Threw, st)
        else (CalledInherited member (result ev), st)
    | Undefined => (Returned, st)
    end.

(** What happens on the foreground side of the channel. *)
Inductive action :=
  | Issue (m : string) (a : list Arg) (res : Resolver)
  | Arrive (ev : reply).

Definition step (st : chan) (act : action) : chan :=
  match act with
  | Issue m a res => callWorker m a res st
  | Arrive ev => (onmessage ev st).2
  end.

Definition run (st : chan) (sched : list action) : chan :=
  fold_left step sched st.

End Channel.
End Channel.

(** ** The Dependency Loader and the Update Pipeline *)

Module Loader.
Section Loader.

(** An engine diagnostic, republished as it comes. *)
Context {Diag : Type}.

(** The permitted dependency set, a constant the module reads but does not
    define. *)
Context (CRATES : list string).

(** [PgCommon.fetchText]: the dependency store, by URL. *)
Context (fetchText : string → string).

(** The crate names the engine returns from
    [state.loadDependency(name, code, manifest)]. *)
Context (neededCrates : string → string → string → list string).

(** The diagnostics the engine returns from [state.update(path, text)];
    they depend on all it was asked before. *)
Context (diagnosticsOf : list (string * list string) → string → string → list Diag).

(** The values of [cachedNames]; a name with no entry is not loaded. *)
Inductive status := full | empty.

#[export] Instance status_eq_dec : EqDecision status.
Proof. solve_decision. Defined.

(** The asynchronous operations the pipeline awaits. *)
Inductive call :=
  | FetchText (url : string)
  | Session (method : string) (args : list string).

#[export] Instance call_eq_dec : EqDecision call.
Proof. solve_decision. Defined.

(** A call is issued ([Req]) and, when its promise settles, the awaiting
    flow goes on ([Done]). *)
Inductive event :=
  | Req (c : call)
  | Done (c : call).

#[export] Instance event_eq_dec : EqDecision event.
Proof. solve_decision. Defined.

(** What [update] reads of the editor model: [model.uri.path] and
    [model.getValue()]. *)
Record model := Model {
  uri_path : string;
  getValue : string;
}.

(** The module state and what the module did so far.  [loadCalls] is a
    ghost log of the invocations of [loadDependency], as (caller, name):
    the caller is [None] when [update] calls, [Some n] when the
    invocation for [n] recurses. *)
Record world := World {
  cachedNames : gmap string status;
  trace : list event;
  markers : gmap string (list Diag);
  loadCalls : list (option string * string);
}.

(** [const cachedNames = new Map()] and nothing done yet. *)
Definition init : world :=
  {| cachedNames := ∅; trace := []; markers := ∅; loadCalls := [] |}.

(** [await c]: the call is issued and the flow resumes when it is done. *)
Definition await (c : call) (w : world) : world :=
  {| cachedNames := cachedNames w; trace := trace w ++ [Req c; Done c];
     markers := markers w; loadCalls := loadCalls w |}.

(** [cachedNames.set(name, s)] *)
Definition cachedNames_set (name : string) (s : status) (w : world) : world :=
  {| cachedNames := <[name := s]> (cachedNames w); trace := trace w;
     markers := markers w; loadCalls := loadCalls w |}.

(** [monaco.editor.setModelMarkers(model, LANGUAGE_ID, diagnostics)]: the
    marker set of the model is replaced. *)
Definition setModelMarkers (m : model) (ds : list Diag) (w : world) : world :=
  {| cachedNames := cachedNames w; trace := trace w;
     markers := <[uri_path m := ds]> (markers w); loadCalls := loadCalls w |}.

(** Ghost: an invocation of [loadDependency] is logged. *)
Definition noteCall (caller : option string) (name : string) (w : world) : world :=
  {| cachedNames := cachedNames w; trace := trace w;
     markers := markers w; loadCalls := loadCalls w ++ [(caller, name)] |}.

(** The session calls of a trace, as the engine received them. *)
Definition sessionCalls (tr : list event) : list (string * list string) :=
  omap (λ e, match e with Req (Session m a) => Some (m, a) | _ => None end) tr.

(** [new RegExp(pattern, "gm").test(text)] for a pattern of literal
    characters: the pattern occurs in the text.  The patterns at hand are
    a crate name (snake_case, as the comment of [loadDependency] says)
    followed by two colons; none of these characters is special in a
    regular expression. *)
Fixpoint RegExp_test (pattern text : string) : bool :=
  if String.prefix pattern text then true
  else match text with
       | EmptyString => false
       | String _ text' => RegExp_test pattern text'
       end.

(** [for (const x of l) { await body(x) }] *)
Fixpoint forOf {A : Type} (body : A → world → option world) (l : list A) (w : world)
  : option world :=
  match l with
  | [] => Some w
  | x :: l' =>
      match body x w with
      | Some w' => forOf body l' w'
      | None => None
      end
  end.

(** [loadDependency(name)].  The recursion is bounded by [fuel]; [None]
    is fuel exhausted.  [caller] only feeds the ghost log. *)
Fixpoint loadDependency (fuel : nat) (caller : option string) (name : string) (w : world)
  : option world :=
  match fuel with
  | O => None
  | S fuel' =>
      let w := noteCall caller name w in
      if decide (cachedNames w !! name = Some full) then Some w
      else
        let code := fetchText ("/crates/" +:+ name +:+ ".rs") in
        let w := await (FetchText ("/crates/" +:+ name +:+ ".rs")) w in
        let manifest := fetchText ("/crates/" +:+ name +:+ ".toml") in
        let w := await (FetchText ("/crates/" +:+ name +:+ ".toml")) w in
        let needed := neededCrates name code manifest in
        let w := await (Session "loadDependency" [name; code; manifest]) w in
        let w := cachedNames_set name full w in
        forOf (λ crate w,
                 if decide (crate ∈ CRATES)
                 then loadDependency fuel' (Some name) crate w
                 else Some w)
              needed w
  end.

(** The body of the loop of [update], for one crate. *)
Definition updateCrate (fuel : nat) (text : string) (crate : string) (w : world)
  : option world :=
  let status := cachedNames w !! crate in
  if decide (status = Some full) then Some w
  else if RegExp_test (crate +:+ "::") text then loadDependency fuel None crate w
  else if decide (status ≠ Some empty) then
    Some (cachedNames_set crate empty (await (Session "loadDependency" [crate]) w))
  else Some w.

(** [update(model)] *)
Definition update (fuel : nat) (m : model) (w : world) : option world :=
  match forOf (updateCrate fuel (getValue m)) CRATES w with
  | None => None
  | Some w =>
      let diagnostics := diagnosticsOf (sessionCalls (trace w)) (uri_path m) (getValue m) in
      let w := await (Session "update" [uri_path m; getValue m]) w in
      Some (setModelMarkers m diagnostics w)
  end.

(** *** The same functions as flows

    An asynchronous function runs until its next [await], is suspended
    there, and goes on when the awaited call is done.  A flow is what is
    left to run; between two awaits it reads and writes the module state
    without interruption. *)
Inductive flow :=
  | Finished
  | Exhausted                                   (* out of fuel *)
  | Sync (act : world → world) (next : flow)    (* write the module state *)
  | Read (next : world → flow)                  (* read the module state *)
  | Await (c : call) (next : flow).

(** [loadDependency(name)], followed by [next]. *)
Fixpoint loadDependencyFlow (fuel : nat) (caller : option string) (name : string)
    (next : flow) : flow :=
  match fuel with
  | O => Exhausted
  | S fuel' =>
      Sync (noteCall caller name)
        (Read (λ w,
           if decide (cachedNames w !! name = Some full) then next
           else
             let code := fetchText ("/crates/" +:+ name +:+ ".rs") in
             let manifest := fetchText ("/crates/" +:+ name +:+ ".toml") in
             let needed := neededCrates name code manifest in
             Await (FetchText ("/crates/" +:+ name +:+ ".rs"))
               (Await (FetchText ("/crates/" +:+ name +:+ ".toml"))
                  (Await (Session "loadDependency" [name; code; manifest])
                     (Sync (cachedNames_set name full)
                        (foldr (λ crate next',
                                  if decide (crate ∈ CRATES)
                                  then loadDependencyFlow fuel' (Some name) crate next'
                                  else next')
                               next needed))))))
  end.

(** The body of the loop of [update] for one crate, followed by [next].
    [status] is read before the await and the cache is written after it. *)
Definition updateCrateFlow (fuel : nat) (text : string) (crate : string) (next : flow)
  : flow :=
  Read (λ w,
    let status := cachedNames w !! crate in
    if decide (status = Some full) then next
    else if RegExp_test (crate +:+ "::") text then loadDependencyFlow fuel None crate next
    else if decide (status ≠ Some empty) then
      Await (Session "loadDependency" [crate]) (Sync (cachedNames_set crate empty) next)
    else next).

(** [update(model)] *)
Definition updateFlow (fuel : nat) (m : model) : flow :=
  foldr (updateCrateFlow fuel (getValue m))
    (Read (λ w,
       let diagnostics :=
         diagnosticsOf (sessionCalls (trace w)) (uri_path m) (getValue m) in
       Await (Session "update" [uri_path m; getValue m])
         (Sync (setModelMarkers m diagnostics) Finished)))
    CRATES.

Definition emit (e : event) (w : world) : world :=
  {| cachedNames := cachedNames w; trace := trace w ++ [e];
     markers := markers w; loadCalls := loadCalls w |}.

(** A flow alone: every await is answered before anything else happens. *)
Fixpoint runAlone (f : flow) (w : world) : option world :=
  match f with
  | Finished => Some w
  | Exhausted => None
  | Sync act next => runAlone next (act w)
  | Read next => runAlone (next w) w
  | Await c next => runAlone next (await c w)
  end.

(** A flow runs up to its next await, where the call is issued. *)
Fixpoint advance (f : flow) (w : world) : flow * world :=
  match f with
  | Sync act next => advance next (act w)
  | Read next => advance (next w) w
  | Await c next => (Await c next, emit (Req c) w)
  | Finished => (Finished, w)
  | Exhausted => (Exhausted, w)
  end.

(** The awaited call of a suspended flow is done: the flow goes on. *)
Definition resume (f : flow) (w : world) : flow * world :=
  match f with
  | Await c next => advance next (emit (Done c) w)
  | _ => (f, w)
  end.

(** Several flows at once: a function is called ([Spawn]) or the call
    that the [i]-th flow awaits is done ([Settle]). *)
Inductive turn :=
  | Spawn (f : flow)
  | Settle (i : nat).

Definition takeTurn (s : list flow * world) (t : turn) : list flow * world :=
  match t with
  | Spawn f => let '(f', w') := advance f s.2 in (s.1 ++ [f'], w')
  | Settle i =>
      match s.1 !! i with
      | Some f => let '(f', w') := resume f s.2 in (<[i := f']> s.1, w')
      | None => s
      end
  end.

Definition takeTurns (s : list flow * world) (ts : list turn) : list flow * world :=
  fold_left takeTurn ts s.

End Loader.
End Loader.

(** ** Local files: [loadLocalFiles] *)

(** [String.prototype.endsWith]: the last [length suffix] characters of
    [s] are [suffix]; false when [s] is the shorter. *)
Definition endsWith (s suffix : string) : bool :=
  let n := String.length s in
  let k := String.length suffix in
  if (k <=? n)%nat then String.eqb (substring (n - k) k s) suffix else false.

Module Workspace.
Section Workspace.

(** The content of a file, a resolver, the results of the engine. *)
Context {Content Result Resolver : Type}.

(** [PgExplorer.getFileContent], by path. *)
Context (getFileContent : string → Content).

Local Abbreviation chan := (@Channel.chan (list (string * Content)) Result Resolver).

(** [const files]: the pairs [[path, content]] of the Rust files, for the
    paths [Object.keys(PgExplorer.files)] in the order it lists them. *)
Definition rustFiles (keys : list string) : list (string * Content) :=
  (λ path, (path, getFileContent path)) <$>
    filter (λ path, endsWith path ".rs" = true) keys.

(** [loadLocalFiles()]: [state] is the proxy of the channel, so
    [state.loadLocalFiles] is what [proxyHandler.get] gives for that
    property; calling [undefined] would be a [TypeError], here [None]. *)
Definition loadLocalFiles (keys : list string) (res : Resolver) (st : chan)
  : option chan :=
  let files := rustFiles keys in
  match Channel.proxyHandler_get "loadLocalFiles" with
  | Some loadLocalFiles => Some (loadLocalFiles [files] res st)
  | None => None
  end.

End Workspace.
End Workspace.

(** ** Editor providers: [registerProviders] *)

Module Providers.

(** A range of the editor, as the engine reports it. *)
Record range := Range {
  startLineNumber : Z;
  startColumn : Z;
  endLineNumber : Z;
  endColumn : Z;
}.

Record position := Position {
  column : Z;
  lineNumber : Z;
}.

(** A hint as [state.inlayHints()] returns it. *)
Record hint := MkHint {
  hintType : Z;
  hint_range : range;       (* [hint.range] *)
  hint_label : string;      (* [hint.label] *)
}.

(** [monaco.languages.InlayHintKind] *)
Inductive InlayHintKind := Type_ | Parameter_.

(** A hint as the editor takes it; [paddingRight] is absent ([None])
    unless the provider sets it. *)
Record inlayHint := InlayHint {
  kind : InlayHintKind;
  position_of : position;   (* [position] *)
  label : string;
  paddingRight : option bool;
}.

(** The callback of [hints.map]: the [switch] on [hint.hintType]; the
    [default] branch throws, here [None]. *)
Definition inlayHintOf (h : hint) : option inlayHint :=
  if decide (hintType h = 1) then
    Some {| kind := Type_;
            position_of := {| column := endColumn (hint_range h);
                              lineNumber := endLineNumber (hint_range h) |};
            label := ": " +:+ hint_label h;
            paddingRight := None |}
  else if decide (hintType h = 2) then
    Some {| kind := Parameter_;
            position_of := {| column := startColumn (hint_range h);
                              lineNumber := startLineNumber (hint_range h) |};
            label := hint_label h +:+ ": ";
            paddingRight := Some true |}
  else None.

(** [provideInlayHints], on the hints the engine returned: the [hints]
    of the list it returns, or [None] when the callback throws. *)
Definition provideInlayHints (hints : list hint) : option (list inlayHint) :=
  mapM inlayHintOf hints.

End Providers.

(** ** Command arguments: [createArgs] *)

Module Commands.

(** An argument of a command: its name and the [optional] property,
    which may be absent. *)
Record Arg := MkArg {
  name : string;
  optional : option bool;
}.

(** [arg.optional] as a condition: absent and [false] are falsy. *)
Definition isTruthy (v : option bool) : bool :=
  match v with
  | Some true => true
  | _ => false
  end.

(** The loop of [createArgs] from the state [isOptional]; [false] is the
    [throw]. *)
Fixpoint createArgsLoop (isOptional : bool) (args : list Arg) : bool :=
  match args with
  | [] => true
  | arg :: rest =>
      if isOptional && negb (isTruthy (optional arg)) then false
      else createArgsLoop (if isTruthy (optional arg) then true else isOptional) rest
  end.

(** [createArgs(...args)]: the arguments, or the message of the error it
    throws.  [let isOptional] starts as [undefined], which is falsy. *)
Definition createArgs (args : list Arg) : string + list Arg :=
  if createArgsLoop false args then inr args
  else inl "Optional arguments must come after required arguments".

End Commands.

(** ** Tutorials: the lookups of [PgTutorial] *)

Module PgTutorial.
Section PgTutorial.

(** A tutorial of the catalogue [TUTORIALS] and its [name]. *)
Context {TutorialData : Type}.
Context (name : TutorialData → string).
Context (TUTORIALS : list TutorialData).

(** [getTutorialData(tutorialName)]: [None] is [undefined]. *)
Definition getTutorialData (tutorialName : string) : option TutorialData :=
  List.find (λ t, bool_decide (name t = tutorialName)) TUTORIALS.

(** [isWorkspaceTutorial(workspaceName)] *)
Definition isWorkspaceTutorial (workspaceName : string) : bool :=
  existsb (λ t, bool_decide (name t = workspaceName)) TUTORIALS.

(** [isCurrentWorkspaceTutorial()], on [PgExplorer.currentWorkspaceName];
    a name that is absent or the empty string is falsy. *)
Definition isCurrentWorkspaceTutorial (currentWorkspaceName : option string) : bool :=
  match currentWorkspaceName with
  | Some workspaceName =>
      if decide (workspaceName = "") then false else isWorkspaceTutorial workspaceName
  | None => false
  end.

(** [getUserTutorialNames()], on [PgExplorer.allWorkspaceNames]; the
    names are asserted to exist, and [filter] on [undefined] is a
    [TypeError], here [None]. *)
Definition getUserTutorialNames (allWorkspaceNames : option (list string))
  : option (list string) :=
  match allWorkspaceNames with
  | Some names => Some (filter (λ n, isWorkspaceTutorial n = true) names)
  | None => None
  end.

End PgTutorial.
End PgTutorial.

(** ** Vocabulary for the Call Channel properties *)

Import Channel.

Section ChannelVocabulary.

Context {Arg Result Resolver : Type}.
Context `{EqDecision Resolver}.

Local Abbreviation action := (@action Arg Result Resolver).
Local Abbreviation chan := (@chan Arg Result Resolver).

(** The resolvers of the calls a schedule issues, in order. *)
Definition resolversOf (sched : list action) : list Resolver :=
  omap (λ act, match act with Issue _ _ res => Some res | Arrive _ => None end) sched.

(** How many calls a schedule issues. *)
Definition issues (sched : list action) : nat := length (resolversOf sched).

(** The correlation ids of the replies of a schedule, in arrival order;
    the readiness message is not a reply. *)
Definition replyIds (sched : list action) : list jsval :=
  omap (λ act, match act with
               | Arrive ev => if decide (reply_id ev = READY) then None
                              else Some (reply_id ev)
               | Issue _ _ _ => None
               end) sched.

(** The invocations of one resolver, with the result each one received. *)
Definition invocations (r : Resolver) (st : chan) : list (Resolver * Result) :=
  filter (λ p, p.1 = r) (resolved st).

(** No reply comes before its request: a reply bears the id of one of the
    calls issued before it arrives. *)
Definition causal (sched : list action) : Prop :=
  ∀ s1 ev s2, sched = s1 ++ Arrive ev :: s2 → reply_id ev ≠ READY →
    ∃ k, reply_id ev = JNum k ∧ k <= Z.of_nat (issues s1).

(** The resolvers that wait in the pending table. *)
Definition pendingResolvers (st : chan) : list Resolver :=
  (map_to_list (pendingResolve st)).*2.

(** Every key of the pending table is an id below the next one. *)
Definition keysBelow (st : chan) : Prop :=
  ∀ key, is_Some (pendingResolve st !! key) →
    ∃ k : Z, key = propertyKey (JNum k) ∧ k < next_id st.

End ChannelVocabulary.

(** A sample session: three calls, answered out of order, the second
    before the third is issued. *)
Definition sampleSchedule : list (@action string string nat) :=
  [Issue "hover" ["3"; "14"] 10%nat;
   Issue "completions" ["3"; "15"] 11%nat;
   Arrive (Reply (JNum 2) "suggestions");
   Issue "inlayHints" [] 12%nat;
   Arrive (Reply (JNum 3) "hints");
   Arrive (Reply (JNum 1) "hover text")].

(** ** Vocabulary for the loader and pipeline properties *)

Import Loader.

Section LoaderVocabulary.

Context {Diag : Type}.
Context (CRATES : list string).
Context (fetchText : string → string).
Context (neededCrates : string → string → string → list string).
Context (diagnosticsOf : list (string * list string) → string → string → list Diag).

Local Abbreviation world := (@world Diag).
Local Abbreviation flow := (@flow Diag).
Local Abbreviation turn := (@turn Diag).

(** The three statuses of the spec: no entry, ["empty"], ["full"]. *)
Definition isFull (w : world) (name : string) : Prop :=
  cachedNames w !! name = Some full.

#[global] Instance isFull_dec (w : world) (name : string) : Decision (isFull w name).
Proof. unfold isFull. apply _. Defined.

Definition isEmpty (w : world) (name : string) : Prop :=
  cachedNames w !! name = Some empty.

Definition notLoaded (w : world) (name : string) : Prop :=
  cachedNames w !! name = None.

(** Position of a status on the path NotLoaded, Empty, Full. *)
Definition rank (s : option status) : nat :=
  match s with
  | None => 0
  | Some empty => 1
  | Some full => 2
  end.

(** The dependency graph: what the engine returns when it ingests [name]
    with the source and the manifest the store holds for it. *)
Definition requirements (name : string) : list string :=
  neededCrates name (fetchText ("/crates/" +:+ name +:+ ".rs"))
                    (fetchText ("/crates/" +:+ name +:+ ".toml")).

(** The invocations of [loadDependency] that the invocation for [name]
    makes in turn, once it has ingested [name]. *)
Definition recursiveCalls (name : string) : list (option string * string) :=
  (λ crate, (Some name, crate)) <$> filter (λ crate, crate ∈ CRATES) (requirements name).

(** The engine call of a full ingestion, and the whole ingestion: two
    fetches and the engine call, each awaited. *)
Definition ingestCall (name : string) : call :=
  Session "loadDependency"
          [name; fetchText ("/crates/" +:+ name +:+ ".rs");
           fetchText ("/crates/" +:+ name +:+ ".toml")].

Definition ingestion (name : string) : list event :=
  [Req (FetchText ("/crates/" +:+ name +:+ ".rs"));
   Done (FetchText ("/crates/" +:+ name +:+ ".rs"));
   Req (FetchText ("/crates/" +:+ name +:+ ".toml"));
   Done (FetchText ("/crates/" +:+ name +:+ ".toml"));
   Req (ingestCall name); Done (ingestCall name)].

(** The three requests of an ingestion. *)
Definition ingestionRequests (name : string) : list event :=
  [Req (FetchText ("/crates/" +:+ name +:+ ".rs"));
   Req (FetchText ("/crates/" +:+ name +:+ ".toml"));
   Req (ingestCall name)].

(** The engine call that registers a known-but-empty crate. *)
Definition registerCall (name : string) : call :=
  Session "loadDependency" [name].

Definition registration (name : string) : list event :=
  [Req (registerCall name); Done (registerCall name)].

(** The diagnostics request of [update]. *)
Definition diagnosticsCall (m : model) : call :=
  Session "update" [uri_path m; getValue m].

(** What a run added to the trace and to the ghost log. *)
Definition newEvents (w w' : world) : list event :=
  drop (length (trace w)) (trace w').

Definition newLoadCalls (w w' : world) : list (option string * string) :=
  drop (length (loadCalls w)) (loadCalls w').

(** The ghost log is only ever extended. *)
Definition logGrows (w w' : world) : Prop := loadCalls w `prefix_of` loadCalls w'.

(** The cache never steps back on the path NotLoaded, Empty, Full. *)
Definition cacheGrows (w w' : world) : Prop :=
  ∀ name, (rank (cachedNames w !! name) ≤ rank (cachedNames w' !! name))%nat.

(** How often an event occurs in a trace, an invocation in the log. *)
Definition occurrences (e : event) (tr : list event) : nat :=
  length (filter (λ x, x = e) tr).

Definition invocationsOf (c : option string * string)
    (log : list (option string * string)) : nat :=
  length (filter (λ x, x = c) log).

(** How often a name occurs in a list of names. *)
Definition timesIn (name : string) (l : list string) : nat :=
  length (filter (λ x, x = name) l).

(** An event of dependency loading: a fetch from the store or a call of
    the session method [loadDependency]. *)
Definition loadingCall (c : call) : Prop :=
  match c with
  | FetchText _ => True
  | Session method _ => method = "loadDependency"
  end.

Definition loadingEvent (e : event) : Prop :=
  match e with
  | Req c | Done c => loadingCall c
  end.

(** A trace in which no call is issued while another is outstanding. *)
Inductive sequential : list event → Prop :=
  | sequential_nil : sequential []
  | sequential_await c tr : sequential tr → sequential (Req c :: Done c :: tr).

(** What step 1 of [update] may do for one crate: nothing, the
    registration of the crate, or a run that starts with the ingestion of
    the crate. *)
Definition stepOneOf (crate : string) (seg : list event) : Prop :=
  seg = [] ∨ seg = registration crate ∨ ∃ rest, seg = ingestion crate ++ rest.

(** [loads w L w']: from [w] to [w'] the crates of [L], none of them full
    in [w], were ingested one after the other, each once, and marked
    full; nothing else happened to the cache, the trace or the markers. *)
Definition loads (w : world) (L : list string) (w' : world) : Prop :=
  NoDup L ∧
  (∀ n, n ∈ L → ¬ isFull w n) ∧
  trace w' = trace w ++ concat (ingestion <$> L) ∧
  (∀ n, cachedNames w' !! n = if decide (n ∈ L) then Some full else cachedNames w !! n) ∧
  markers w' = markers w.

(** What an invocation of [loadDependency] for [name] amounts to: the
    crates [L] it loads, [name] first unless it was full already and all
    others permitted; the invocations it logs; and every permitted
    requirement of a loaded crate full at the end. *)
Definition loadedBy (caller : option string) (name : string) (w w' : world) : Prop :=
  ∃ L, loads w L w' ∧
       (if decide (isFull w name) then L = []
        else ∃ L', L = name :: L' ∧ Forall (λ n, n ∈ CRATES) L') ∧
       loadCalls w' ≡ₚ loadCalls w ++ (caller, name) :: concat (recursiveCalls <$> L) ∧
       (∀ n c, n ∈ L → c ∈ requirements n → c ∈ CRATES → isFull w' c).

(** The text holds the pattern somewhere. *)
Definition occursIn (pattern text : string) : Prop :=
  ∃ before after, text = before +:+ pattern +:+ after.

(** [progress w L R w']: from [w] to [w'] the crates of [L] were ingested
    and marked full and the crates of [R] were registered and marked
    empty, each once, in some interleaving; nothing else happened to the
    cache, the trace or the markers. *)
Definition progress (w : world) (L R : list string) (w' : world) : Prop :=
  NoDup L ∧ (∀ n, n ∈ L → ¬ isFull w n) ∧
  NoDup R ∧ (∀ n, n ∈ R → notLoaded w n) ∧
  (∃ tr, trace w' = trace w ++ tr ∧
         tr ≡ₚ concat (ingestion <$> L) ++ concat (registration <$> R)) ∧
  (∀ n, cachedNames w' !! n =
        if decide (n ∈ L) then Some full
        else if decide (n ∈ R) then Some empty
        else cachedNames w !! n) ∧
  markers w' = markers w.

(** What step 1 of [update] amounts to over the crates [l]: the crates
    [L] it loads and [R] it registers, the invocations it logs ([tops]
    are those of [update] itself), and which crates end where. *)
Definition stepOneDid (text : string) (l : list string) (w w' : world) : Prop :=
  ∃ L R tops,
    progress w L R w' ∧
    loadCalls w' ≡ₚ loadCalls w ++ tops ++ concat (recursiveCalls <$> L) ∧
    Forall (λ p, p.1 = None) tops ∧
    (∀ c, c ∈ l → RegExp_test (c +:+ "::") text = true → isFull w' c) ∧
    (∀ c, c ∈ R → c ∈ l ∧ RegExp_test (c +:+ "::") text = false) ∧
    (∀ c, c ∈ l → notLoaded w c → c ∈ L ∨ c ∈ R) ∧
    ((∀ c, c ∈ l → RegExp_test (c +:+ "::") text = false) → L = [] ∧ tops = []) ∧
    (∀ n c, n ∈ L → c ∈ requirements n → c ∈ CRATES → isFull w' c).

(** [name] requires [crate] and [crate] is permitted: the edges that
    [loadDependency] follows. *)
Definition follows (name crate : string) : Prop :=
  crate ∈ requirements name ∧ crate ∈ CRATES.

(** [leftAlone n w w']: from [w] to [w'] the status of [n] did not change
    and no request that would load or register [n] was issued. *)
Definition leftAlone (n : string) (w w' : world) : Prop :=
  cachedNames w' !! n = cachedNames w !! n ∧
  ∃ tr, trace w' = trace w ++ tr ∧
        ∀ e, e ∈ Req (registerCall n) :: ingestionRequests n → e ∉ tr.

(** [fullWithin P w w']: a crate that is full in [w'] was full in [w] or
    is one of [P]. *)
Definition fullWithin (P : string → Prop) (w w' : world) : Prop :=
  ∀ n, isFull w' n → isFull w n ∨ P n.

(** [fullBy w before n]: [n] is full once the events [before] have
    happened from [w]: it was full in [w], or [before] holds the engine
    call that ingests it. *)
Definition fullBy (w : world) (before : list event) (n : string) : Prop :=
  isFull w n ∨ Req (ingestCall n) ∈ before.

(** [seenBy w before n]: [n] has a status by then: it is full by then, it
    was empty in [w], or [before] holds its registration. *)
Definition seenBy (w : world) (before : list event) (n : string) : Prop :=
  fullBy w before n ∨ isEmpty w n ∨ Req (registerCall n) ∈ before.

(** What step 1 of [update] issues for [crate] when it comes to it, the
    events [before] having happened from [w].  A crate the text uses is
    passed over when full by then; otherwise it is ingested, and after it
    permitted crates it requires that were not full, each once, until
    every permitted requirement of an ingested crate is full.  A crate
    the text does not use is passed over when it has a status by then;
    otherwise it is registered. *)
Definition stepOneAt (text : string) (w : world) (before : list event)
    (crate : string) (seg : list event) : Prop :=
  (occursIn (crate +:+ "::") text →
     (fullBy w before crate → seg = []) ∧
     (¬ fullBy w before crate →
        ∃ L, seg = concat (ingestion <$> crate :: L) ∧ NoDup (crate :: L) ∧
             Forall (λ n, n ∈ CRATES ∧ ¬ fullBy w before n ∧ rtc follows crate n) L ∧
             ∀ n c, n ∈ crate :: L → follows n c → fullBy w (before ++ seg) c)) ∧
  (¬ occursIn (crate +:+ "::") text →
     (seenBy w before crate → seg = []) ∧
     (¬ seenBy w before crate → seg = registration crate)).

(** The segments [segs] are what step 1 issues for the crates [l], one
    after the other in the order of [l], each decided by what happened
    before it. *)
Fixpoint stepOneInOrder (text : string) (w : world) (before : list event)
    (l : list string) (segs : list (list event)) : Prop :=
  match l, segs with
  | [], [] => True
  | crate :: l', seg :: segs' =>
      stepOneAt text w before crate seg ∧
      stepOneInOrder text w (before ++ seg) l' segs'
  | _, _ => False
  end.

(** [tracks w tr w']: [w'] is [w] after the events [tr], and its cache is
    what [tr] says: full what is full by then, empty what was registered
    and not ingested, and as in [w] otherwise. *)
Definition tracks (w : world) (tr : list event) (w' : world) : Prop :=
  trace w' = trace w ++ tr ∧
  ∀ n, (fullBy w tr n → isFull w' n) ∧
       (¬ fullBy w tr n → Req (registerCall n) ∈ tr → isEmpty w' n) ∧
       (¬ fullBy w tr n → Req (registerCall n) ∉ tr →
          cachedNames w' !! n = cachedNames w !! n).

(** The permitted crates that are not full: what is left to load. *)
Definition unloaded (w : world) : list string :=
  filter (λ crate, ¬ isFull w crate) CRATES.

(** Fuel that is always enough. *)
Definition fuelBound : nat := S (S (length CRATES)).

(** The spec's [markSeen(name)]: in the source it is the path of the loop
    body of [update] for a crate the text does not use. *)
Definition markSeen (name : string) (w : world) : world :=
  if decide (cachedNames w !! name = Some full) then w
  else if decide (cachedNames w !! name = Some empty) then w
  else cachedNames_set name empty (await (registerCall name) w).

(** The operations of a session, run one after the other. *)
Inductive operation :=
  | OpUpdate (m : model)
  | OpLoadDependency (name : string)
  | OpMarkSeen (name : string).

Definition runOp (fuel : nat) (op : operation) (w : world) : option world :=
  match op with
  | OpUpdate m => update CRATES fetchText neededCrates diagnosticsOf fuel m w
  | OpLoadDependency name => loadDependency CRATES fetchText neededCrates fuel None name w
  | OpMarkSeen name => updateCrate CRATES fetchText neededCrates fuel "" name w
  end.

Definition runOps (fuel : nat) (ops : list operation) (w : world) : option world :=
  forOf (runOp fuel) ops w.

(** The operations of a session as flows. *)
Definition opFlow (fuel : nat) (op : operation) : flow :=
  match op with
  | OpUpdate m => updateFlow CRATES fetchText neededCrates diagnosticsOf fuel m
  | OpLoadDependency name =>
      loadDependencyFlow CRATES fetchText neededCrates fuel None name Finished
  | OpMarkSeen name =>
      updateCrateFlow CRATES fetchText neededCrates fuel "" name Finished
  end.

(** A turn of a session: an operation is called, or a call some flow
    awaits is done. *)
Definition sessionTurn (t : turn) : Prop :=
  match t with
  | Spawn f => ∃ fuel op, f = opFlow fuel op
  | Settle _ => True
  end.

(** [keepsFull name f]: whatever else runs between its awaits, the flow
    [f] leaves [name] full when it finds it full. *)
Fixpoint keepsFull (name : string) (f : flow) : Prop :=
  match f with
  | Finished | Exhausted => True
  | Sync act next => (∀ w, isFull w name → isFull (act w) name) ∧ keepsFull name next
  | Read next => ∀ w, isFull w name → keepsFull name (next w)
  | Await _ next => keepsFull name next
  end.

(** The worlds a session can be in. *)
Definition reachable (w : world) : Prop :=
  ∃ fuel ops, runOps fuel ops init = Some w.

(** Every permitted requirement of a full crate is full. *)
Definition closed (w : world) : Prop :=
  ∀ name crate, isFull w name → crate ∈ requirements name → crate ∈ CRATES →
    isFull w crate.

End LoaderVocabulary.

(** ** A sample workspace *)

(** Three permitted crates; in the sample store [anchor_lang] and
    [solana_program] require each other, and [anchor_lang] also requires
    [borsh], which is not permitted. *)
Definition sampleCrates : list string :=
  ["anchor_lang"; "solana_program"; "spl_token"].

Definition sampleStore (url : string) : string := "contents of " +:+ url.

Definition sampleNeeded (name code manifest : string) : list string :=
  if decide (name = "anchor_lang") then ["solana_program"; "borsh"]
  else if decide (name = "solana_program") then ["anchor_lang"]
  else [].

Definition sampleDiagnostics (asked : list (string * list string)) (path text : string)
  : list string :=
  [].

Definition sampleModel : model := Model "/src/lib.rs" "use anchor_lang::prelude::*;".

Definition plainModel : model := Model "/src/lib.rs" "pub fn add(a: u64, b: u64) {}".

(** A world in which [anchor_lang] is full already. *)
Definition laterWorld : @world string :=
  {| cachedNames := {["anchor_lang" := full]}; trace := []; markers := ∅;
     loadCalls := [] |}.

(** Two calls of [update] that overlap: the second is called while the
    first awaits the engine call that ingests [anchor_lang]; the engine
    answers the two calls in the order it received them. *)
Definition overlapTurns : list (@turn string) :=
  [Spawn (opFlow sampleCrates sampleStore sampleNeeded sampleDiagnostics 5
            (OpUpdate sampleModel));
   Settle 0; Settle 0;
   Spawn (opFlow sampleCrates sampleStore sampleNeeded sampleDiagnostics 5
            (OpUpdate plainModel));
   Settle 0; Settle 1].

(** ** Sample data for the other functions *)

Definition sampleKeys : list string :=
  ["/src/lib.rs"; "/Cargo.toml"; "/src/state.rs"; "/tests/index.test.ts"].

Definition sampleHints : list Providers.hint :=
  [Providers.MkHint 1 (Providers.Range 3 5 3 9) "u64";
   Providers.MkHint 2 (Providers.Range 4 8 4 12) "amount"].

Definition sampleArgs : list Commands.Arg :=
  [Commands.MkArg "name" None; Commands.MkArg "framework" (Some false);
   Commands.MkArg "path" (Some true)].

(** A catalogue in which two tutorials bear the same name. *)
Definition sampleTutorials : list (string * nat) :=
  [("Hello Anchor", 1%nat); ("Counter", 2%nat); ("Hello Anchor", 3%nat)].

(** * The embedding at work *)

(** Replies out of order reach the right resolvers. *)
Example sampleSchedule_resolved :
  resolved (run createWorker sampleSchedule) =
  [(11%nat, "suggestions"); (12%nat, "hints"); (10%nat, "hover text")] ∧
  map id (posted (run createWorker sampleSchedule)) = [1; 2; 3] ∧
  pendingResolve (run createWorker sampleSchedule) = ∅.
Proof. split_and!; reflexivity. Qed.

(** The readiness message resolves no call. *)
Example readiness_resolves_nothing :
  onmessage (Reply READY "ignored") (@createWorker string string nat) =
  (Returned, Chan ∅ 1 [] [] 1).
Proof. reflexivity. Qed.

(** A reply that names a member of [Object.prototype] is not dropped: the
    handler calls what it finds. *)
Example inherited_members_are_called :
  (onmessage (Reply (JStr "toString") "late") (@createWorker string string nat)).1 =
    CalledInherited "toString" "late" ∧
  (onmessage (Reply (JStr "__proto__") "late") (@createWorker string string nat)).1 =
    Threw ∧
  (onmessage (Reply (JNum 7) "late") (@createWorker string string nat)).1 = Returned.
Proof. split_and!; vm_compute; reflexivity. Qed.

(** A reply whose id is the string ["2"] reads the same property as the
    number 2. *)
Example string_id_same_key : propertyKey (JStr "2") = propertyKey (JNum 2).
Proof. reflexivity. Qed.

Example toNumber_samples :
  toNumber (JStr "42") = Some 42 ∧ toNumber (JStr "-7") = Some (-7) ∧
  toNumber READY = None ∧ js_gt (JNum 2) (JStr "1") = true.
Proof. split_and!; reflexivity. Qed.

(** [update] on a text that uses [anchor_lang]: the crate and, through
    the cycle, [solana_program] are ingested once each, [spl_token] is
    registered, and the diagnostics request comes last. *)
Example update_sampleModel_trace :
  trace <$> update sampleCrates sampleStore sampleNeeded sampleDiagnostics 5
              sampleModel init =
  Some (ingestion sampleStore "anchor_lang" ++ ingestion sampleStore "solana_program" ++
        registration "spl_token" ++
        [Req (diagnosticsCall sampleModel); Done (diagnosticsCall sampleModel)]).
Proof. vm_compute. reflexivity. Qed.

Example update_sampleModel_cache :
  cachedNames <$> update sampleCrates sampleStore sampleNeeded sampleDiagnostics 5
                    sampleModel init =
  Some {["anchor_lang" := full; "solana_program" := full; "spl_token" := empty]}.
Proof. vm_compute. reflexivity. Qed.

Example update_sampleModel_calls :
  loadCalls <$> update sampleCrates sampleStore sampleNeeded sampleDiagnostics 5
                  sampleModel init =
  Some [(None, "anchor_lang"); (Some "anchor_lang", "solana_program");
        (Some "solana_program", "anchor_lang")].
Proof. vm_compute. reflexivity. Qed.

(** Too little fuel is reported, not hidden. *)
Example loadDependency_out_of_fuel :
  loadDependency sampleCrates sampleStore sampleNeeded 1 None "anchor_lang"
    (@init string) = None.
Proof. reflexivity. Qed.

(** [endsWith] is case sensitive, and a path that is the extension alone
    counts. *)
Example endsWith_samples :
  endsWith "/src/lib.rs" ".rs" = true ∧ endsWith ".rs" ".rs" = true ∧
  endsWith "/src/lib.RS" ".rs" = false ∧ endsWith "rs" ".rs" = false ∧
  endsWith "/src/lib.rs.bak" ".rs" = false.
Proof. split_and!; reflexivity. Qed.

Example rustFiles_sampleKeys :
  Workspace.rustFiles sampleStore sampleKeys =
  [("/src/lib.rs", "contents of /src/lib.rs");
   ("/src/state.rs", "contents of /src/state.rs")].
Proof. reflexivity. Qed.

Example provideInlayHints_sampleHints :
  Providers.provideInlayHints sampleHints =
  Some [Providers.InlayHint Providers.Type_ (Providers.Position 9 3) ": u64" None;
        Providers.InlayHint Providers.Parameter_ (Providers.Position 8 4) "amount: "
          (Some true)].
Proof. reflexivity. Qed.

(** One hint of an unknown type and the provider returns no hint at all. *)
Example provideInlayHints_unknown_type :
  Providers.provideInlayHints
    (sampleHints ++ [Providers.MkHint 3 (Providers.Range 1 1 1 1) "chain"]) = None.
Proof. reflexivity. Qed.

Example createArgs_samples :
  Commands.createArgs sampleArgs = inr sampleArgs ∧
  Commands.createArgs (rev sampleArgs) =
    inl "Optional arguments must come after required arguments" ∧
  Commands.createArgs [] = inr [].
Proof. split_and!; reflexivity. Qed.

Example getTutorialData_samples :
  PgTutorial.getTutorialData fst sampleTutorials "Hello Anchor" = Some ("Hello Anchor", 1%nat) ∧
  PgTutorial.getTutorialData fst sampleTutorials "hello anchor" = None ∧
  PgTutorial.getUserTutorialNames fst sampleTutorials (Some ["solpg"; "Counter"]) =
    Some ["Counter"] ∧
  PgTutorial.isCurrentWorkspaceTutorial fst sampleTutorials (Some "") = false.
Proof. split_and!; reflexivity. Qed.

(** * Properties of the Call Channel *)

Section ChannelFacts.

Context {Arg Result Resolver : Type}.
Context `{EqDecision Resolver}.

Local Abbreviation action := (@action Arg Result Resolver).
Local Abbreviation chan := (@chan Arg Result Resolver).
Local Abbreviation reply := (@reply Result).

Implicit Types (st : chan) (sched s : list action) (ev : reply) (r res : Resolver).

(** *** Keys *)

Lemma propertyKey_JNum_inj (a b : Z) :
  propertyKey (JNum a) = propertyKey (JNum b) → a = b.
Proof. simpl. apply (inj pretty). Qed.

#[local] Instance JNum_inj : Inj (=) (=) JNum.
Proof. by intros a b [= ->]. Qed.

Lemma READY_not_number (k : Z) : JNum k ≠ READY.
Proof. discriminate. Qed.

(** *** The state the handler leaves *)

(** Whatever the handler finds under a key that is no own property, it
    leaves the channel as it is. *)
Lemma onmessage_state ev st :
  (onmessage ev st).2 =
  if decide (reply_id ev = READY) then
    {| pendingResolve := pendingResolve st; next_id := next_id st;
       posted := posted st; resolved := resolved st;
       readySignals := S (readySignals st) |}
  else
    match pendingResolve st !! propertyKey (reply_id ev) with
    | Some pending =>
        {| pendingResolve := delete (propertyKey (reply_id ev)) (pendingResolve st);
           next_id := next_id st;
           posted := posted st;
           resolved := resolved st ++ [(pending, result ev)];
           readySignals := readySignals st |}
    | None => st
    end.
Proof.
  unfold onmessage, pendingResolve_get. case_decide; [done|].
  destruct (pendingResolve st !! propertyKey (reply_id ev)); [done|].
  by repeat case_decide.
Qed.

(** *** Running a schedule *)

Lemma run_app st s1 s2 : run st (s1 ++ s2) = run (run st s1) s2.
Proof. unfold run. apply fold_left_app. Qed.

Lemma run_cons st act s : run st (act :: s) = run (step st act) s.
Proof. reflexivity. Qed.

Lemma resolversOf_app s1 s2 :
  resolversOf (s1 ++ s2) = resolversOf s1 ++ resolversOf s2.
Proof. unfold resolversOf. apply omap_app. Qed.

Lemma issues_app s1 s2 : issues (s1 ++ s2) = (issues s1 + issues s2)%nat.
Proof. unfold issues. rewrite resolversOf_app. apply length_app. Qed.

Lemma replyIds_app s1 s2 : replyIds (s1 ++ s2) = replyIds s1 ++ replyIds s2.
Proof. unfold replyIds. apply omap_app. Qed.

Lemma next_id_run st s : next_id (run st s) = next_id st + Z.of_nat (issues s).
Proof.
  revert st. induction s as [|act s IH]; intros st.
  - simpl. unfold issues. simpl. lia.
  - rewrite run_cons, IH. destruct act as [m a res|ev]; simpl.
    + unfold issues. simpl. lia.
    + rewrite onmessage_state. unfold issues. simpl.
      repeat case_match; simpl; lia.
Qed.

Lemma posted_run st s :
  map id (posted (run st s)) =
  map id (posted st) ++ seqZ (next_id st) (Z.of_nat (issues s)).
Proof.
  revert st. induction s as [|act s IH]; intros st.
  - simpl. unfold issues. simpl. by rewrite app_nil_r.
  - rewrite run_cons, IH. destruct act as [m a res|ev]; simpl.
    + rewrite map_app, <- app_assoc. simpl. f_equal.
      unfold issues. simpl length. rewrite Nat2Z.inj_succ.
      rewrite (seqZ_cons (next_id st)) by lia. do 2 f_equal; lia.
    + unfold issues. simpl.
      rewrite !onmessage_state. repeat case_match; simpl; done.
Qed.

(** *** One call among any traffic *)

Lemma invocations_snoc r st p :
  filter (λ q : Resolver * Result, q.1 = r) (resolved st ++ [p]) =
  invocations r st ++ (if decide (p.1 = r) then [p] else []).
Proof.
  unfold invocations. rewrite filter_app. f_equal.
Qed.

(** A resolver that is neither pending nor issued is never invoked. *)
Lemma run_other_resolver st s r :
  (∀ key, pendingResolve st !! key ≠ Some r) →
  r ∉ resolversOf s →
  invocations r (run st s) = invocations r st ∧
  (∀ key, pendingResolve (run st s) !! key ≠ Some r).
Proof.
  revert st. induction s as [|act s IH]; intros st Hpend Hiss; [done|].
  rewrite run_cons. destruct act as [m a res|ev].
  - simpl in Hiss. apply not_elem_of_cons in Hiss as [Hne Hiss].
    destruct (IH (callWorker m a res st)) as [IH1 IH2]; [|done|].
    + intros key. simpl. rewrite lookup_insert. case_decide; [congruence|apply Hpend].
    + simpl. by rewrite IH1.
  - simpl in Hiss. simpl step. rewrite !onmessage_state.
    destruct (decide (reply_id ev = READY)) as [Hr|Hr].
    + destruct (IH (Chan (pendingResolve st) (next_id st) (posted st)
                         (resolved st) (S (readySignals st)))) as [IH1 IH2]; done.
    + destruct (pendingResolve st !! propertyKey (reply_id ev)) as [r'|] eqn:Hl;
        [|by apply IH].
      match goal with |- context [run ?st' s] => destruct (IH st') as [IH1 IH2] end;
        [|done|].
      * intros key. simpl. rewrite lookup_delete. case_decide; [done|apply Hpend].
      * split; [|done]. rewrite IH1. unfold invocations at 1. simpl.
        rewrite invocations_snoc. simpl.
        destruct (decide (r' = r)) as [->|]; [by destruct (Hpend _ Hl)|].
        by rewrite app_nil_r.
Qed.

(** A pending call stays pending, and its resolver idle, while no reply
    bears its id. *)
Lemma run_keeps_pending st s r (k : Z) :
  pendingResolve st !! pretty k = Some r →
  (∀ key, key ≠ pretty k → pendingResolve st !! key ≠ Some r) →
  k < next_id st →
  r ∉ resolversOf s →
  (∀ ev, Arrive ev ∈ s → reply_id ev ≠ READY → propertyKey (reply_id ev) ≠ pretty k) →
  pendingResolve (run st s) !! pretty k = Some r ∧
  (∀ key, key ≠ pretty k → pendingResolve (run st s) !! key ≠ Some r) ∧
  invocations r (run st s) = invocations r st.
Proof.
  revert st. induction s as [|act s IH]; intros st Hk Hother Hlt Hiss Harr; [done|].
  rewrite run_cons. destruct act as [m a res|ev].
  - simpl in Hiss. apply not_elem_of_cons in Hiss as [Hne Hiss].
    assert (pretty (next_id st) ≠ pretty k) as Hkey.
    { intros Heq. apply (inj pretty) in Heq. lia. }
    destruct (IH (callWorker m a res st)) as (IH1 & IH2 & IH3); simpl.
    + by rewrite lookup_insert_ne.
    + intros key Hne'. rewrite lookup_insert. case_decide; [congruence|by apply Hother].
    + lia.
    + done.
    + intros ev Hin. apply Harr. by right.
    + done.
  - simpl in Hiss. simpl step. rewrite !onmessage_state.
    destruct (decide (reply_id ev = READY)) as [Hr|Hr].
    + destruct (IH (Chan (pendingResolve st) (next_id st) (posted st)
                         (resolved st) (S (readySignals st)))) as (IH1 & IH2 & IH3);
        try done.
      intros ev' Hin. apply Harr. by right.
    + assert (propertyKey (reply_id ev) ≠ pretty k) as Hkey.
      { apply Harr; [by left|done]. }
      destruct (pendingResolve st !! propertyKey (reply_id ev)) as [r'|] eqn:Hl.
      * match goal with |- context [run ?st' s] =>
          destruct (IH st') as (IH1 & IH2 & IH3) end; simpl.
        -- by rewrite lookup_delete_ne.
        -- intros key Hne'. rewrite lookup_delete. case_decide; [done|by apply Hother].
        -- done.
        -- done.
        -- intros ev' Hin. apply Harr. by right.
        -- split_and!; [done..|]. rewrite IH3. unfold invocations at 1. simpl.
           rewrite invocations_snoc. simpl.
           destruct (decide (r' = r)) as [->|]; [by destruct (Hother _ Hkey)|].
           by rewrite app_nil_r.
      * apply IH; try done. intros ev' Hin. apply Harr. by right.
Qed.

(** The call issued after [s1] is answered by [ev], the first reply after
    it that bears its id: its resolver is invoked once, whatever else the
    schedule holds. *)
Lemma run_one_call st s1 m a r s2 ev s3 :
  (∀ key, pendingResolve st !! key ≠ Some r) →
  r ∉ resolversOf (s1 ++ s2 ++ s3) →
  reply_id ev = JNum (next_id st + Z.of_nat (issues s1)) →
  (∀ ev', Arrive ev' ∈ s2 → reply_id ev' ≠ READY →
          propertyKey (reply_id ev') ≠ propertyKey (reply_id ev)) →
  invocations r (run st (s1 ++ Issue m a r :: s2 ++ Arrive ev :: s3)) =
  invocations r st ++ [(r, result ev)].
Proof.
  intros Hpend Hiss Hid Hfirst.
  rewrite !resolversOf_app in Hiss.
  apply not_elem_of_app in Hiss as [Hs1 Hiss].
  apply not_elem_of_app in Hiss as [Hs2 Hs3].
  rewrite run_app, run_cons.
  destruct (run_other_resolver st s1 r Hpend Hs1) as [Hinv1 Hpend1].
  set (st1 := run st s1) in *.
  set (k := next_id st + Z.of_nat (issues s1)) in *.
  assert (next_id st1 = k) as Hnext by apply next_id_run.
  rewrite run_app, run_cons.
  destruct (run_keeps_pending (step st1 (Issue m a r)) s2 r k) as (Hk2 & Hother2 & Hinv2).
  { simpl. rewrite Hnext. apply lookup_insert_eq. }
  { intros key Hne. simpl. rewrite Hnext, lookup_insert_ne by done. apply Hpend1. }
  { simpl. lia. }
  { done. }
  { intros ev' Hin Hr. specialize (Hfirst ev' Hin Hr). by rewrite Hid in Hfirst. }
  set (st2 := run (step st1 (Issue m a r)) s2) in *.
  destruct (run_other_resolver (step st2 (Arrive ev)) s3 r) as [Hinv3 _]; [|done|].
  - intros key. simpl. rewrite !onmessage_state. rewrite Hid.
    destruct (decide (JNum k = READY)); [done|]. simpl. rewrite Hk2. simpl.
    rewrite lookup_delete. case_decide; [done|by apply Hother2].
  - rewrite Hinv3. simpl. rewrite !onmessage_state. rewrite Hid.
    destruct (decide (JNum k = READY)); [done|]. simpl. rewrite Hk2.
    unfold invocations at 1. simpl. rewrite invocations_snoc. simpl.
    rewrite decide_True by done. by rewrite Hinv2, <- Hinv1.
Qed.

(** *** What was posted *)

Lemma posted_run_extends st s :
  ∃ l, posted (run st s) = posted st ++ l ∧ length l = issues s.
Proof.
  revert st. induction s as [|act s IH]; intros st.
  - exists []. by rewrite app_nil_r.
  - rewrite run_cons. destruct (IH (step st act)) as (l & -> & Hlen).
    destruct act as [m a res|ev]; simpl.
    + exists (Request m a (next_id st) :: l). rewrite <- app_assoc. split; [done|].
      unfold issues in *. simpl. by rewrite Hlen.
    + exists l. split; [|done]. rewrite !onmessage_state. by repeat case_match.
Qed.

Lemma posted_run_issue st s1 m a res s2 :
  posted (run st (s1 ++ Issue m a res :: s2)) !! (length (posted st) + issues s1)%nat =
  Some (Request m a (next_id st + Z.of_nat (issues s1))).
Proof.
  rewrite run_app, run_cons.
  destruct (posted_run_extends (step (run st s1) (Issue m a res)) s2) as (l2 & -> & _).
  simpl. destruct (posted_run_extends st s1) as (l1 & -> & Hlen1).
  rewrite next_id_run, <- !app_assoc.
  rewrite lookup_app_r by lia. rewrite lookup_app_r by lia.
  replace (length (posted st) + issues s1 - length (posted st) - length l1)%nat
    with 0%nat by lia.
  done.
Qed.

(** *** Replies in any order *)

Lemma elem_of_replyIds (v : jsval) s :
  v ∈ replyIds s ↔ ∃ ev, Arrive ev ∈ s ∧ reply_id ev = v ∧ v ≠ READY.
Proof.
  unfold replyIds. rewrite list_elem_of_omap. split.
  - intros ([m a res|ev] & Hin & Heq); [done|].
    destruct (decide (reply_id ev = READY)); [done|].
    exists ev. by simplify_eq.
  - intros (ev & Hin & <- & Hne). exists (Arrive ev). split; [done|].
    by rewrite decide_False.
Qed.

(** C1.  Calls are issued and replies arrive in any interleaving: every
    reply comes after its request ([causal]), and the replies bear the ids
    of the issued calls, each once, in any order (a permutation).  Then
    each call was posted under its own correlation id, a reply bearing
    that id is in the schedule, and the resolver of the call is invoked
    exactly once, with the result that reply carries. *)
Theorem callWorker_resolved_exactly_once sched :
  NoDup (resolversOf sched) →
  replyIds sched ≡ₚ JNum <$> seqZ 1 (Z.of_nat (issues sched)) →
  causal sched →
  ∀ s1 m a r s2, sched = s1 ++ Issue m a r :: s2 →
    let k := 1 + Z.of_nat (issues s1) in
    posted (run createWorker sched) !! issues s1 = Some (Request m a k) ∧
    ∃ ev, Arrive ev ∈ sched ∧ reply_id ev = JNum k ∧
          (∀ ev', Arrive ev' ∈ sched → reply_id ev' = JNum k → ev' = ev) ∧
          invocations r (run createWorker sched) = [(r, result ev)].
Proof.
  intros Hnd Hperm Hcausal s1 m a r s2 Hsched k.
  split.
  { rewrite Hsched. apply (posted_run_issue createWorker s1 m a r s2). }
  assert (NoDup (replyIds sched)) as Hndr.
  { rewrite Hperm. apply (NoDup_fmap_2 _). apply NoDup_seqZ. }
  assert (JNum k ∈ replyIds sched) as Hk.
  { rewrite Hperm. apply list_elem_of_fmap. exists k. split; [done|].
    apply elem_of_seqZ. subst sched. rewrite issues_app. unfold issues at 2.
    simpl. lia. }
  apply elem_of_replyIds in Hk as (ev & Hin & Hid & _).
  exists ev. split_and!; [done..| |].
  { apply list_elem_of_split in Hin as (t1 & t2 & Ht).
    intros ev' Hin' Hid'. rewrite Ht in Hin', Hndr.
    rewrite replyIds_app in Hndr. simpl in Hndr.
    rewrite Hid, decide_False in Hndr by done.
    apply NoDup_app in Hndr as (_ & Hn1 & Hn2). apply NoDup_cons in Hn2 as [Hn2 _].
    apply elem_of_app in Hin' as [Hin'|Hin'].
    - destruct (Hn1 (JNum k)); [|by left].
      apply elem_of_replyIds. by exists ev'.
    - apply elem_of_cons in Hin' as [[= ->]|Hin']; [done|].
      destruct Hn2. apply elem_of_replyIds. by exists ev'. }
  apply list_elem_of_split in Hin as (t1 & t2 & Ht).
  destruct (Hcausal t1 ev t2 Ht) as (k' & Hk' & Hle); [by rewrite Hid|].
  rewrite Hid in Hk'. injection Hk' as <-.
  assert (∃ s2', t1 = s1 ++ Issue m a r :: s2' ∧ s2 = s2' ++ Arrive ev :: t2)
    as (s2' & -> & ->).
  { rewrite Hsched in Ht. apply app_eq_inv in Ht as [(l & -> & Hl)|(l & -> & Hl)].
    - unfold k in Hle. rewrite issues_app in Hle. lia.
    - destruct l as [|act l]; [done|]. simpl in Hl. injection Hl as <- ->.
      by exists l. }
  clear Ht Hle. subst sched.
  rewrite (run_one_call createWorker s1 m a r s2' ev t2); simpl.
  - done.
  - intros key. by rewrite lookup_empty.
  - rewrite !resolversOf_app in Hnd. simpl in Hnd. rewrite !resolversOf_app in Hnd.
    simpl in Hnd. rewrite !resolversOf_app.
    apply NoDup_app in Hnd as (Hn1 & Hn2 & Hn3).
    apply NoDup_cons in Hn3 as [Hn3 _].
    rewrite not_elem_of_app. split; [|done].
    intros Hr. by apply (Hn2 r Hr); left.
  - done.
  - intros ev' Hin' Hne'. rewrite Hid. simpl.
    assert (reply_id ev' ∈ replyIds s2') as Hin2.
    { apply elem_of_replyIds. by exists ev'. }
    assert (reply_id ev' ≠ JNum k) as Hdiff.
    { intros Heq. rewrite replyIds_app in Hndr. simpl in Hndr.
      rewrite replyIds_app in Hndr. simpl in Hndr.
      rewrite Hid, decide_False in Hndr by done.
      apply NoDup_app in Hndr as (_ & _ & Hndr).
      apply NoDup_app in Hndr as (_ & Hndr & _).
      apply (Hndr _ Hin2). rewrite Heq. by left. }
    assert (reply_id ev' ∈ JNum <$> seqZ 1 (Z.of_nat
              (issues (s1 ++ Issue m a r :: s2' ++ Arrive ev :: t2)))) as Hnum.
    { rewrite <- Hperm, replyIds_app. simpl. rewrite replyIds_app.
      rewrite !elem_of_app. right. by left. }
    apply list_elem_of_fmap in Hnum as (k2 & Hk2 & _).
    rewrite Hk2 in *. simpl. intros Heq. apply (inj pretty) in Heq. congruence.
Qed.

(** *** Correlation ids *)

(** Every outstanding entry sits under the id of a posted request. *)
Lemma pending_posted st s :
  (∀ key, is_Some (pendingResolve st !! key) →
     ∃ q, q ∈ posted st ∧ key = propertyKey (JNum (id q))) →
  ∀ key, is_Some (pendingResolve (run st s) !! key) →
     ∃ q, q ∈ posted (run st s) ∧ key = propertyKey (JNum (id q)).
Proof.
  revert st. induction s as [|act s IH]; intros st Hst; [done|].
  rewrite run_cons. apply IH. clear IH. intros key.
  destruct act as [m a res|ev]; simpl.
  - rewrite lookup_insert. case_decide as Hk.
    + intros _. exists (Request m a (next_id st)). split; [|done].
      apply elem_of_app. right. by left.
    + intros Hsome. destruct (Hst key Hsome) as (q & Hq & ->).
      exists q. split; [|done]. apply elem_of_app. by left.
  - rewrite !onmessage_state. destruct (decide (reply_id ev = READY)); [apply Hst|].
    destruct (pendingResolve st !! propertyKey (reply_id ev)); [|apply Hst].
    simpl. rewrite lookup_delete. case_decide; [by intros [? ?]|apply Hst].
Qed.

Lemma seqZ_sorted (m n : Z) : StronglySorted Z.lt (seqZ m n).
Proof.
  destruct (decide (0 <= n)) as [Hn|Hn].
  - rewrite <- (Z2Nat.id n) by done. generalize (Z.to_nat n). clear n Hn.
    intros n. revert m. induction n as [|n IH]; intros m.
    + constructor.
    + rewrite Nat2Z.inj_succ, seqZ_cons by lia.
      replace (Z.pred (Z.succ (Z.of_nat n))) with (Z.of_nat n) by lia.
      constructor; [apply IH|].
      apply Forall_forall. intros x Hx. apply elem_of_seqZ in Hx. lia.
  - unfold seqZ. replace (Z.to_nat n) with 0%nat by lia. constructor.
Qed.

(** C8, as the code has it.  In every state a session reaches: the ids
    assigned so far are 1, 2, 3, ... in order of issue, so they strictly
    increase, none is assigned twice and the first is 1; every
    outstanding entry of the pending table sits under the id of exactly
    one issued call; and no assigned id is the readiness sentinel, which
    is a string and not a number. *)
Theorem correlation_ids_unique_and_increasing sched :
  let st := run createWorker sched in
  map id (posted st) = seqZ 1 (Z.of_nat (issues sched)) ∧
  StronglySorted Z.lt (map id (posted st)) ∧
  NoDup (map id (posted st)) ∧
  (∀ q, posted st !! 0%nat = Some q → id q = 1) ∧
  (∀ key, is_Some (pendingResolve st !! key) →
     ∃ i q, posted st !! i = Some q ∧ key = propertyKey (JNum (id q)) ∧
            ∀ j q', posted st !! j = Some q' →
                    key = propertyKey (JNum (id q')) → j = i) ∧
  (∀ q, q ∈ posted st → JNum (id q) ≠ READY).
Proof.
  intros st.
  assert (map id (posted st) = seqZ 1 (Z.of_nat (issues sched))) as Hids.
  { unfold st. by rewrite posted_run. }
  assert (NoDup (map id (posted st))) as Hnd.
  { rewrite Hids. apply NoDup_seqZ. }
  split_and!.
  - done.
  - rewrite Hids. apply seqZ_sorted.
  - done.
  - intros q Hq.
    assert (map id (posted st) !! 0%nat = Some (id q)) as Hq'.
    { by rewrite list_lookup_fmap, Hq. }
    rewrite Hids in Hq'. apply lookup_seqZ in Hq'. lia.
  - unfold st in *. intros key Hkey.
    destruct (pending_posted createWorker sched) with (key := key)
      as (q & Hq & ->); [|done|].
    { intros key'. simpl. rewrite lookup_empty. by intros [? ?]. }
    apply list_elem_of_lookup in Hq as [i Hi]. exists i, q. split_and!; [done..|].
    intros j q' Hj Heq. apply propertyKey_JNum_inj in Heq.
    eapply (NoDup_lookup _ j i (id q)); [done| |].
    + by rewrite list_lookup_fmap, Hj, Heq.
    + by rewrite list_lookup_fmap, Hi.
  - intros q _. apply READY_not_number.
Qed.

(** *** The Session Proxy *)

(** C9, as the code has it.  For every property name other than ["then"]
    the proxy hands out a method, and calling it with an argument list is
    [callWorker] with that name and those arguments and nothing more: one
    request is posted, carrying the name, the arguments and the next id. *)
Theorem proxy_forwards_verbatim (prop : string) (a : list Arg) res st :
  prop ≠ "then" →
  ∃ f, proxyHandler_get prop = Some f ∧
       f a res st = callWorker prop a res st ∧
       posted (f a res st) = posted st ++ [Request prop a (next_id st)] ∧
       resolved (f a res st) = resolved st ∧
       readySignals (f a res st) = readySignals st.
Proof.
  intros Hprop. unfold proxyHandler_get. rewrite decide_False by done.
  eexists. split; [done|]. by split_and!.
Qed.

(** *** Replies that match no pending call *)

Lemma pretty_N_go_startsLikeNumber (x : N) (acc : string) :
  (0 < x)%N ∨ startsLikeNumber acc = true → startsLikeNumber (pretty_N_go x acc) = true.
Proof.
  revert acc. induction (N.lt_wf_0 x) as [x _ IH]; intros s Hs.
  assert (x = 0 ∨ 0 < x)%N as [->|Hx] by lia.
  - rewrite pretty_N_go_0. destruct Hs as [Hs|Hs]; [lia|done].
  - rewrite pretty_N_go_step by done. apply IH; [by apply N.div_lt|].
    right. unfold pretty_N_char. by repeat case_match.
Qed.

(** The key of a number starts as a number does; no name of
    [Object.prototype] does. *)
Lemma propertyKey_JNum_not_inherited (k : Z) : propertyKey (JNum k) ∉ Object_prototype.
Proof.
  assert (startsLikeNumber (pretty k) = true) as Hk.
  { destruct k as [|x|x]; [done| |done].
    unfold pretty, pretty_Z, pretty, pretty_positive, pretty, pretty_N.
    rewrite decide_False by done. apply pretty_N_go_startsLikeNumber. left. lia. }
  simpl. intros Hin.
  assert (Forall (λ name, startsLikeNumber name = false) Object_prototype) as Hall.
  { apply (bool_decide_unpack _). vm_compute. exact I. }
  rewrite Forall_forall in Hall. apply Hall in Hin. congruence.
Qed.

Lemma onmessage_unmatched st ev :
  reply_id ev ≠ READY → pendingResolve st !! propertyKey (reply_id ev) = None →
  onmessage ev st =
  (if decide (propertyKey (reply_id ev) ∈ Object_prototype)
   then if decide (propertyKey (reply_id ev) = "__proto__") then Threw
        else CalledInherited (propertyKey (reply_id ev)) (result ev)
   else Returned, st).
Proof.
  intros Hready Hnone. unfold onmessage, pendingResolve_get.
  rewrite decide_False by done. rewrite Hnone. by repeat case_decide.
Qed.

(** X21.  A message other than the readiness signal whose id has no entry
    in the pending table leaves the channel as it is: no resolver is
    invoked and nothing changes.  The handler then returns without a
    call, unless the id names a member of [Object.prototype], which no
    number does.  A second message bearing the id of a message just
    delivered resolves nothing, and a message bearing a number that was
    never issued is dropped in silence. *)
Theorem onmessage_unmatched_reply st ev :
  reply_id ev ≠ READY →
  (pendingResolve st !! propertyKey (reply_id ev) = None →
     (onmessage ev st).2 = st ∧
     ((onmessage ev st).1 = Returned ↔ propertyKey (reply_id ev) ∉ Object_prototype)) ∧
  (∀ k : Z, reply_id ev = JNum k → propertyKey (reply_id ev) ∉ Object_prototype) ∧
  (∀ ev', reply_id ev' ≠ READY →
          propertyKey (reply_id ev') = propertyKey (reply_id ev) →
          (onmessage ev' (onmessage ev st).2).2 = (onmessage ev st).2) ∧
  (∀ sched (k : Z), st = run createWorker sched → reply_id ev = JNum k →
          ¬ (1 <= k <= Z.of_nat (issues sched)) → onmessage ev st = (Returned, st)).
Proof.
  intros Hready. split_and!.
  - intros Hnone. rewrite (onmessage_unmatched st ev) by done. split; [done|]. simpl.
    repeat case_decide; split; done.
  - intros k ->. apply propertyKey_JNum_not_inherited.
  - intros ev' Hready' Hkey.
    rewrite (onmessage_unmatched _ ev'); [done..|]. rewrite Hkey.
    rewrite onmessage_state, decide_False by done.
    destruct (pendingResolve st !! propertyKey (reply_id ev)) eqn:Hl; [|done].
    simpl. apply lookup_delete_eq.
  - intros sched k -> Hid Hk. rewrite onmessage_unmatched; [|done|].
    { rewrite decide_False; [done|]. rewrite Hid. apply propertyKey_JNum_not_inherited. }
    apply eq_None_not_Some. intros Hsome.
    destruct (pending_posted createWorker sched) with (key := propertyKey (reply_id ev))
      as (q & Hq & Heq); [|done|].
    { intros key'. simpl. rewrite lookup_empty. by intros [? ?]. }
    rewrite Hid in Heq. apply propertyKey_JNum_inj in Heq.
    assert (id q ∈ map id (posted (run createWorker sched))) as Hin.
    { apply list_elem_of_fmap. by exists q. }
    rewrite posted_run in Hin. simpl in Hin. apply elem_of_seqZ in Hin. lia.
Qed.

(** *** No call is lost and none is resolved twice, whatever arrives *)

Lemma keysBelow_fresh st : keysBelow st → pendingResolve st !! propertyKey (JNum (next_id st)) = None.
Proof.
  intros Hkeys. apply eq_None_not_Some. intros (k & Heq & Hlt)%Hkeys.
  apply propertyKey_JNum_inj in Heq. lia.
Qed.

Lemma keysBelow_step st act : keysBelow st → keysBelow (step st act).
Proof.
  intros Hkeys key. destruct act as [m a res|ev]; simpl.
  - rewrite lookup_insert. case_decide as Hk.
    + intros _. exists (next_id st). split; [done|lia].
    + intros (k & -> & Hlt)%Hkeys. exists k. split; [done|lia].
  - rewrite !onmessage_state. destruct (decide (reply_id ev = READY)); [apply Hkeys|].
    destruct (pendingResolve st !! propertyKey (reply_id ev)); [|apply Hkeys].
    simpl. rewrite lookup_delete. case_decide; [by intros [? ?]|apply Hkeys].
Qed.

Lemma step_conserves st act :
  keysBelow st →
  pendingResolvers (step st act) ++ (resolved (step st act)).*1 ≡ₚ
  (pendingResolvers st ++ (resolved st).*1) ++ resolversOf [act].
Proof.
  intros Hkeys. unfold pendingResolvers. destruct act as [m a res|ev]; simpl.
  - rewrite map_to_list_insert by (by apply keysBelow_fresh).
    rewrite fmap_cons. simpl. rewrite <- Permutation_cons_append. done.
  - rewrite app_nil_r. rewrite !onmessage_state.
    destruct (decide (reply_id ev = READY)); [done|].
    destruct (pendingResolve st !! propertyKey (reply_id ev)) as [r|] eqn:Hl; [|done].
    simpl. rewrite <- (map_to_list_delete _ _ _ Hl).
    rewrite fmap_app, !fmap_cons. simpl.
    rewrite app_assoc, <- Permutation_cons_append. simpl. done.
Qed.

Lemma run_conserves st s :
  keysBelow st →
  pendingResolvers (run st s) ++ (resolved (run st s)).*1 ≡ₚ
  (pendingResolvers st ++ (resolved st).*1) ++ resolversOf s.
Proof.
  revert st. induction s as [|act s IH]; intros st Hkeys.
  - simpl. by rewrite app_nil_r.
  - rewrite run_cons, IH by (by apply keysBelow_step).
    rewrite (step_conserves st act Hkeys).
    change (act :: s) with ([act] ++ s). by rewrite resolversOf_app, app_assoc.
Qed.

Lemma keysBelow_createWorker : keysBelow (@createWorker Arg Result Resolver).
Proof. intros key. simpl. rewrite lookup_empty. by intros [? ?]. Qed.

Lemma run_createWorker_conserves sched :
  pendingResolvers (run createWorker sched) ++ (resolved (run createWorker sched)).*1 ≡ₚ
  resolversOf sched.
Proof.
  rewrite run_conserves by apply keysBelow_createWorker.
  unfold pendingResolvers. simpl. by rewrite map_to_list_empty.
Qed.

(** X1.  Whatever the schedule (replies that come twice, that bear ids
    never issued, that come before their request), the resolvers that
    wait in the pending table together with the resolvers that were
    invoked are, counted with multiplicity, the resolvers of the calls
    issued: no call is lost and none is answered more often than it was
    issued. *)
Theorem calls_pending_or_resolved sched :
  let st := run createWorker sched in
  pendingResolvers st ++ (resolved st).*1 ≡ₚ resolversOf sched ∧
  (size (pendingResolve st) + length (resolved st) = issues sched)%nat.
Proof.
  intros st.
  pose proof (run_createWorker_conserves sched) as Hperm. fold st in Hperm.
  split; [done|]. unfold issues. rewrite <- Hperm, length_app.
  unfold pendingResolvers. by rewrite !length_fmap, length_map_to_list.
Qed.

Lemma invocations_some r st :
  invocations r st ≠ [] → ∃ v, (r, v) ∈ invocations r st.
Proof.
  unfold invocations. induction (resolved st) as [|[r' v] l IH]; [done|].
  rewrite filter_cons. simpl. destruct (decide (r' = r)) as [->|]; [|done].
  intros _. exists v. by left.
Qed.

(** X2.  Whatever the schedule, when the resolvers of the calls are
    pairwise distinct (each call has its own promise): no resolver is
    invoked twice, a resolver is invoked only if its call was issued, and
    a resolver that was invoked waits no more in the pending table. *)
Theorem resolver_never_invoked_twice sched r :
  NoDup (resolversOf sched) →
  let st := run createWorker sched in
  (length (invocations r st) ≤ 1)%nat ∧
  (r ∉ resolversOf sched → invocations r st = []) ∧
  (invocations r st ≠ [] → r ∉ pendingResolvers st).
Proof.
  intros Hnd st.
  pose proof (run_createWorker_conserves sched) as Hperm. fold st in Hperm.
  rewrite <- Hperm in Hnd. apply NoDup_app in Hnd as (_ & Hdisj & Hres).
  assert (∀ l : list (Resolver * Result),
            NoDup l.*1 → (length (filter (λ p, p.1 = r) l) ≤ 1)%nat) as Honce.
  { induction l as [|[r' v] l IH]; [simpl; lia|]. rewrite fmap_cons. simpl.
    intros [Hnin Hl]%NoDup_cons. rewrite filter_cons. simpl.
    destruct (decide (r' = r)) as [->|]; [|by apply IH]. simpl.
    assert (filter (λ p : Resolver * Result, p.1 = r) l = []) as ->; [|simpl; lia].
    destruct (filter (λ p : Resolver * Result, p.1 = r) l) as [|[r'' v'] l'] eqn:Hf;
      [done|].
    assert ((r'', v') ∈ filter (λ p : Resolver * Result, p.1 = r) l) as Hrv.
    { rewrite Hf. by left. }
    apply list_elem_of_filter in Hrv as [Heq Hrv]. simpl in Heq. subst r''.
    destruct Hnin. apply list_elem_of_fmap. by exists (r, v'). }
  assert (∀ v, (r, v) ∈ invocations r st → r ∈ (resolved st).*1) as Hin.
  { intros v [_ Hv]%list_elem_of_filter. apply list_elem_of_fmap. by exists (r, v). }
  pose proof (invocations_some r st) as Hsome.
  split_and!.
  - by apply Honce.
  - intros Hnot. apply dec_stable. intros Hne. destruct Hnot.
    destruct (Hsome Hne) as [v Hv]. rewrite <- Hperm. apply elem_of_app. right.
    by eapply Hin.
  - intros Hne Hpend. destruct (Hsome Hne) as [v Hv].
    by apply (Hdisj r Hpend), (Hin v).
Qed.

End ChannelFacts.

(** *** The channel on a sample session *)

Lemma callWorker_resolved_exactly_once_witness :
  posted (run createWorker sampleSchedule) !! 0%nat =
    Some (Request "hover" ["3"; "14"] 1) ∧
  ∃ ev, Arrive ev ∈ sampleSchedule ∧ reply_id ev = JNum 1 ∧
        (∀ ev', Arrive ev' ∈ sampleSchedule → reply_id ev' = JNum 1 → ev' = ev) ∧
        invocations 10%nat (run createWorker sampleSchedule) = [(10%nat, result ev)].
Proof.
  apply (callWorker_resolved_exactly_once sampleSchedule)
    with (s1 := []) (s2 := tail sampleSchedule).
  - apply (bool_decide_unpack _). vm_compute. exact I.
  - apply (bool_decide_unpack _). vm_compute. exact I.
  - intros s1 ev s2 Heq Hne. unfold sampleSchedule in Heq.
    repeat (destruct s1 as [|? s1]; simplify_eq/=;
            try (eexists; split; [reflexivity|unfold issues; simpl; lia])).
  - reflexivity.
Defined.

Lemma resolver_never_invoked_twice_witness :
  (length (invocations 10%nat (run createWorker sampleSchedule)) ≤ 1)%nat ∧
  (10%nat ∉ resolversOf sampleSchedule →
   invocations 10%nat (run createWorker sampleSchedule) = []) ∧
  (invocations 10%nat (run createWorker sampleSchedule) ≠ [] →
   10%nat ∉ pendingResolvers (run createWorker sampleSchedule)).
Proof.
  apply (resolver_never_invoked_twice sampleSchedule 10%nat).
  apply (bool_decide_unpack _). vm_compute. exact I.
Defined.

Lemma correlation_ids_unique_and_increasing_witness :
  map id (posted (run createWorker sampleSchedule)) = [1; 2; 3] ∧
  (∀ q, q ∈ posted (run createWorker sampleSchedule) → JNum (id q) ≠ READY).
Proof.
  destruct (correlation_ids_unique_and_increasing sampleSchedule)
    as (Hids & _ & _ & _ & _ & Hready).
  split; [exact Hids | exact Hready].
Defined.

(** C8 as the spec words it fails on its last part: the first assigned id
    is the number 1, the sentinel is the string ["ra-worker-ready"], and a
    number is not above that string ([1 > "ra-worker-ready"] is false). *)
Lemma first_id_not_above_sentinel :
  ¬ (∀ q, posted (run createWorker sampleSchedule) !! 0%nat = Some q →
          js_gt (JNum (id q)) READY = true).
Proof.
  intros Habove. specialize (Habove (Request "hover" ["3"; "14"] 1) eq_refl).
  vm_compute in Habove. discriminate.
Qed.

Lemma proxy_forwards_verbatim_witness :
  ∃ f, proxyHandler_get "hover" = Some f ∧
       f ["3"; "14"] 10%nat createWorker = callWorker "hover" ["3"; "14"] 10%nat createWorker ∧
       posted (f ["3"; "14"] 10%nat createWorker) = [Request "hover" ["3"; "14"] 1] ∧
       resolved (f ["3"; "14"] 10%nat createWorker) = @nil (nat * string) ∧
       readySignals (f ["3"; "14"] 10%nat createWorker) = 0%nat.
Proof.
  apply (proxy_forwards_verbatim "hover" ["3"; "14"] 10%nat createWorker).
  discriminate.
Defined.

(** C9 as the spec words it fails for the property ["then"]: the proxy
    hands out no method for it, so nothing is forwarded. *)
Lemma proxy_then_not_forwarded :
  ¬ (∃ f : list string → nat → @chan string string nat → @chan string string nat,
       proxyHandler_get "then" = Some f).
Proof. intros [f Hf]. vm_compute in Hf. discriminate. Qed.

Lemma onmessage_unmatched_reply_witness :
  let st := run createWorker sampleSchedule in
  let ev := Reply (JNum 2) "late" in
  ((onmessage ev st).2 = st ∧
   ((onmessage ev st).1 = Returned ↔ propertyKey (reply_id ev) ∉ Object_prototype)) ∧
  (∀ ev', reply_id ev' ≠ READY →
          propertyKey (reply_id ev') = propertyKey (reply_id ev) →
          (onmessage ev' (onmessage ev st).2).2 = (onmessage ev st).2).
Proof.
  intros st ev.
  destruct (onmessage_unmatched_reply st ev) as (Hdrop & _ & Hdup & _).
  - discriminate.
  - split; [apply Hdrop; reflexivity | exact Hdup].
Defined.


(** * Strings and the usage pattern *)

Section StringFacts.

Implicit Types (s t pattern text : string).

Lemma append_cons c s t : String c s +:+ t = String c (s +:+ t).
Proof. reflexivity. Qed.

Lemma append_nil_l t : "" +:+ t = t.
Proof. reflexivity. Qed.

Lemma append_nil_r s : s +:+ "" = s.
Proof. induction s as [|c s IH]; [done|by rewrite append_cons, IH]. Qed.

Lemma append_assoc s1 s2 s3 : (s1 +:+ s2) +:+ s3 = s1 +:+ s2 +:+ s3.
Proof. induction s1 as [|c s1 IH]; [done|by rewrite !append_cons, IH]. Qed.

Lemma list_ascii_of_append s t :
  list_ascii_of_string (s +:+ t) = list_ascii_of_string s ++ list_ascii_of_string t.
Proof.
  induction s as [|c s IH]; [done|].
  rewrite append_cons. cbn [list_ascii_of_string]. by rewrite IH.
Qed.

Lemma append_inj_r s1 s2 t : s1 +:+ t = s2 +:+ t → s1 = s2.
Proof.
  intros Heq. apply (f_equal list_ascii_of_string) in Heq.
  rewrite !list_ascii_of_append in Heq. apply app_inv_tail in Heq.
  rewrite <- (string_of_list_ascii_of_string s1), Heq.
  apply string_of_list_ascii_of_string.
Qed.

(** The URL of a crate file names the crate. *)
Lemma crate_url_inj (ext n1 n2 : string) :
  "/crates/" +:+ n1 +:+ ext = "/crates/" +:+ n2 +:+ ext → n1 = n2.
Proof.
  intros Heq. apply (inj (String.append "/crates/")) in Heq. by eapply append_inj_r.
Qed.

Lemma prefix_append pattern t : String.prefix pattern (pattern +:+ t) = true.
Proof.
  induction pattern as [|c p IH]; [by destruct t|].
  rewrite append_cons. cbn [String.prefix].
  destruct (ascii_dec c c); [done|congruence].
Qed.

Lemma prefix_inv pattern text :
  String.prefix pattern text = true → ∃ after, text = pattern +:+ after.
Proof.
  revert text. induction pattern as [|c p IH]; intros text Hp.
  - by exists text.
  - destruct text as [|c' text]; cbn [String.prefix] in Hp; [done|].
    destruct (ascii_dec c c') as [->|]; [|done].
    destruct (IH text Hp) as [after ->]. exists after. by rewrite append_cons.
Qed.

(** The test of [update] finds the pattern exactly when the text holds it. *)
Lemma RegExp_test_spec pattern text :
  RegExp_test pattern text = true ↔ occursIn pattern text.
Proof.
  split.
  - induction text as [|c text IH]; cbn [RegExp_test].
    + destruct (String.prefix pattern "") eqn:Hp; [|done]. intros _.
      apply prefix_inv in Hp as [after Hp]. by exists "", after.
    + destruct (String.prefix pattern (String c text)) eqn:Hp.
      * intros _. apply prefix_inv in Hp as [after Hp]. by exists "", after.
      * intros (before & after & ->)%IH. exists (String c before), after.
        by rewrite append_cons.
  - intros (before & after & ->). induction before as [|c before IH].
    + rewrite append_nil_l. destruct (pattern +:+ after) eqn:Heq; cbn [RegExp_test];
        rewrite <- Heq, prefix_append; done.
    + rewrite append_cons. cbn [RegExp_test]. rewrite IH. by case_match.
Qed.

Lemma RegExp_test_longer pattern more text :
  occursIn (pattern +:+ more) text → RegExp_test pattern text = true.
Proof.
  intros (before & after & ->). apply RegExp_test_spec.
  exists before, (more +:+ after). by rewrite append_assoc.
Qed.

End StringFacts.

(** * Properties of the Dependency Loader and the Update Pipeline *)

Section LoaderFacts.

Context {Diag : Type}.
Context (CRATES : list string).
Context (fetchText : string → string).
Context (neededCrates : string → string → string → list string).
Context (diagnosticsOf : list (string * list string) → string → string → list Diag).

Local Abbreviation world := (@world Diag).
Local Abbreviation logGrows := (@logGrows Diag).
Local Abbreviation cacheGrows := (@cacheGrows Diag).
Local Abbreviation loadDependency := (@loadDependency Diag CRATES fetchText neededCrates).
Local Abbreviation updateCrate := (@updateCrate Diag CRATES fetchText neededCrates).
Local Abbreviation update := (@update Diag CRATES fetchText neededCrates diagnosticsOf).
Local Abbreviation requirements := (requirements fetchText neededCrates).
Local Abbreviation ingestion := (ingestion fetchText).
Local Abbreviation ingestCall := (ingestCall fetchText).
Local Abbreviation ingestionRequests := (ingestionRequests fetchText).
Local Abbreviation closed := (@closed Diag CRATES fetchText neededCrates).
Local Abbreviation reachable := (@reachable Diag CRATES fetchText neededCrates diagnosticsOf).
Local Abbreviation runOp := (@runOp Diag CRATES fetchText neededCrates diagnosticsOf).
Local Abbreviation runOps := (@runOps Diag CRATES fetchText neededCrates diagnosticsOf).
Local Abbreviation fuelBound := (fuelBound CRATES).
Local Abbreviation recursiveCalls := (recursiveCalls CRATES fetchText neededCrates).
Local Abbreviation loads := (@loads Diag fetchText).
Local Abbreviation unloaded := (@unloaded Diag CRATES).
Local Abbreviation progress := (@progress Diag fetchText).
Local Abbreviation stepOneOf := (stepOneOf fetchText).
Local Abbreviation follows := (follows CRATES fetchText neededCrates).
Local Abbreviation leftAlone := (@leftAlone Diag fetchText).
Local Abbreviation fullWithin := (@fullWithin Diag).
Local Abbreviation fullBy := (@fullBy Diag fetchText).
Local Abbreviation seenBy := (@seenBy Diag fetchText).
Local Abbreviation stepOneAt := (@stepOneAt Diag CRATES fetchText neededCrates).
Local Abbreviation stepOneInOrder := (@stepOneInOrder Diag CRATES fetchText neededCrates).
Local Abbreviation tracks := (@tracks Diag fetchText).
Local Abbreviation flow := (@flow Diag).
Local Abbreviation loadDependencyFlow :=
  (@loadDependencyFlow Diag CRATES fetchText neededCrates).
Local Abbreviation updateCrateFlow := (@updateCrateFlow Diag CRATES fetchText neededCrates).
Local Abbreviation updateFlow := (@updateFlow Diag CRATES fetchText neededCrates diagnosticsOf).
Local Abbreviation opFlow := (@opFlow Diag CRATES fetchText neededCrates diagnosticsOf).
Local Abbreviation sessionTurn := (@sessionTurn Diag CRATES fetchText neededCrates diagnosticsOf).
Local Abbreviation stepOneDid := (@stepOneDid Diag CRATES fetchText neededCrates).
Local Abbreviation loadedBy := (@loadedBy Diag CRATES fetchText neededCrates).

Implicit Types (w : world) (name crate : string) (L : list string).

(** The loop of [loadDependency] over the crates the engine returned. *)
Local Abbreviation recurse fuel name :=
  (λ crate w, if decide (crate ∈ CRATES)
              then loadDependency fuel (Some name) crate w
              else Some w).

(** *** Loops *)

Lemma forOf_app {A} (body : A → world → option world) l1 l2 w :
  forOf body (l1 ++ l2) w =
  match forOf body l1 w with Some w1 => forOf body l2 w1 | None => None end.
Proof.
  revert w. induction l1 as [|x l1 IH]; intros w; simpl; [done|].
  destruct (body x w); [apply IH|done].
Qed.

Lemma forOf_ext {A} (f g : A → world → option world) l w :
  (∀ x w, x ∈ l → f x w = g x w) → forOf f l w = forOf g l w.
Proof.
  revert w. induction l as [|x l IH]; intros w Hfg; simpl; [done|].
  rewrite Hfg by (by left). destruct (g x w); [|done].
  apply IH. intros y w' Hy. apply Hfg. by right.
Qed.

(** A loop whose steps all succeed and keep more fuel than they need. *)
Lemma forOf_mono {A} (f g : A → world → option world) l w w' :
  (∀ x w w', f x w = Some w' → g x w = Some w') →
  forOf f l w = Some w' → forOf g l w = Some w'.
Proof.
  intros Hfg. revert w. induction l as [|x l IH]; intros w; simpl; [done|].
  destruct (f x w) as [w1|] eqn:Hf; [|done].
  rewrite (Hfg _ _ _ Hf). apply IH.
Qed.

(** *** Fuel *)

Lemma loadDependency_unfold fuel caller name w :
  loadDependency (S fuel) caller name w =
  if decide (isFull w name) then Some (noteCall caller name w)
  else forOf (recurse fuel name) (requirements name)
         (cachedNames_set name full
            (await (ingestCall name)
               (await (FetchText ("/crates/" +:+ name +:+ ".toml"))
                  (await (FetchText ("/crates/" +:+ name +:+ ".rs"))
                     (noteCall caller name w))))).
Proof. reflexivity. Qed.

Lemma loadDependency_fuel_mono fuel fuel' caller name w w' :
  (fuel ≤ fuel')%nat →
  loadDependency fuel caller name w = Some w' →
  loadDependency fuel' caller name w = Some w'.
Proof.
  revert fuel' caller name w w'.
  induction fuel as [|fuel IH]; intros fuel' caller name w w' Hle; [done|].
  destruct fuel' as [|fuel']; [lia|].
  rewrite !loadDependency_unfold. destruct (decide (isFull w name)); [done|].
  apply forOf_mono. intros crate w1 w2. destruct (decide (crate ∈ CRATES)); [|done].
  apply IH. lia.
Qed.

(** *** What a run of [loadDependency] amounts to *)

Lemma loads_refl w : loads w [] w.
Proof.
  split_and!; [constructor|by intros ? ?%elem_of_nil|by rewrite app_nil_r|done|done].
Qed.

Lemma loads_noteCall caller name w : loads w [] (noteCall caller name w).
Proof.
  split_and!; [constructor|by intros ? ?%elem_of_nil|simpl; by rewrite app_nil_r|done|done].
Qed.

Lemma loads_full w L w' n : loads w L w' → isFull w n → isFull w' n.
Proof.
  intros (_ & _ & _ & Hc & _) Hn. unfold isFull. rewrite Hc. by case_decide.
Qed.

Lemma loads_full_inv w L w' n : loads w L w' → isFull w' n → isFull w n ∨ n ∈ L.
Proof.
  intros (_ & _ & _ & Hc & _). unfold isFull. rewrite Hc. case_decide; auto.
Qed.

Lemma loads_loaded w L w' n : loads w L w' → n ∈ L → isFull w' n.
Proof.
  intros (_ & _ & _ & Hc & _) Hn. unfold isFull. rewrite Hc. by rewrite decide_True.
Qed.

Lemma loads_trans w L1 w1 L2 w2 :
  loads w L1 w1 → loads w1 L2 w2 → loads w (L1 ++ L2) w2.
Proof.
  intros H1 H2.
  pose proof H1 as (Hn1 & Hf1 & Ht1 & Hc1 & Hm1).
  pose proof H2 as (Hn2 & Hf2 & Ht2 & Hc2 & Hm2).
  split_and!.
  - apply NoDup_app. split_and!; [done| |done].
    intros n Hin1 Hin2. apply (Hf2 n Hin2). by eapply loads_loaded.
  - intros n [Hin|Hin]%elem_of_app; [by apply Hf1|].
    intros Hfull. apply (Hf2 n Hin). by eapply loads_full.
  - rewrite Ht2, Ht1, fmap_app, concat_app. by rewrite app_assoc.
  - intros n. rewrite Hc2, Hc1.
    destruct (decide (n ∈ L2)), (decide (n ∈ L1)), (decide (n ∈ L1 ++ L2)) as [Hin|Hin];
      try done; rewrite elem_of_app in Hin; tauto.
  - by rewrite Hm2.
Qed.

(** The ingestion proper: between the cache check and the loop. *)
Lemma loads_ingest caller name w :
  ¬ isFull w name →
  loads w [name]
    (cachedNames_set name full
       (await (ingestCall name)
          (await (FetchText ("/crates/" +:+ name +:+ ".toml"))
             (await (FetchText ("/crates/" +:+ name +:+ ".rs"))
                (noteCall caller name w))))).
Proof.
  intros Hnf. split_and!.
  - apply NoDup_singleton.
  - by intros n ->%list_elem_of_singleton.
  - simpl. by rewrite <- !app_assoc.
  - intros n. simpl. rewrite lookup_insert.
    destruct (decide (name = n)) as [->|Hne].
    + by rewrite decide_True by (by left).
    + rewrite decide_False; [done|]. by intros ->%list_elem_of_singleton.
  - done.
Qed.

Lemma recurse_loadedBy fuel name :
  (∀ caller crate w w',
     loadDependency fuel caller crate w = Some w' → loadedBy caller crate w w') →
  ∀ l w w', forOf (recurse fuel name) l w = Some w' →
    ∃ L, loads w L w' ∧ Forall (λ n, n ∈ CRATES) L ∧
         loadCalls w' ≡ₚ loadCalls w ++
           ((λ crate, (Some name, crate)) <$> filter (λ crate, crate ∈ CRATES) l) ++
           concat (recursiveCalls <$> L) ∧
         (∀ n c, n ∈ L → c ∈ requirements n → c ∈ CRATES → isFull w' c) ∧
         (∀ c, c ∈ l → c ∈ CRATES → isFull w' c).
Proof.
  intros IH l. induction l as [|x l IHl]; intros w w' Hrun; simpl in Hrun.
  - injection Hrun as <-. exists []. split_and!.
    + apply loads_refl.
    + constructor.
    + simpl. by rewrite app_nil_r.
    + by intros ? ? ?%elem_of_nil.
    + by intros ? ?%elem_of_nil.
  - destruct (decide (x ∈ CRATES)) as [Hx|Hx].
    + destruct (loadDependency fuel (Some name) x w) as [w1|] eqn:Hload; [|done].
      apply IH in Hload as (L1 & Hl1 & Hshape & Hcalls1 & Hreq1).
      apply IHl in Hrun as (L2 & Hl2 & Hperm2 & Hcalls2 & Hreq2 & Hall2).
      exists (L1 ++ L2). split_and!.
      * by eapply loads_trans.
      * apply Forall_app. split; [|done].
        destruct (decide (isFull w x)); [by subst; constructor|].
        destruct Hshape as (L' & -> & HL'). by constructor.
      * rewrite Hcalls2, Hcalls1, filter_cons, decide_True by done.
        rewrite fmap_app, concat_app, fmap_cons. simpl.
        rewrite <- !app_assoc. simpl. apply Permutation_app_head.
        constructor. rewrite !app_assoc. apply Permutation_app_tail.
        apply Permutation_app_comm.
      * intros n c [Hin|Hin]%elem_of_app Hc Hperm; [|by eapply Hreq2].
        eapply loads_full; [done|]. by eapply Hreq1.
      * intros c [->|Hin]%elem_of_cons Hperm; [|by apply Hall2].
        eapply loads_full; [done|].
        destruct (decide (isFull w x)) as [Hfull|Hnf].
        -- by eapply loads_full.
        -- destruct Hshape as (L' & -> & _). eapply loads_loaded; [done|by left].
    + apply IHl in Hrun as (L2 & Hl2 & Hperm2 & Hcalls2 & Hreq2 & Hall2).
      exists L2. split_and!; [done..| | |].
      * by rewrite filter_cons, decide_False.
      * done.
      * intros c [->|Hin]%elem_of_cons Hperm; [done|by apply Hall2].
Qed.

Lemma loadDependency_loadedBy fuel caller name w w' :
  loadDependency fuel caller name w = Some w' → loadedBy caller name w w'.
Proof.
  revert caller name w w'.
  induction fuel as [|fuel IH]; intros caller name w w' Hrun; [done|].
  rewrite loadDependency_unfold in Hrun. unfold loadedBy.
  destruct (decide (isFull w name)) as [Hfull|Hnf].
  - injection Hrun as <-. exists []. split_and!; [apply loads_noteCall|done..|].
    by intros ? ? ?%elem_of_nil.
  - apply (recurse_loadedBy fuel name IH) in Hrun
      as (L2 & Hl2 & Hperm2 & Hcalls2 & Hreq2 & Hall2).
    exists (name :: L2). split_and!.
    + change (name :: L2) with ([name] ++ L2).
      eapply loads_trans; [by apply (loads_ingest caller)|done].
    + by exists L2.
    + rewrite Hcalls2. simpl. rewrite <- !app_assoc. simpl. done.
    + intros n c [->|Hin]%elem_of_cons Hc Hperm; [by apply Hall2|by eapply Hreq2].
Qed.

Lemma loadedBy_loads caller name w w' :
  loadedBy caller name w w' → ∃ L, loads w L w'.
Proof. intros (L & HL & _). by exists L. Qed.

Lemma loadedBy_full caller name w w' : loadedBy caller name w w' → isFull w' name.
Proof.
  intros (L & HL & Hshape & _). destruct (decide (isFull w name)) as [Hfull|Hnf].
  - by eapply loads_full.
  - destruct Hshape as (L' & -> & _). eapply loads_loaded; [done|by left].
Qed.

Lemma loadedBy_mono caller name w w' n :
  loadedBy caller name w w' → isFull w n → isFull w' n.
Proof. intros (L & HL & _). by eapply loads_full. Qed.

(** *** Termination *)

Lemma unloaded_bound w : (length (unloaded w) ≤ length CRATES)%nat.
Proof. apply length_filter. Qed.

Lemma unloaded_mono w w' :
  (∀ n, isFull w n → isFull w' n) → (length (unloaded w') ≤ length (unloaded w))%nat.
Proof.
  intros Hmono. unfold unloaded. induction CRATES as [|c l IH]; [done|].
  rewrite !filter_cons.
  destruct (decide (¬ isFull w' c)) as [Hc'|Hc'], (decide (¬ isFull w c)) as [Hc|Hc];
    simpl; try lia.
  destruct Hc'. apply Hmono. by apply dec_stable.
Qed.

Lemma unloaded_less w w' name :
  (∀ n, isFull w n → isFull w' n) →
  name ∈ CRATES → ¬ isFull w name → isFull w' name →
  (length (unloaded w') < length (unloaded w))%nat.
Proof.
  intros Hmono Hin Hnf Hfull. unfold unloaded.
  induction CRATES as [|c l IH]; [by apply elem_of_nil in Hin|].
  rewrite !filter_cons.
  pose proof (unloaded_mono w w' Hmono) as Hle.
  destruct (decide (c = name)) as [->|Hne].
  - rewrite decide_False by (by intros Hn). rewrite (decide_True _ _ Hnf). simpl.
    clear IH Hin Hle. apply Nat.lt_succ_r.
    induction l as [|c l IH]; [done|]. rewrite !filter_cons.
    destruct (decide (¬ isFull w' c)) as [Hc'|Hc'], (decide (¬ isFull w c)) as [Hc|Hc];
      simpl; try lia.
    destruct Hc'. apply Hmono. by apply dec_stable.
  - apply elem_of_cons in Hin as [->|Hin]; [done|]. specialize (IH Hin).
    destruct (decide (¬ isFull w' c)) as [Hc'|Hc'], (decide (¬ isFull w c)) as [Hc|Hc];
      simpl; try lia.
    destruct Hc'. apply Hmono. by apply dec_stable.
Qed.

Lemma recurse_terminates fuel name :
  (∀ caller crate w, crate ∈ CRATES → (length (unloaded w) ≤ fuel)%nat →
     is_Some (loadDependency (S fuel) caller crate w)) →
  ∀ l w, (length (unloaded w) ≤ fuel)%nat →
    is_Some (forOf (recurse (S fuel) name) l w).
Proof.
  intros IH l. induction l as [|x l IHl]; intros w Hle; cbn [forOf]; [done|].
  destruct (decide (x ∈ CRATES)) as [Hx|Hx]; [|by apply IHl].
  destruct (IH (Some name) x w Hx Hle) as [w1 Hw1]. rewrite Hw1.
  apply IHl. etrans; [|done]. apply unloaded_mono. intros n.
  by eapply loadedBy_mono, loadDependency_loadedBy.
Qed.

Lemma loadDependency_terminates_permitted fuel caller name w :
  name ∈ CRATES → (length (unloaded w) ≤ fuel)%nat →
  is_Some (loadDependency (S fuel) caller name w).
Proof.
  revert caller name w. induction fuel as [|fuel IH]; intros caller name w Hin Hle;
    rewrite loadDependency_unfold; destruct (decide (isFull w name)) as [Hfull|Hnf];
    try done.
  - exfalso. assert (name ∈ unloaded w) as Hu by (by apply list_elem_of_filter).
    destruct (unloaded w); [by apply elem_of_nil in Hu|simpl in Hle; lia].
  - apply (recurse_terminates fuel name IH).
    match goal with |- (length (unloaded ?w4) ≤ _)%nat =>
      assert (length (unloaded w4) < length (unloaded w))%nat; [|lia] end.
    apply unloaded_less with (name := name); [|done|done|].
    + intros n. apply loads_full with (L := [name]). by apply (loads_ingest caller).
    + apply loads_loaded with (w := w) (L := [name]);
        [by apply (loads_ingest caller)|by left].
Qed.

Lemma loadDependency_terminates fuel caller name w :
  (fuelBound ≤ fuel)%nat → is_Some (loadDependency fuel caller name w).
Proof.
  intros Hle.
  assert (is_Some (loadDependency fuelBound caller name w)) as [w' Hw'].
  { unfold fuelBound. rewrite loadDependency_unfold.
    destruct (decide (isFull w name)); [done|].
    apply recurse_terminates; [apply loadDependency_terminates_permitted|].
    etrans; [|apply (unloaded_bound w)]. apply unloaded_mono. intros c.
    apply loads_full with (L := [name]). by apply (loads_ingest caller). }
  exists w'. by eapply loadDependency_fuel_mono.
Qed.

(** *** What a run of the loop of [update] amounts to *)

Lemma progress_refl w : progress w [] [] w.
Proof.
  split_and!.
  - constructor.
  - by intros ? ?%elem_of_nil.
  - constructor.
  - by intros ? ?%elem_of_nil.
  - exists []. by rewrite app_nil_r.
  - done.
  - done.
Qed.

Lemma loads_progress w L w' : loads w L w' → progress w L [] w'.
Proof.
  intros (Hn & Hf & Ht & Hc & Hm).
  split_and!.
  - done.
  - done.
  - constructor.
  - by intros ? ?%elem_of_nil.
  - eexists. split; [exact Ht|]. simpl. by rewrite app_nil_r.
  - intros n. rewrite Hc. destruct (decide (n ∈ L)); [done|].
    rewrite decide_False; [done|apply not_elem_of_nil].
  - done.
Qed.

Lemma progress_register w crate :
  notLoaded w crate →
  progress w [] [crate] (cachedNames_set crate empty (await (registerCall crate) w)).
Proof.
  intros Hnl. split_and!.
  - constructor.
  - by intros ? ?%elem_of_nil.
  - apply NoDup_singleton.
  - by intros n ->%list_elem_of_singleton.
  - eexists. split; [reflexivity|done].
  - intros n. simpl. rewrite lookup_insert.
    destruct (decide (crate = n)) as [->|Hne].
    + by rewrite decide_True by (by left).
    + rewrite (decide_False (P := n ∈ [crate])); [done|].
      by intros ->%list_elem_of_singleton.
  - done.
Qed.

Lemma progress_full w L R w' n : progress w L R w' → isFull w n → isFull w' n.
Proof.
  intros (_ & _ & _ & Hr & _ & Hc & _) Hn. unfold isFull. rewrite Hc.
  destruct (decide (n ∈ L)); [done|]. destruct (decide (n ∈ R)) as [Hin|]; [|done].
  apply Hr in Hin. unfold notLoaded, isFull in *. congruence.
Qed.

Lemma progress_full_inv w L R w' n : progress w L R w' → isFull w' n → isFull w n ∨ n ∈ L.
Proof.
  intros (_ & _ & _ & _ & _ & Hc & _). unfold isFull. rewrite Hc.
  repeat case_decide; auto. done.
Qed.

Lemma progress_trans w L1 R1 w1 L2 R2 w2 :
  progress w L1 R1 w1 → progress w1 L2 R2 w2 → progress w (L1 ++ L2) (R1 ++ R2) w2.
Proof.
  intros H1 H2.
  pose proof H1 as (Hn1 & Hf1 & Hnr1 & Hr1 & (tr1 & Ht1 & Hp1) & Hc1 & Hm1).
  pose proof H2 as (Hn2 & Hf2 & Hnr2 & Hr2 & (tr2 & Ht2 & Hp2) & Hc2 & Hm2).
  assert (∀ n, n ∈ L1 → cachedNames w1 !! n = Some full) as HL1.
  { intros n Hn. rewrite Hc1. by rewrite decide_True. }
  assert (∀ n, n ∈ R1 → cachedNames w1 !! n ≠ None) as HR1.
  { intros n Hn. rewrite Hc1. by repeat case_decide. }
  assert (∀ n, n ∈ L2 → n ∉ L1) as Hdisj.
  { intros n Hin2 Hin1. apply (Hf2 n Hin2). by apply HL1. }
  assert (∀ n, n ∈ R2 → (n ∉ L1) ∧ (n ∉ R1)) as Hdisjr.
  { intros n Hin2. apply Hr2 in Hin2. unfold notLoaded in Hin2. split.
    - intros Hin1. apply HL1 in Hin1. congruence.
    - intros Hin1. by apply HR1 in Hin1. }
  split_and!.
  - apply NoDup_app. split_and!; [done| |done]. intros n Hin1 Hin2. by apply (Hdisj n).
  - intros n [Hin|Hin]%elem_of_app; [by apply Hf1|].
    intros Hfull. apply (Hf2 n Hin). by eapply progress_full.
  - apply NoDup_app. split_and!; [done| |done]. intros n Hin1 Hin2.
    by apply (Hdisjr n Hin2).
  - intros n [Hin|Hin]%elem_of_app; [by apply Hr1|].
    pose proof (Hdisjr n Hin) as [Hl Hr]. apply Hr2 in Hin. unfold notLoaded in *.
    rewrite Hc1 in Hin. by rewrite !decide_False in Hin.
  - exists (tr1 ++ tr2). split; [by rewrite Ht2, Ht1, app_assoc|].
    rewrite Hp1, Hp2, !fmap_app, !concat_app. rewrite <- !app_assoc.
    apply Permutation_app_head. rewrite !app_assoc. apply Permutation_app_tail.
    apply Permutation_app_comm.
  - intros n. rewrite Hc2, Hc1.
    destruct (decide (n ∈ L2)) as [Hl2|Hl2].
    { rewrite decide_True; [done|]. apply elem_of_app. by right. }
    destruct (decide (n ∈ L1)) as [Hl1|Hl1].
    { rewrite (decide_True (P := n ∈ L1 ++ L2)) by (apply elem_of_app; by left).
      destruct (decide (n ∈ R2)) as [Hr2'|]; [|done]. by destruct (Hdisjr n Hr2'). }
    rewrite (decide_False (P := n ∈ L1 ++ L2)) by (rewrite elem_of_app; tauto).
    destruct (decide (n ∈ R2)) as [Hr2'|Hr2'].
    { rewrite decide_True; [done|]. apply elem_of_app. by right. }
    destruct (decide (n ∈ R1)) as [Hr1'|Hr1'].
    { rewrite decide_True; [done|]. apply elem_of_app. by left. }
    rewrite decide_False; [done|]. rewrite elem_of_app. tauto.
  - by rewrite Hm2.
Qed.

Lemma updateCrate_cases fuel text crate w w' :
  updateCrate fuel text crate w = Some w' →
  (isFull w crate ∧ w' = w) ∨
  (¬ isFull w crate ∧ RegExp_test (crate +:+ "::") text = true ∧
   loadDependency fuel None crate w = Some w') ∨
  (RegExp_test (crate +:+ "::") text = false ∧ isEmpty w crate ∧ w' = w) ∨
  (RegExp_test (crate +:+ "::") text = false ∧ notLoaded w crate ∧
   w' = cachedNames_set crate empty (await (registerCall crate) w)).
Proof.
  unfold Loader.updateCrate, isFull, isEmpty, notLoaded. intros Hrun.
  destruct (decide (cachedNames w !! crate = Some full)) as [Hf|Hf].
  { left. by simplify_eq. }
  destruct (RegExp_test (crate +:+ "::") text) eqn:Htest.
  { right. left. done. }
  destruct (decide (cachedNames w !! crate ≠ Some empty)) as [He|He].
  - do 3 right. simplify_eq. split_and!; [done| |done].
    destruct (cachedNames w !! crate) as [[]|]; done.
  - right. right. left. simplify_eq. split_and!; [done| |done]. by apply dec_stable.
Qed.

Lemma stepOneDid_nil text w : stepOneDid text [] w w.
Proof.
  exists [], [], []. split_and!.
  - apply progress_refl.
  - simpl. by rewrite app_nil_r.
  - constructor.
  - by intros ? ?%elem_of_nil.
  - by intros ? ?%elem_of_nil.
  - by intros ? ?%elem_of_nil.
  - done.
  - by intros ? ? ?%elem_of_nil.
Qed.

Lemma stepOneDid_app text l1 l2 w w1 w2 :
  stepOneDid text l1 w w1 → stepOneDid text l2 w1 w2 →
  stepOneDid text (l1 ++ l2) w w2.
Proof.
  intros (L1 & R1 & tops1 & Hp1 & Hcalls1 & Htops1 & Hused1 & HR1 & Hnl1 & Hno1 & Hreq1)
         (L2 & R2 & tops2 & Hp2 & Hcalls2 & Htops2 & Hused2 & HR2 & Hnl2 & Hno2 & Hreq2).
  exists (L1 ++ L2), (R1 ++ R2), (tops1 ++ tops2). split_and!.
  - by eapply progress_trans.
  - rewrite Hcalls2, Hcalls1, fmap_app, concat_app. rewrite <- !app_assoc.
    do 2 apply Permutation_app_head. rewrite !app_assoc. apply Permutation_app_tail.
    apply Permutation_app_comm.
  - by apply Forall_app.
  - intros c [Hin|Hin]%elem_of_app Htest; [|by apply Hused2].
    eapply progress_full; [done|]. by apply Hused1.
  - intros c [Hin|Hin]%elem_of_app.
    + destruct (HR1 c Hin) as [? ?]. split; [|done]. apply elem_of_app. by left.
    + destruct (HR2 c Hin) as [? ?]. split; [|done]. apply elem_of_app. by right.
  - intros c Hin Hnl. rewrite !elem_of_app.
    apply elem_of_app in Hin as [Hin|Hin].
    + destruct (Hnl1 c Hin Hnl); tauto.
    + destruct (decide (c ∈ L1)); [tauto|]. destruct (decide (c ∈ R1)); [tauto|].
      destruct (Hnl2 c Hin); [|tauto..].
      destruct Hp1 as (_ & _ & _ & _ & _ & Hc & _). unfold notLoaded in *.
      rewrite Hc. by rewrite !decide_False.
  - intros Hno.
    destruct Hno1 as [-> ->]. { intros c Hc. apply Hno, elem_of_app. by left. }
    destruct Hno2 as [-> ->]. { intros c Hc. apply Hno, elem_of_app. by right. }
    done.
  - intros n c [Hin|Hin]%elem_of_app Hc Hperm; [|by eapply Hreq2].
    eapply progress_full; [done|]. by eapply Hreq1.
Qed.

Lemma updateCrate_did fuel text crate w w' :
  updateCrate fuel text crate w = Some w' → stepOneDid text [crate] w w'.
Proof.
  intros [(Hfull & ->)|[(Hnf & Htest & Hload)|[(Htest & Hempty & ->)|(Htest & Hnl & ->)]]]
    %updateCrate_cases.
  - exists [], [], []. split_and!.
    + apply progress_refl.
    + simpl. by rewrite app_nil_r.
    + constructor.
    + by intros c ->%list_elem_of_singleton _.
    + by intros ? ?%elem_of_nil.
    + intros c ->%list_elem_of_singleton Hnl. unfold notLoaded, isFull in *. congruence.
    + done.
    + by intros ? ? ?%elem_of_nil.
  - pose proof (loadDependency_loadedBy _ _ _ _ _ Hload) as Hby.
    pose proof Hby as (L & Hloads & Hshape & Hcalls & Hreq).
    rewrite decide_False in Hshape by done. destruct Hshape as (L' & -> & HL').
    exists (crate :: L'), [], [(None, crate)]. split_and!.
    + by apply loads_progress.
    + by rewrite Hcalls.
    + by repeat constructor.
    + intros c ->%list_elem_of_singleton _. by eapply loadedBy_full.
    + by intros ? ?%elem_of_nil.
    + intros c ->%list_elem_of_singleton _. left. by left.
    + intros Hno. rewrite Hno in Htest; [done|by left].
    + done.
  - exists [], [], []. split_and!.
    + apply progress_refl.
    + simpl. by rewrite app_nil_r.
    + constructor.
    + intros c ->%list_elem_of_singleton Htest'. congruence.
    + by intros ? ?%elem_of_nil.
    + intros c ->%list_elem_of_singleton Hnl. unfold notLoaded, isEmpty in *. congruence.
    + done.
    + by intros ? ? ?%elem_of_nil.
  - exists [], [crate], []. split_and!.
    + by apply progress_register.
    + simpl. by rewrite app_nil_r.
    + constructor.
    + intros c ->%list_elem_of_singleton Htest'. congruence.
    + intros c ->%list_elem_of_singleton. split; [by left|done].
    + intros c ->%list_elem_of_singleton _. right. by left.
    + done.
    + by intros ? ? ?%elem_of_nil.
Qed.

Lemma updateLoop_did fuel text l w w' :
  forOf (updateCrate fuel text) l w = Some w' → stepOneDid text l w w'.
Proof.
  revert w. induction l as [|x l IH]; intros w Hrun; cbn [forOf] in Hrun.
  - injection Hrun as <-. apply stepOneDid_nil.
  - destruct (updateCrate fuel text x w) as [w1|] eqn:Hx; [|done].
    change (x :: l) with ([x] ++ l). eapply stepOneDid_app.
    + by eapply updateCrate_did.
    + by apply IH.
Qed.

(** *** Counting events *)

Lemma occurrences_app e tr1 tr2 :
  occurrences e (tr1 ++ tr2) = (occurrences e tr1 + occurrences e tr2)%nat.
Proof. unfold occurrences. by rewrite filter_app, length_app. Qed.

Lemma occurrences_perm e tr1 tr2 : tr1 ≡ₚ tr2 → occurrences e tr1 = occurrences e tr2.
Proof. intros Hp. unfold occurrences. by rewrite Hp. Qed.

Lemma occurrences_none e tr : e ∉ tr → occurrences e tr = 0%nat.
Proof.
  intros Hnin. unfold occurrences. induction tr as [|x tr IH]; [done|].
  apply not_elem_of_cons in Hnin as [Hne Hnin].
  rewrite filter_cons, decide_False by done. by apply IH.
Qed.

Lemma occurrences_concat_none e (f : string → list event) L :
  (∀ n, e ∉ f n) → occurrences e (concat (f <$> L)) = 0%nat.
Proof.
  intros Hf. induction L as [|n L IH]; [done|].
  rewrite fmap_cons, concat_cons, occurrences_app, IH, occurrences_none; done.
Qed.

(** Among the blocks of a duplicate-free list of names, an event that
    only the block of [name] holds, once, occurs once if [name] is
    listed and not at all otherwise. *)
Lemma occurrences_concat_once e (f : string → list event) name L :
  NoDup L → (∀ n, n ≠ name → e ∉ f n) → occurrences e (f name) = 1%nat →
  occurrences e (concat (f <$> L)) = if decide (name ∈ L) then 1%nat else 0%nat.
Proof.
  intros Hnd Hother Hone. induction Hnd as [|n L Hnin Hnd IH]; [done|].
  rewrite fmap_cons, concat_cons, occurrences_app, IH.
  destruct (decide (n = name)) as [->|Hne].
  - rewrite Hone, (decide_False (P := name ∈ L)) by done.
    by rewrite decide_True by (by left).
  - rewrite occurrences_none by (by apply Hother).
    destruct (decide (name ∈ L)) as [Hin|Hin].
    + by rewrite decide_True by (by right).
    + rewrite decide_False; [done|]. by intros [->|?]%elem_of_cons.
Qed.

Lemma rs_url_not_toml n1 n2 :
  "/crates/" +:+ n1 +:+ ".rs" ≠ "/crates/" +:+ n2 +:+ ".toml".
Proof.
  intros Heq. apply (inj (String.append "/crates/")) in Heq.
  apply (f_equal list_ascii_of_string) in Heq. rewrite !list_ascii_of_append in Heq.
  change (list_ascii_of_string ".rs") with ([".";"r"]%char ++ ["s"%char]) in Heq.
  change (list_ascii_of_string ".toml") with ([".";"t";"o";"m"]%char ++ ["l"%char]) in Heq.
  rewrite !app_assoc in Heq. by apply app_inj_tail in Heq as [_ ?].
Qed.

Lemma ingestCall_inj n1 n2 : Req (ingestCall n1) = Req (ingestCall n2) → n1 = n2.
Proof. by intros [= ->]. Qed.

Lemma Req_FetchText_inj (url1 url2 : string) :
  Req (FetchText url1) = Req (FetchText url2) → url1 = url2.
Proof. by intros [= ->]. Qed.

Lemma ingestion_request_once e name :
  e ∈ ingestionRequests name → occurrences e (ingestion name) = 1%nat.
Proof.
  pose proof (rs_url_not_toml name name) as Hneq.
  unfold ingestionRequests. rewrite !elem_of_cons, elem_of_nil.
  unfold occurrences, ingestion.
  intros [->|[->|[->|[]]]]; rewrite !filter_cons, filter_nil;
    repeat case_decide; simplify_eq; done.
Qed.

Lemma ingestion_request_other e name n :
  e ∈ ingestionRequests name → n ≠ name → e ∉ ingestion n.
Proof.
  unfold ingestionRequests, ingestion.
  intros He Hne Hin. rewrite !elem_of_cons, elem_of_nil in He.
  rewrite !elem_of_cons in Hin.
  destruct He as [->|[->|[->|[]]]];
    destruct Hin as [Hin|[Hin|[Hin|[Hin|[Hin|[Hin|Hin]]]]]];
    try discriminate; try (by apply elem_of_nil in Hin).
  - by apply Req_FetchText_inj, crate_url_inj in Hin.
  - by apply Req_FetchText_inj, rs_url_not_toml in Hin.
  - apply Req_FetchText_inj in Hin. symmetry in Hin. by apply rs_url_not_toml in Hin.
  - by apply Req_FetchText_inj, crate_url_inj in Hin.
  - by apply ingestCall_inj in Hin.
Qed.

Lemma ingestion_request_not_registration e name n :
  e ∈ ingestionRequests name → e ∉ registration n.
Proof.
  unfold ingestionRequests, registration.
  intros He Hin. rewrite !elem_of_cons, elem_of_nil in He.
  rewrite !elem_of_cons in Hin.
  destruct He as [->|[->|[->|[]]]]; destruct Hin as [Hin|[Hin|Hin]];
    try discriminate; by apply elem_of_nil in Hin.
Qed.

Lemma registration_request_once n :
  occurrences (Req (registerCall n)) (registration n) = 1%nat.
Proof.
  unfold occurrences, registration. rewrite !filter_cons, filter_nil.
  repeat case_decide; simplify_eq; done.
Qed.

Lemma registration_request_other name n :
  n ≠ name → Req (registerCall name) ∉ registration n.
Proof.
  intros Hne. unfold registration. rewrite !elem_of_cons.
  intros [Hin|[Hin|Hin]]; simplify_eq. by apply elem_of_nil in Hin.
Qed.

Lemma registration_request_not_ingestion name n :
  Req (registerCall name) ∉ ingestion n.
Proof.
  unfold ingestion. rewrite !elem_of_cons.
  intros [Hin|[Hin|[Hin|[Hin|[Hin|[Hin|Hin]]]]]]; simplify_eq.
  by apply elem_of_nil in Hin.
Qed.

(** *** The trace and the log only grow *)

Lemma newEvents_app w w' tr : trace w' = trace w ++ tr → newEvents w w' = tr.
Proof. intros Ht. unfold newEvents. rewrite Ht. apply drop_app_length. Qed.

Lemma forOf_preserves {A} (R : relation world) `{!PreOrder R}
    (body : A → world → option world) l w w' :
  (∀ x w w', body x w = Some w' → R w w') → forOf body l w = Some w' → R w w'.
Proof.
  intros Hbody. revert w. induction l as [|x l IH]; intros w Hrun; cbn [forOf] in Hrun.
  - by injection Hrun as <-.
  - destruct (body x w) as [w1|] eqn:Hx; [|done].
    etrans; [by eapply Hbody|by apply IH].
Qed.

#[local] Instance logGrows_preorder : PreOrder logGrows.
Proof.
  split.
  - intros w. unfold logGrows. done.
  - intros w1 w2 w3. unfold logGrows. apply transitivity.
Qed.

Lemma loadDependency_logGrows fuel caller name w w' :
  loadDependency fuel caller name w = Some w' → logGrows w w'.
Proof.
  revert caller name w w'.
  induction fuel as [|fuel IH]; intros caller name w w' Hrun; [done|].
  rewrite loadDependency_unfold in Hrun.
  destruct (decide (isFull w name)).
  - injection Hrun as <-. by apply prefix_app_r.
  - apply (forOf_preserves logGrows) in Hrun.
    + etrans; [|done]. unfold logGrows. simpl. by apply prefix_app_r.
    + intros crate w1 w2. destruct (decide (crate ∈ CRATES)); [apply IH|].
      by intros [= ->].
Qed.

Lemma newLoadCalls_perm w w' log :
  logGrows w w' → loadCalls w' ≡ₚ loadCalls w ++ log → newLoadCalls w w' ≡ₚ log.
Proof.
  intros [new Hnew] Hperm. unfold newLoadCalls. rewrite Hnew, drop_app_length.
  rewrite Hnew in Hperm. by apply Permutation_app_inv_l in Hperm.
Qed.

(** *** [loadDependency]: twice in a row, and around a cycle *)

Lemma occurrences_loads e name w L w' :
  loads w L w' → e ∈ ingestionRequests name →
  occurrences e (newEvents w w') = if decide (name ∈ L) then 1%nat else 0%nat.
Proof.
  intros (Hnd & _ & Ht & _) He. rewrite (newEvents_app _ _ _ Ht).
  apply occurrences_concat_once; [done| |].
  - intros n Hne. by apply ingestion_request_other with (name := name).
  - by apply ingestion_request_once.
Qed.

(** C2.  An invocation of [loadDependency] for a name runs to its end
    (given fuel) and issues each request of the ingestion of that name at
    most once; an invocation for the same name right after it returns at
    once: it issues no fetch and no engine call, and leaves the cache and
    the markers as they are. *)
Theorem loadDependency_twice_ingests_once fuel fuel' caller caller' name w :
  (fuelBound ≤ fuel)%nat → (0 < fuel')%nat →
  ∃ w1 w2,
    loadDependency fuel caller name w = Some w1 ∧
    loadDependency fuel' caller' name w1 = Some w2 ∧
    trace w2 = trace w1 ∧ cachedNames w2 = cachedNames w1 ∧ markers w2 = markers w1 ∧
    isFull w2 name ∧
    ∀ e, e ∈ ingestionRequests name → (occurrences e (newEvents w w2) ≤ 1)%nat.
Proof.
  intros Hfuel Hfuel'.
  destruct (loadDependency_terminates fuel caller name w Hfuel) as [w1 Hw1].
  pose proof (loadDependency_loadedBy _ _ _ _ _ Hw1) as Hby.
  pose proof (loadedBy_full _ _ _ _ Hby) as Hfull.
  destruct Hby as (L & Hloads & _).
  exists w1, (noteCall caller' name w1). split_and!; try done.
  - destruct fuel' as [|fuel']; [lia|].
    rewrite loadDependency_unfold. by rewrite decide_True.
  - intros e He.
    assert (newEvents w (noteCall caller' name w1) = newEvents w w1) as -> by done.
    rewrite (occurrences_loads e name w L w1) by done. case_decide; lia.
Qed.

Lemma loadedBy_closed caller name w w' : closed w → loadedBy caller name w w' → closed w'.
Proof.
  intros Hclosed (L & Hloads & _ & _ & Hreq) n c Hn Hc Hperm.
  destruct (loads_full_inv _ _ _ _ Hloads Hn) as [Hfull|Hin].
  - eapply loads_full; [done|]. by eapply Hclosed.
  - by eapply Hreq.
Qed.

(** *** [update] as a whole *)

Lemma updateCrate_terminates fuel text crate w :
  (fuelBound ≤ fuel)%nat → is_Some (updateCrate fuel text crate w).
Proof.
  intros Hfuel. unfold Loader.updateCrate. repeat case_match; try done.
  by apply loadDependency_terminates.
Qed.

Lemma updateLoop_terminates fuel text l w :
  (fuelBound ≤ fuel)%nat → is_Some (forOf (updateCrate fuel text) l w).
Proof.
  intros Hfuel. revert w. induction l as [|x l IH]; intros w; cbn [forOf]; [done|].
  destruct (updateCrate_terminates fuel text x w Hfuel) as [w1 ->]. apply IH.
Qed.

Lemma update_unfold fuel m w :
  update fuel m w =
  match forOf (updateCrate fuel (getValue m)) CRATES w with
  | Some w1 =>
      Some (setModelMarkers m
              (diagnosticsOf (sessionCalls (trace w1)) (uri_path m) (getValue m))
              (await (diagnosticsCall m) w1))
  | None => None
  end.
Proof. reflexivity. Qed.

Lemma updateCrate_logGrows fuel text crate w w' :
  updateCrate fuel text crate w = Some w' → logGrows w w'.
Proof.
  intros [(_ & ->)|[(_ & _ & Hload)|[(_ & _ & ->)|(_ & _ & ->)]]]%updateCrate_cases.
  - reflexivity.
  - by eapply loadDependency_logGrows.
  - reflexivity.
  - unfold logGrows. simpl. reflexivity.
Qed.

Lemma updateLoop_logGrows fuel text l w w' :
  forOf (updateCrate fuel text) l w = Some w' → logGrows w w'.
Proof.
  apply (forOf_preserves logGrows). intros x w1 w2. apply updateCrate_logGrows.
Qed.

(** *** The cache only grows *)

Lemma progress_cacheGrows w L R w' : progress w L R w' → cacheGrows w w'.
Proof.
  intros (_ & _ & _ & Hr & _ & Hc & _) n. rewrite Hc.
  destruct (decide (n ∈ L)).
  - destruct (cachedNames w !! n) as [[]|]; simpl; lia.
  - destruct (decide (n ∈ R)) as [Hin|]; [|done].
    apply Hr in Hin. unfold notLoaded in Hin. rewrite Hin. simpl. lia.
Qed.

#[local] Instance cacheGrows_preorder : PreOrder cacheGrows.
Proof.
  split.
  - by intros w n.
  - intros w1 w2 w3 H12 H23 n. etrans; [apply H12|apply H23].
Qed.

Lemma cacheGrows_full w w' name : cacheGrows w w' → isFull w name → isFull w' name.
Proof.
  intros Hgrow Hfull. specialize (Hgrow name). unfold isFull in *. rewrite Hfull in Hgrow.
  destruct (cachedNames w' !! name) as [[]|]; simpl in Hgrow; [done|lia..].
Qed.

Lemma runOp_cacheGrows fuel op w w' : runOp fuel op w = Some w' → cacheGrows w w'.
Proof.
  destruct op as [m|name|name]; simpl.
  - rewrite update_unfold.
    destruct (forOf _ CRATES w) as [w1|] eqn:Hloop; [|done]. intros [= <-].
    apply updateLoop_did in Hloop as (L & R & tops & Hp & _).
    intros n. simpl. by apply (progress_cacheGrows _ _ _ _ Hp).
  - intros (L & Hloads & _)%loadDependency_loadedBy.
    by eapply progress_cacheGrows, loads_progress.
  - intros (L & R & tops & Hp & _)%updateCrate_did. by eapply progress_cacheGrows.
Qed.

Lemma runOp_terminates fuel op w : (fuelBound ≤ fuel)%nat → is_Some (runOp fuel op w).
Proof.
  intros Hfuel. destruct op as [m|name|name]; simpl.
  - rewrite update_unfold.
    by destruct (updateLoop_terminates fuel (getValue m) CRATES w Hfuel) as [w1 ->].
  - by apply loadDependency_terminates.
  - by apply updateCrate_terminates.
Qed.

(** X20.  For operations that run one after the other, each to its end
    (given fuel): over any such sequence the status of every name only
    moves along NotLoaded, Empty, Full; a name that is full stays full:
    it reads back neither empty nor not loaded. *)
Theorem status_monotonic fuel ops w :
  (fuelBound ≤ fuel)%nat →
  ∃ w', runOps fuel ops w = Some w' ∧
        (∀ name, (rank (cachedNames w !! name) ≤ rank (cachedNames w' !! name))%nat) ∧
        (∀ name, isFull w name →
                 isFull w' name ∧ ¬ isEmpty w' name ∧ ¬ notLoaded w' name).
Proof.
  intros Hfuel.
  assert (is_Some (runOps fuel ops w)) as [w' Hw'].
  { unfold runOps. revert w.
    induction ops as [|op ops IH]; intros w; cbn [forOf]; [done|].
    destruct (runOp_terminates fuel op w Hfuel) as [w1 ->]. apply IH. }
  exists w'. split; [done|].
  assert (cacheGrows w w') as Hgrow.
  { revert Hw'. apply (forOf_preserves cacheGrows). intros op w1 w2.
    apply runOp_cacheGrows. }
  split; [done|]. intros name Hfull.
  pose proof (cacheGrows_full _ _ _ Hgrow Hfull) as Hfull'.
  unfold isFull, isEmpty, notLoaded in *. rewrite Hfull'. done.
Qed.

(** *** Sessions keep the cache closed under requirements *)

Lemma closed_init : closed init.
Proof. intros n c Hn. unfold isFull in Hn. simpl in Hn. by rewrite lookup_empty in Hn. Qed.

Lemma stepOneDid_closed text l w w' : closed w → stepOneDid text l w w' → closed w'.
Proof.
  intros Hclosed (L & R & tops & Hp & _ & _ & _ & _ & _ & _ & Hreq) n c Hn Hc Hperm.
  destruct (progress_full_inv _ _ _ _ _ Hp Hn) as [Hfull|Hin].
  - eapply progress_full; [done|]. by eapply Hclosed.
  - by eapply Hreq.
Qed.

Lemma runOp_closed fuel op w w' : closed w → runOp fuel op w = Some w' → closed w'.
Proof.
  intros Hclosed. destruct op as [m|name|name]; simpl.
  - rewrite update_unfold.
    destruct (forOf _ CRATES w) as [w1|] eqn:Hloop; [|done]. intros [= <-].
    apply updateLoop_did in Hloop.
    apply (stepOneDid_closed _ _ _ _ Hclosed Hloop).
  - intros Hby%loadDependency_loadedBy. by eapply loadedBy_closed.
  - intros Hdid%updateCrate_did. by eapply stepOneDid_closed.
Qed.

Lemma reachable_closed w : reachable w → closed w.
Proof.
  intros (fuel & ops & Hrun). revert Hrun. unfold runOps.
  generalize closed_init. generalize (@init Diag).
  induction ops as [|op ops IH]; intros w0 Hclosed Hrun; cbn [forOf] in Hrun.
  - by injection Hrun as <-.
  - destruct (runOp fuel op w0) as [w1|] eqn:Hop; [|done].
    apply (IH w1); [|done]. by eapply runOp_closed.
Qed.

(** C3.  Whatever the dependency graph, cyclic or not, [loadDependency]
    returns (given fuel), and the name it was invoked for is marked full.
    In a session, every permitted crate [B] that [A] requires is marked
    full as well when the invocation for [A] returns, also when [B]
    requires [A] in turn. *)
Theorem loadDependency_terminates_on_cycles fuel caller (A : string) w :
  (fuelBound ≤ fuel)%nat →
  ∃ w', loadDependency fuel caller A w = Some w' ∧ isFull w' A ∧
        (reachable w → ∀ B, B ∈ requirements A → B ∈ CRATES → isFull w' B).
Proof.
  intros Hfuel.
  destruct (loadDependency_terminates fuel caller A w Hfuel) as [w' Hw'].
  exists w'. split; [done|].
  pose proof (loadDependency_loadedBy _ _ _ _ _ Hw') as Hby.
  pose proof (loadedBy_full _ _ _ _ Hby) as HA. split; [done|].
  intros Hreach%reachable_closed B HB Hperm.
  by apply (loadedBy_closed _ _ _ _ Hreach Hby A B).
Qed.

(** *** Counting over a run of the loop *)

Lemma occurrences_progress e name w L R w' :
  progress w L R w' → e ∈ ingestionRequests name →
  occurrences e (newEvents w w') = if decide (name ∈ L) then 1%nat else 0%nat.
Proof.
  intros (Hnd & _ & _ & _ & (tr & Ht & Hp) & _) He.
  rewrite (newEvents_app _ _ _ Ht), (occurrences_perm _ _ _ Hp), occurrences_app.
  rewrite (occurrences_concat_none e registration).
  - rewrite Nat.add_0_r. apply occurrences_concat_once; [done| |].
    + intros n Hne. by apply ingestion_request_other with (name := name).
    + by apply ingestion_request_once.
  - intros n. by apply ingestion_request_not_registration with (name := name).
Qed.

Lemma occurrences_register_progress name w L R w' :
  progress w L R w' →
  occurrences (Req (registerCall name)) (newEvents w w') =
  if decide (name ∈ R) then 1%nat else 0%nat.
Proof.
  intros (_ & _ & Hnd & _ & (tr & Ht & Hp) & _).
  rewrite (newEvents_app _ _ _ Ht), (occurrences_perm _ _ _ Hp), occurrences_app.
  rewrite (occurrences_concat_none _ ingestion).
  - apply occurrences_concat_once; [done| |].
    + intros n Hne. by apply registration_request_other.
    + apply registration_request_once.
  - intros n. apply registration_request_not_ingestion.
Qed.

Lemma invocationsOf_app c log1 log2 :
  invocationsOf c (log1 ++ log2) = (invocationsOf c log1 + invocationsOf c log2)%nat.
Proof. unfold invocationsOf. by rewrite filter_app, length_app. Qed.

Lemma invocationsOf_perm c log1 log2 :
  log1 ≡ₚ log2 → invocationsOf c log1 = invocationsOf c log2.
Proof. intros Hp. unfold invocationsOf. by rewrite Hp. Qed.

Lemma invocationsOf_none c log : c ∉ log → invocationsOf c log = 0%nat.
Proof.
  intros Hnin. unfold invocationsOf. induction log as [|x log IH]; [done|].
  apply not_elem_of_cons in Hnin as [Hne Hnin].
  rewrite filter_cons, decide_False by done. by apply IH.
Qed.

Lemma invocationsOf_recursiveCalls name crate :
  invocationsOf (Some name, crate) (recursiveCalls name) =
  if decide (crate ∈ CRATES) then timesIn crate (requirements name) else 0%nat.
Proof.
  unfold invocationsOf, recursiveCalls, timesIn.
  induction (requirements name) as [|x l IH]; [by case_decide|].
  rewrite (filter_cons (λ c, c ∈ CRATES)), (filter_cons (λ y, y = crate)).
  destruct (decide (x ∈ CRATES)) as [Hx|Hx].
  - rewrite fmap_cons, filter_cons.
    destruct (decide (x = crate)) as [->|Hne].
    + rewrite !decide_True by done. simpl. rewrite IH. by rewrite decide_True.
    + rewrite decide_False by (by intros [= ?]). apply IH.
  - rewrite IH. destruct (decide (x = crate)) as [->|]; [|done].
    by repeat case_decide.
Qed.

Lemma invocationsOf_concat name crate L :
  NoDup L →
  invocationsOf (Some name, crate) (concat (recursiveCalls <$> L)) =
  if decide (name ∈ L) then invocationsOf (Some name, crate) (recursiveCalls name)
  else 0%nat.
Proof.
  intros Hnd. induction Hnd as [|n L Hnin Hnd IH]; [done|].
  rewrite fmap_cons, concat_cons, invocationsOf_app, IH.
  destruct (decide (n = name)) as [->|Hne].
  - rewrite (decide_False (P := name ∈ L)) by done.
    rewrite decide_True by (by left). lia.
  - rewrite invocationsOf_none.
    + destruct (decide (name ∈ L)) as [Hin|Hin].
      * by rewrite decide_True by (by right).
      * rewrite decide_False; [done|]. by intros [->|?]%elem_of_cons.
    + unfold recursiveCalls. intros (c & [= <- _] & _)%list_elem_of_fmap. done.
Qed.

(** C5.  Let [foo] be a permitted crate that is not full, and let the
    text hold [foo::item] somewhere.  Then [update] returns (given fuel),
    [foo] is full, each of the three requests of the ingestion of [foo]
    (the fetch of the source, the fetch of the manifest, the engine call
    with both) was issued exactly once, and the invocation for [foo]
    invoked [loadDependency] once for each occurrence of a permitted
    crate among the crates the engine returned for [foo], and for no
    other crate. *)
Theorem update_loads_used_crate fuel m (foo item : string) w :
  foo ∈ CRATES → ¬ isFull w foo →
  occursIn (foo +:+ "::" +:+ item) (getValue m) →
  (fuelBound ≤ fuel)%nat →
  ∃ w', update fuel m w = Some w' ∧
        isFull w' foo ∧
        (∀ e, e ∈ ingestionRequests foo → occurrences e (newEvents w w') = 1%nat) ∧
        (∀ crate, invocationsOf (Some foo, crate) (newLoadCalls w w') =
                  if decide (crate ∈ CRATES) then timesIn crate (requirements foo)
                  else 0%nat).
Proof.
  intros Hperm Hnf Huse Hfuel.
  destruct (updateLoop_terminates fuel (getValue m) CRATES w Hfuel) as [w1 Hloop].
  eexists. split; [by rewrite update_unfold, Hloop|].
  pose proof (updateLoop_logGrows _ _ _ _ _ Hloop) as Hlog.
  apply updateLoop_did in Hloop
    as (L & R & tops & Hp & Hcalls & Htops & Hused & _ & _ & _ & _).
  assert (isFull w1 foo) as Hfull.
  { apply Hused; [done|]. rewrite <- append_assoc in Huse.
    by eapply RegExp_test_longer. }
  assert (foo ∈ L) as HL.
  { by destruct (progress_full_inv _ _ _ _ _ Hp Hfull). }
  split_and!.
  - done.
  - intros e He.
    pose proof (occurrences_progress e foo _ _ _ _ Hp He) as Hocc.
    rewrite decide_True in Hocc by done.
    destruct Hp as (_ & _ & _ & _ & (tr & Ht & _) & _).
    rewrite (newEvents_app _ _ _ Ht) in Hocc.
    rewrite (newEvents_app w _ (tr ++ [Req (diagnosticsCall m); Done (diagnosticsCall m)])).
    + rewrite occurrences_app, Hocc, occurrences_none; [done|].
      unfold ingestionRequests in He.
      rewrite !elem_of_cons in He. rewrite !elem_of_cons.
      intros [->|[->|Hnil]]; [| |by apply elem_of_nil in Hnil];
        destruct He as [He|[He|[He|He]]]; try discriminate;
        by apply elem_of_nil in He.
    + simpl. by rewrite Ht, <- app_assoc.
  - intros crate.
    assert (newLoadCalls w (setModelMarkers m
              (diagnosticsOf (sessionCalls (trace w1)) (uri_path m) (getValue m))
              (await (diagnosticsCall m) w1)) = newLoadCalls w w1) as -> by done.
    rewrite (invocationsOf_perm _ _ _ (newLoadCalls_perm _ _ _ Hlog Hcalls)).
    rewrite invocationsOf_app, invocationsOf_none.
    + destruct Hp as (Hnd & _). rewrite invocationsOf_concat by done.
      rewrite decide_True by done. apply invocationsOf_recursiveCalls.
    + intros Hin. rewrite Forall_forall in Htops. by apply Htops in Hin.
Qed.

Lemma updateLoop_unused_terminates fuel text l w :
  (∀ c, c ∈ l → RegExp_test (c +:+ "::") text = false) →
  is_Some (forOf (updateCrate fuel text) l w).
Proof.
  revert w. induction l as [|x l IH]; intros w Hno; cbn [forOf]; [done|].
  assert (is_Some (updateCrate fuel text x w)) as [w1 ->].
  { unfold Loader.updateCrate. rewrite (Hno x) by (by left). by repeat case_match. }
  apply IH. intros c Hc. apply Hno. by right.
Qed.

(** C6.  Let the text hold [name::] for no permitted crate.  Then
    [update] returns, and of the permitted crates each one that was not
    loaded is marked empty, with one registration call issued for it,
    while each one that was marked full or empty keeps its status, with
    no registration call issued for it.  No request of an ingestion is
    issued and no crate becomes full.  On the first run no crate is
    loaded, so every permitted crate ends empty. *)
Theorem update_without_usage_marks_seen fuel m w :
  (∀ c, c ∈ CRATES → ¬ occursIn (c +:+ "::") (getValue m)) →
  ∃ w', update fuel m w = Some w' ∧
    (∀ c, c ∈ CRATES →
       match cachedNames w !! c with
       | None => isEmpty w' c ∧
                 occurrences (Req (registerCall c)) (newEvents w w') = 1%nat
       | Some s => cachedNames w' !! c = Some s ∧
                   occurrences (Req (registerCall c)) (newEvents w w') = 0%nat
       end) ∧
    (∀ n e, e ∈ ingestionRequests n → occurrences e (newEvents w w') = 0%nat) ∧
    (∀ n, isFull w' n → isFull w n).
Proof.
  intros Hno.
  assert (∀ c, c ∈ CRATES → RegExp_test (c +:+ "::") (getValue m) = false) as Htest.
  { intros c Hc. apply not_true_is_false. rewrite RegExp_test_spec. by apply Hno. }
  destruct (updateLoop_unused_terminates fuel (getValue m) CRATES w Htest) as [w1 Hloop].
  eexists. split; [by rewrite update_unfold, Hloop|].
  apply updateLoop_did in Hloop
    as (L & R & tops & Hp & _ & _ & _ & _ & Hnl & Hnone & _).
  destruct (Hnone Htest) as [-> ->].
  pose proof Hp as (_ & _ & _ & HR & (tr & Ht & _) & Hc & _).
  assert (∀ e, e ∉ [Req (diagnosticsCall m); Done (diagnosticsCall m)] →
            occurrences e (newEvents w (setModelMarkers m
              (diagnosticsOf (sessionCalls (trace w1)) (uri_path m) (getValue m))
              (await (diagnosticsCall m) w1))) = occurrences e (newEvents w w1)) as Hdiag.
  { intros e He.
    rewrite (newEvents_app w _ (tr ++ [Req (diagnosticsCall m); Done (diagnosticsCall m)])).
    - rewrite occurrences_app, (occurrences_none _ _ He), (newEvents_app _ _ _ Ht). lia.
    - simpl. by rewrite Ht, <- app_assoc. }
  split_and!.
  - intros c Hin. rewrite Hdiag, (occurrences_register_progress _ _ _ _ _ Hp).
    + destruct (cachedNames w !! c) as [s|] eqn:Hs.
      * assert (c ∉ R) as HcR.
        { intros HcR%HR. unfold notLoaded in HcR. congruence. }
        simpl. rewrite Hc, Hs.
        rewrite (decide_False (P := c ∈ [])) by apply not_elem_of_nil.
        by rewrite !(decide_False (P := c ∈ R)) by done.
      * destruct (Hnl c Hin Hs) as [HcL|HcR]; [by apply elem_of_nil in HcL|].
        unfold isEmpty. simpl. rewrite Hc.
        rewrite (decide_False (P := c ∈ [])) by apply not_elem_of_nil.
        by rewrite !(decide_True (P := c ∈ R)) by done.
    + rewrite !elem_of_cons. intros [Heq|[Heq|Heq]]; try discriminate.
      by apply elem_of_nil in Heq.
  - intros n e He. rewrite Hdiag, (occurrences_progress e n _ _ _ _ Hp He).
    + rewrite decide_False; [done|apply not_elem_of_nil].
    + unfold ingestionRequests in He.
      rewrite !elem_of_cons in He. rewrite !elem_of_cons.
      intros [->|[->|Hnil]]; [| |by apply elem_of_nil in Hnil];
        destruct He as [He|[He|[He|He]]]; try discriminate;
        by apply elem_of_nil in He.
  - intros n Hn. destruct (progress_full_inv _ _ _ _ _ Hp Hn) as [?|Hin]; [done|].
    by apply elem_of_nil in Hin.
Qed.

(** *** The order of the requests of [update] *)

Lemma sequential_app tr1 tr2 : sequential tr1 → sequential tr2 → sequential (tr1 ++ tr2).
Proof. intros H1 H2. induction H1; [done|]. simpl. by constructor. Qed.

Lemma sequential_ingestions L : sequential (concat (ingestion <$> L)).
Proof.
  induction L as [|n L IH]; [constructor|].
  rewrite fmap_cons, concat_cons. apply sequential_app; [|done].
  by repeat constructor.
Qed.

Lemma loadingEvent_ingestions L : Forall loadingEvent (concat (ingestion <$> L)).
Proof.
  induction L as [|n L IH]; [constructor|].
  rewrite fmap_cons, concat_cons. apply Forall_app. split; [|done].
  by repeat constructor.
Qed.

Lemma updateCrate_segment fuel text crate w w' :
  updateCrate fuel text crate w = Some w' →
  ∃ seg, trace w' = trace w ++ seg ∧ stepOneOf crate seg ∧
         sequential seg ∧ Forall loadingEvent seg.
Proof.
  intros [(_ & ->)|[(Hnf & _ & Hload)|[(_ & _ & ->)|(_ & _ & ->)]]]%updateCrate_cases.
  - exists []. rewrite app_nil_r. split_and!; [done|by left|constructor|constructor].
  - apply loadDependency_loadedBy in Hload as (L & Hloads & Hshape & _).
    rewrite decide_False in Hshape by done. destruct Hshape as (L' & -> & _).
    destruct Hloads as (_ & _ & Ht & _). eexists. split; [exact Ht|]. split_and!.
    + right. right. rewrite fmap_cons, concat_cons. by eexists.
    + apply sequential_ingestions.
    + apply loadingEvent_ingestions.
  - exists []. rewrite app_nil_r. split_and!; [done|by left|constructor|constructor].
  - exists (registration crate). split_and!; [done|right; by left| |];
      by repeat constructor.
Qed.

Lemma updateLoop_segments fuel text l w w' :
  forOf (updateCrate fuel text) l w = Some w' →
  ∃ segs, trace w' = trace w ++ concat segs ∧ Forall2 stepOneOf l segs ∧
          sequential (concat segs) ∧ Forall loadingEvent (concat segs).
Proof.
  revert w. induction l as [|x l IH]; intros w Hrun; cbn [forOf] in Hrun.
  - injection Hrun as <-. exists []. simpl. rewrite app_nil_r.
    split_and!; [done|constructor|constructor|constructor].
  - destruct (updateCrate fuel text x w) as [w1|] eqn:Hx; [|done].
    apply updateCrate_segment in Hx as (seg & Ht1 & Hseg & Hseq1 & Hload1).
    apply IH in Hrun as (segs & Ht & Hsegs & Hseq & Hload).
    exists (seg :: segs). rewrite concat_cons. split_and!.
    + by rewrite Ht, Ht1, app_assoc.
    + by constructor.
    + by apply sequential_app.
    + by apply Forall_app.
Qed.

(** *** Flows: alone they are the functions above *)

Lemma await_emit c w : await c w = emit (Done c) (emit (Req c) w).
Proof. unfold await, emit. simpl. by rewrite <- app_assoc. Qed.

(** Running alone is advancing to the next await and going on at once. *)
Lemma runAlone_advance (f : flow) w :
  runAlone f w =
  match advance f w with
  | (Finished, w') => Some w'
  | (Await c next, w') => runAlone next (emit (Done c) w')
  | _ => None
  end.
Proof.
  revert w. induction f as [| |act next IH|next IH|c next IH]; intros w; simpl; try done.
  by rewrite await_emit.
Qed.

Lemma runAlone_recurse fuel name :
  (∀ caller crate next w,
     runAlone (loadDependencyFlow fuel caller crate next) w =
     match loadDependency fuel caller crate w with
     | Some w' => runAlone next w'
     | None => None
     end) →
  ∀ l next w,
    runAlone (foldr (λ crate next',
                       if decide (crate ∈ CRATES)
                       then loadDependencyFlow fuel (Some name) crate next'
                       else next') next l) w =
    match forOf (recurse fuel name) l w with
    | Some w' => runAlone next w'
    | None => None
    end.
Proof.
  intros IH l next. induction l as [|x l IHl]; intros w; cbn [foldr forOf]; [done|].
  destruct (decide (x ∈ CRATES)); [|apply IHl].
  rewrite IH. destruct (loadDependency fuel (Some name) x w); [apply IHl|done].
Qed.

Lemma runAlone_loadDependencyFlow fuel caller name next w :
  runAlone (loadDependencyFlow fuel caller name next) w =
  match loadDependency fuel caller name w with
  | Some w' => runAlone next w'
  | None => None
  end.
Proof.
  revert caller name next w.
  induction fuel as [|fuel IH]; intros caller name next w; [done|].
  rewrite loadDependency_unfold. cbn [Loader.loadDependencyFlow runAlone].
  change (cachedNames (noteCall caller name w) !! name = Some full) with (isFull w name).
  destruct (decide (isFull w name)); [done|].
  cbn [runAlone]. apply (runAlone_recurse fuel name IH).
Qed.

Lemma runAlone_updateLoop fuel text l next w :
  runAlone (foldr (updateCrateFlow fuel text) next l) w =
  match forOf (updateCrate fuel text) l w with
  | Some w' => runAlone next w'
  | None => None
  end.
Proof.
  revert w. induction l as [|x l IHl]; intros w; cbn [foldr forOf]; [done|].
  unfold Loader.updateCrateFlow at 1, Loader.updateCrate. cbn [runAlone].
  destruct (decide (cachedNames w !! x = Some full)); [apply IHl|].
  destruct (RegExp_test (x +:+ "::") text).
  - rewrite runAlone_loadDependencyFlow.
    destruct (loadDependency fuel None x w); [apply IHl|done].
  - destruct (decide (cachedNames w !! x ≠ Some empty)); [|apply IHl].
    cbn [runAlone]. apply IHl.
Qed.

(** An [update] that runs alone is the function [update]. *)
Lemma runAlone_updateFlow fuel m w : runAlone (updateFlow fuel m) w = update fuel m w.
Proof.
  unfold Loader.updateFlow. rewrite runAlone_updateLoop, update_unfold.
  by destruct (forOf _ CRATES w).
Qed.

(** An operation that runs alone is the operation of [runOp]. *)
Lemma runAlone_opFlow fuel op w : runAlone (opFlow fuel op) w = runOp fuel op w.
Proof.
  destruct op as [m|n|n]; unfold opFlow, runOp.
  - apply runAlone_updateFlow.
  - rewrite runAlone_loadDependencyFlow. by destruct (loadDependency fuel None n w).
  - change (updateCrateFlow fuel "" n Finished)
      with (foldr (updateCrateFlow fuel "") Finished [n]).
    rewrite runAlone_updateLoop. cbn [forOf].
    by destruct (updateCrate fuel "" n w).
Qed.

(** *** Flows that overlap *)

Lemma keepsFull_recurse fuel name crate next l :
  (∀ caller c next', keepsFull crate next' →
     keepsFull crate (loadDependencyFlow fuel caller c next')) →
  keepsFull crate next →
  keepsFull crate (foldr (λ c next',
                            if decide (c ∈ CRATES)
                            then loadDependencyFlow fuel (Some name) c next'
                            else next') next l).
Proof.
  intros IH Hnext. induction l as [|x l IHl]; cbn [foldr]; [done|].
  destruct (decide (x ∈ CRATES)); [by apply IH|done].
Qed.

Lemma keepsFull_loadDependencyFlow fuel caller name next crate :
  keepsFull crate next → keepsFull crate (loadDependencyFlow fuel caller name next).
Proof.
  revert caller name next. induction fuel as [|fuel IH]; intros caller name next Hnext;
    [done|].
  cbn [Loader.loadDependencyFlow keepsFull]. split; [done|]. intros w Hw.
  destruct (decide (cachedNames w !! name = Some full)); [done|].
  cbn [keepsFull]. split.
  - intros w' Hw'. unfold isFull in *. simpl. rewrite lookup_insert. by case_decide.
  - by apply keepsFull_recurse.
Qed.

Lemma keepsFull_updateCrateFlow fuel text crate next name :
  keepsFull name next → keepsFull name (updateCrateFlow fuel text crate next).
Proof.
  intros Hnext. unfold Loader.updateCrateFlow. cbn [keepsFull]. intros w Hw.
  destruct (decide (cachedNames w !! crate = Some full)) as [|Hnf]; [done|].
  destruct (RegExp_test (crate +:+ "::") text); [by apply keepsFull_loadDependencyFlow|].
  destruct (decide (cachedNames w !! crate ≠ Some empty)); [|done].
  cbn [keepsFull]. split; [|done].
  intros w' Hw'. unfold isFull in *. simpl. rewrite lookup_insert_ne; [done|].
  intros ->. done.
Qed.

Lemma keepsFull_updateLoop fuel text l next name :
  keepsFull name next → keepsFull name (foldr (updateCrateFlow fuel text) next l).
Proof.
  intros Hnext. induction l as [|x l IH]; cbn [foldr]; [done|].
  by apply keepsFull_updateCrateFlow.
Qed.

(** Every operation of a session, as a flow, leaves a full name full. *)
Lemma keepsFull_opFlow fuel op name : keepsFull name (opFlow fuel op).
Proof.
  destruct op as [m|n|n]; unfold opFlow.
  - unfold Loader.updateFlow. apply keepsFull_updateLoop.
    cbn [keepsFull]. intros w Hw. split; [|done]. by intros w' Hw'.
  - by apply keepsFull_loadDependencyFlow.
  - by apply keepsFull_updateCrateFlow.
Qed.

Lemma advance_keepsFull name (f : flow) w :
  isFull w name → keepsFull name f →
  isFull (advance f w).2 name ∧ keepsFull name (advance f w).1.
Proof.
  revert w. induction f as [| |act next IH|next IH|c next IH]; intros w Hw Hf;
    cbn [advance]; try done.
  - destruct Hf as [Hact Hnext]. apply IH; [by apply Hact|done].
  - apply IH; [done|]. by apply Hf.
Qed.

Lemma takeTurn_keepsFull name (fs : list flow) w t :
  isFull w name → Forall (keepsFull name) fs → sessionTurn t →
  isFull (takeTurn (fs, w) t).2 name ∧ Forall (keepsFull name) (takeTurn (fs, w) t).1.
Proof.
  intros Hw Hfs Ht. destruct t as [f|i]; cbn [takeTurn fst snd].
  - destruct Ht as (fuel & op & ->).
    destruct (advance_keepsFull name (opFlow fuel op) w Hw (keepsFull_opFlow _ _ _))
      as [Hw' Hf'].
    destruct (advance (opFlow fuel op) w) as [f' w']. split; [done|].
    apply Forall_app. split; [done|]. by constructor.
  - destruct (fs !! i) as [f|] eqn:Hi; [|done].
    assert (keepsFull name f) as Hf by (by eapply Forall_lookup_1).
    assert (isFull (resume f w).2 name ∧ keepsFull name (resume f w).1) as [Hw' Hf'].
    { destruct f; try done. cbn [resume]. cbn [keepsFull] in Hf.
      by apply advance_keepsFull. }
    destruct (resume f w) as [f' w']. split; [done|].
    by apply Forall_insert.
Qed.

(** Once a name is full and no flow is in flight but flows that leave it
    full, as all flows called from then on do, the name stays full:
    whatever operations are called and in whatever order the awaited
    calls are done. *)
Lemma full_stays_full_under_overlap name (fs : list flow) w ts :
  isFull w name → Forall (keepsFull name) fs → Forall sessionTurn ts →
  isFull (takeTurns (fs, w) ts).2 name ∧
  Forall (keepsFull name) (takeTurns (fs, w) ts).1.
Proof.
  intros Hw Hfs Hts. revert fs w Hw Hfs.
  induction Hts as [|t ts Ht Hts IH]; intros fs w Hw Hfs; [done|].
  unfold takeTurns. cbn [fold_left].
  destruct (takeTurn_keepsFull name fs w t Hw Hfs Ht) as [Hw' Hfs'].
  destruct (takeTurn (fs, w) t) as [fs' w']. by apply IH.
Qed.

(** X3.  A crate that is full stays full under every session whose calls
    are all made once it is full: whatever operations are called from
    then on, however they overlap and in whatever order their awaited
    calls are done. *)
Theorem full_is_final_for_later_calls name w ts :
  isFull w name → Forall sessionTurn ts → isFull (takeTurns ([], w) ts).2 name.
Proof.
  intros Hw Hts.
  by destruct (full_stays_full_under_overlap name [] w ts Hw (Forall_nil_2 _) Hts).
Qed.

Lemma advance_loadDependencyFlow fuel caller name next w :
  ¬ isFull w name →
  ∃ after,
    advance (loadDependencyFlow (S fuel) caller name next) w =
    (Await (FetchText ("/crates/" +:+ name +:+ ".rs"))
       (Await (FetchText ("/crates/" +:+ name +:+ ".toml"))
          (Await (ingestCall name) after)),
     emit (Req (FetchText ("/crates/" +:+ name +:+ ".rs"))) (noteCall caller name w)).
Proof.
  intros Hnf. unfold isFull in Hnf. cbn [Loader.loadDependencyFlow advance].
  destruct (decide (cachedNames (noteCall caller name w) !! name = Some full)); [done|].
  by eexists.
Qed.

(** X4.  The cache check of [loadDependency] does not hold across its
    awaits: of two calls for a crate that is not full, the second made
    while the first awaits its fetch, each fetches the two files of the
    crate and each hands them to the engine. *)
Theorem overlapping_loads_ingest_twice fuel caller1 caller2 name w :
  ¬ isFull w name →
  let call c := Spawn (loadDependencyFlow (S fuel) c name Finished) in
  let s := takeTurns ([], w)
             [call caller1; call caller2; Settle 0; Settle 0; Settle 1; Settle 1] in
  let rs := FetchText ("/crates/" +:+ name +:+ ".rs") in
  let toml := FetchText ("/crates/" +:+ name +:+ ".toml") in
  newEvents w s.2 =
    [Req rs; Req rs;
     Done rs; Req toml; Done toml; Req (ingestCall name);
     Done rs; Req toml; Done toml; Req (ingestCall name)] ∧
  cachedNames s.2 = cachedNames w.
Proof.
  intros Hnf call s rs toml. unfold s, call, rs, toml, takeTurns. clear s call rs toml.
  destruct (advance_loadDependencyFlow fuel caller1 name Finished w Hnf) as [k1 H1].
  destruct (advance_loadDependencyFlow fuel caller2 name Finished
              (emit (Req (FetchText ("/crates/" +:+ name +:+ ".rs")))
                 (noteCall caller1 name w)) Hnf) as [k2 H2].
  cbn [fold_left takeTurn fst snd]. rewrite H1. cbn [fst snd app]. rewrite H2.
  simpl. split; [|done].
  apply newEvents_app. simpl. by rewrite <- !app_assoc.
Qed.

(** *** What [update] leaves behind *)

(** X5.  [update] returns (given fuel) and replaces the markers of its
    model by the diagnostics the engine returned, whatever markers the
    model had; the markers of every other model stay as they were.  The
    diagnostics request is the last thing it issues. *)
Theorem update_replaces_markers fuel m w :
  (fuelBound ≤ fuel)%nat →
  ∃ w1 w', forOf (updateCrate fuel (getValue m)) CRATES w = Some w1 ∧
    update fuel m w = Some w' ∧
    trace w' = trace w1 ++ [Req (diagnosticsCall m); Done (diagnosticsCall m)] ∧
    markers w' !! uri_path m =
      Some (diagnosticsOf (sessionCalls (trace w1)) (uri_path m) (getValue m)) ∧
    ∀ path, path ≠ uri_path m → markers w' !! path = markers w !! path.
Proof.
  intros Hfuel.
  destruct (updateLoop_terminates fuel (getValue m) CRATES w Hfuel) as [w1 Hloop].
  eexists w1, _. split; [done|]. split; [by rewrite update_unfold, Hloop|].
  apply updateLoop_did in Hloop as (L & R & tops & Hp & _).
  destruct Hp as (_ & _ & _ & _ & _ & _ & Hm).
  split_and!.
  - done.
  - simpl. apply lookup_insert_eq.
  - intros path Hne. simpl. rewrite lookup_insert_ne by done. by rewrite Hm.
Qed.

Lemma updateLoop_leaves_no_crate_unknown fuel text l w w1 :
  forOf (updateCrate fuel text) l w = Some w1 →
  ∀ c, c ∈ l →
    (occursIn (c +:+ "::") text → isFull w1 c) ∧ (isFull w1 c ∨ isEmpty w1 c).
Proof.
  intros Hloop.
  apply updateLoop_did in Hloop
    as (L & R & tops & Hp & _ & _ & Hused & _ & Hnl & _ & _).
  intros c Hc. split.
  - intros Huse%RegExp_test_spec. by apply Hused.
  - pose proof (progress_cacheGrows _ _ _ _ Hp c) as Hgrow.
    destruct Hp as (_ & _ & _ & _ & _ & Hcache & _).
    unfold isFull, isEmpty. simpl.
    destruct (cachedNames w !! c) as [s|] eqn:Hs.
    + destruct (cachedNames w1 !! c) as [[]|]; [by left|by right|].
      destruct s; simpl in Hgrow; lia.
    + destruct (Hnl c Hc Hs) as [Hin|Hin]; rewrite Hcache.
      * left. by rewrite decide_True.
      * destruct (decide (c ∈ L)); [by left|right]. by rewrite decide_True.
Qed.

(** X6.  After [update] (given fuel) every permitted crate has a status:
    the crates the text uses are full, the others are full or empty. *)
Theorem update_leaves_no_crate_unknown fuel m w :
  (fuelBound ≤ fuel)%nat →
  ∃ w', update fuel m w = Some w' ∧
    ∀ c, c ∈ CRATES →
      (occursIn (c +:+ "::") (getValue m) → isFull w' c) ∧
      (isFull w' c ∨ isEmpty w' c).
Proof.
  intros Hfuel.
  destruct (updateLoop_terminates fuel (getValue m) CRATES w Hfuel) as [w1 Hloop].
  eexists. split; [by rewrite update_unfold, Hloop|].
  exact (updateLoop_leaves_no_crate_unknown fuel (getValue m) CRATES w w1 Hloop).
Qed.

Lemma updateLoop_settled fuel text l w :
  (∀ c, c ∈ l → (RegExp_test (c +:+ "::") text = true → isFull w c) ∧
                (isFull w c ∨ isEmpty w c)) →
  forOf (updateCrate fuel text) l w = Some w.
Proof.
  induction l as [|x l IH]; intros Hl; cbn [forOf]; [done|].
  assert (updateCrate fuel text x w = Some w) as ->.
  { destruct (Hl x) as [Huse Hst]; [by left|]. unfold Loader.updateCrate.
    destruct (decide (cachedNames w !! x = Some full)) as [|Hnf]; [done|].
    destruct (RegExp_test (x +:+ "::") text); [by destruct Hnf; apply Huse|].
    destruct Hst as [?|Hempty]; [done|]. by rewrite decide_False by (by intros ?). }
  apply IH. intros c Hc. apply Hl. by right.
Qed.

(** X7.  A second [update] for the same model right after the first one
    issues nothing but the diagnostics request: it fetches nothing, loads
    and registers nothing, and leaves the cache as it is.  It needs no
    fuel. *)
Theorem update_again_only_diagnoses fuel fuel' m w :
  (fuelBound ≤ fuel)%nat →
  ∃ w1 w2, update fuel m w = Some w1 ∧ update fuel' m w1 = Some w2 ∧
    newEvents w1 w2 = [Req (diagnosticsCall m); Done (diagnosticsCall m)] ∧
    cachedNames w2 = cachedNames w1.
Proof.
  intros Hfuel.
  destruct (updateLoop_terminates fuel (getValue m) CRATES w Hfuel) as [w0 Hloop0].
  pose proof (updateLoop_leaves_no_crate_unknown _ _ _ _ _ Hloop0) as Hpost.
  eexists _, _. split; [by rewrite update_unfold, Hloop0|].
  rewrite update_unfold.
  match goal with |- context [forOf _ CRATES ?w1] =>
    assert (forOf (updateCrate fuel' (getValue m)) CRATES w1 = Some w1) as ->
  end.
  { apply updateLoop_settled. intros c Hc. destruct (Hpost c Hc) as [Huse Hst].
    split; [|done]. intros Htest%RegExp_test_spec. by apply Huse. }
  split; [done|]. split; [|done]. by apply newEvents_app.
Qed.

(** X8.  [update] (given fuel) does no work twice: for every name, each
    request of its ingestion and its registration call are issued at most
    once; no request of the ingestion of a crate that is full is issued,
    and no registration call for a crate that has a status. *)
Theorem update_no_redundant_request fuel m w n :
  (fuelBound ≤ fuel)%nat →
  ∃ w', update fuel m w = Some w' ∧
    (∀ e, e ∈ Req (registerCall n) :: ingestionRequests n →
          (occurrences e (newEvents w w') ≤ 1)%nat) ∧
    (isFull w n → ∀ e, e ∈ ingestionRequests n → occurrences e (newEvents w w') = 0%nat) ∧
    (¬ notLoaded w n → occurrences (Req (registerCall n)) (newEvents w w') = 0%nat).
Proof.
  intros Hfuel.
  destruct (updateLoop_terminates fuel (getValue m) CRATES w Hfuel) as [w1 Hloop].
  eexists. split; [by rewrite update_unfold, Hloop|].
  apply updateLoop_did in Hloop as (L & R & tops & Hp & _).
  pose proof Hp as (_ & HL & _ & HR & (tr & Ht & _) & _).
  assert (∀ e, e ∈ Req (registerCall n) :: ingestionRequests n →
            occurrences e (newEvents w (setModelMarkers m
              (diagnosticsOf (sessionCalls (trace w1)) (uri_path m) (getValue m))
              (await (diagnosticsCall m) w1))) = occurrences e (newEvents w w1)) as Hdiag.
  { intros e He.
    rewrite (newEvents_app w _ (tr ++ [Req (diagnosticsCall m); Done (diagnosticsCall m)])).
    - rewrite occurrences_app, (newEvents_app _ _ _ Ht).
      rewrite (occurrences_none e [Req (diagnosticsCall m); Done (diagnosticsCall m)]); [lia|].
      unfold ingestionRequests in He. rewrite !elem_of_cons in He. rewrite !elem_of_cons.
      intros [->|[->|Hnil]]; [| |by apply elem_of_nil in Hnil];
        destruct He as [He|[He|[He|[He|He]]]]; try discriminate;
        by apply elem_of_nil in He.
    - simpl. by rewrite Ht, <- app_assoc. }
  split_and!.
  - intros e He. rewrite (Hdiag e He). apply elem_of_cons in He as [->|He].
    + rewrite (occurrences_register_progress _ _ _ _ _ Hp). case_decide; lia.
    + rewrite (occurrences_progress e n _ _ _ _ Hp He). case_decide; lia.
  - intros Hfull e He. rewrite (Hdiag e) by (by right).
    rewrite (occurrences_progress e n _ _ _ _ Hp He).
    rewrite decide_False; [done|]. intros Hin. by apply (HL n Hin).
  - intros Hst. rewrite (Hdiag _) by (by left).
    rewrite (occurrences_register_progress _ _ _ _ _ Hp).
    rewrite decide_False; [done|]. intros Hin. by apply Hst, HR.
Qed.

(** *** What a load never touches *)

Lemma forOf_preserves_in {A} (R : relation world) `{!PreOrder R}
    (body : A → world → option world) l w w' :
  (∀ x w w', x ∈ l → body x w = Some w' → R w w') → forOf body l w = Some w' → R w w'.
Proof.
  revert w. induction l as [|x l IH]; intros w Hbody Hrun; cbn [forOf] in Hrun.
  - by injection Hrun as <-.
  - destruct (body x w) as [w1|] eqn:Hx; [|done].
    etrans; [eapply Hbody; [by left|done]|].
    apply IH; [|done]. intros y w2 w3 Hy. apply Hbody. by right.
Qed.

#[local] Instance leftAlone_preorder n : PreOrder (leftAlone n).
Proof.
  split.
  - intros w. split; [done|]. exists []. split; [by rewrite app_nil_r|].
    by intros e _ ?%elem_of_nil.
  - intros w1 w2 w3 (Hc1 & tr1 & Ht1 & Hn1) (Hc2 & tr2 & Ht2 & Hn2).
    split; [by rewrite Hc2|]. exists (tr1 ++ tr2).
    split; [by rewrite Ht2, Ht1, app_assoc|].
    intros e He [Hin|Hin]%elem_of_app; [by eapply Hn1|by eapply Hn2].
Qed.

Lemma not_elem_of_concat_fmap (e : event) (f : string → list event) L :
  (∀ n, n ∈ L → e ∉ f n) → e ∉ concat (f <$> L).
Proof.
  induction L as [|x L IH]; intros Hf; [by intros ?%elem_of_nil|].
  rewrite fmap_cons, concat_cons. intros [Hin|Hin]%elem_of_app.
  - apply (Hf x); [by left|done].
  - apply IH; [|done]. intros n Hn. apply Hf. by right.
Qed.

Lemma loads_leftAlone w L w' n : loads w L w' → n ∉ L → leftAlone n w w'.
Proof.
  intros (_ & _ & Ht & Hc & _) Hn. split; [by rewrite Hc, decide_False|].
  eexists. split; [done|].
  intros e He. apply not_elem_of_concat_fmap. intros n' Hn' Hin.
  apply elem_of_cons in He as [->|He].
  - by apply registration_request_not_ingestion in Hin.
  - apply (ingestion_request_other e n n'); [done| |done]. by intros ->.
Qed.

Lemma leftAlone_register n crate w :
  n ≠ crate →
  leftAlone n w (cachedNames_set crate empty (await (registerCall crate) w)).
Proof.
  intros Hne. split; [simpl; by rewrite lookup_insert_ne|].
  exists (registration crate). split; [done|].
  intros e [->|He]%elem_of_cons.
  - by apply registration_request_other.
  - by apply ingestion_request_not_registration with (name := n).
Qed.

Lemma leftAlone_diagnose n m ds w :
  leftAlone n w (setModelMarkers m ds (await (diagnosticsCall m) w)).
Proof.
  split; [done|]. eexists. split; [done|]. unfold ingestionRequests.
  intros e He Hin. rewrite !elem_of_cons in He. rewrite !elem_of_cons in Hin.
  destruct Hin as [->|[->|Hnil]]; [| |by apply elem_of_nil in Hnil];
    destruct He as [He|[He|[He|[He|He]]]]; try discriminate;
    by apply elem_of_nil in He.
Qed.

Lemma leftAlone_newEvents n w w' :
  leftAlone n w w' →
  cachedNames w' !! n = cachedNames w !! n ∧
  ∀ e, e ∈ Req (registerCall n) :: ingestionRequests n → e ∉ newEvents w w'.
Proof.
  intros (Hc & tr & Ht & Hn). split; [done|]. by rewrite (newEvents_app _ _ _ Ht).
Qed.

Lemma loadDependency_leftAlone fuel caller name w w' n :
  loadDependency fuel caller name w = Some w' →
  ¬ rtc follows name n → leftAlone n w w'.
Proof.
  revert caller name w w'.
  induction fuel as [|fuel IH]; intros caller name w w' Hrun Hfar; [done|].
  rewrite loadDependency_unfold in Hrun.
  destruct (decide (isFull w name)) as [Hfull|Hnf].
  - injection Hrun as <-. apply (loads_leftAlone _ []); [apply loads_noteCall|].
    by intros ?%elem_of_nil.
  - etrans.
    + apply (loads_leftAlone _ [name]); [by apply (loads_ingest caller)|].
      intros ->%list_elem_of_singleton. by apply Hfar.
    + revert Hrun. apply (forOf_preserves_in (leftAlone n)).
      intros x w1 w2 Hx Hstep. destruct (decide (x ∈ CRATES)) as [Hperm|].
      * apply IH in Hstep; [done|]. intros Hreach. apply Hfar.
        by apply rtc_l with x.
      * by injection Hstep as <-.
Qed.

Lemma follows_permitted name n : name ∈ CRATES → rtc follows name n → n ∈ CRATES.
Proof.
  intros Hname [->|(y & _ & _ & Hn)]%rtc_inv_r; done.
Qed.

(** X9.  [loadDependency(name)] returns (given fuel) and touches only
    what [name] requires, directly or through other crates, along
    permitted crates: for any other name, the status stays as it was and
    no request of its ingestion and no registration call is issued.  In
    particular a requirement outside the permitted set, and whatever only
    it requires, is never fetched. *)
Theorem loadDependency_touches_only_required fuel caller name w :
  (fuelBound ≤ fuel)%nat →
  ∃ w', loadDependency fuel caller name w = Some w' ∧
    ∀ n, ¬ rtc follows name n →
      cachedNames w' !! n = cachedNames w !! n ∧
      ∀ e, e ∈ Req (registerCall n) :: ingestionRequests n → e ∉ newEvents w w'.
Proof.
  intros Hfuel.
  destruct (loadDependency_terminates fuel caller name w Hfuel) as [w' Hw'].
  exists w'. split; [done|]. intros n Hfar.
  by apply leftAlone_newEvents, (loadDependency_leftAlone fuel caller name).
Qed.

(** X10.  [update] (given fuel) never touches a name outside the
    permitted set, whatever the text mentions: its status stays as it was
    and no request of its ingestion and no registration call is issued. *)
Theorem update_touches_only_permitted fuel m w n :
  (fuelBound ≤ fuel)%nat → n ∉ CRATES →
  ∃ w', update fuel m w = Some w' ∧
    cachedNames w' !! n = cachedNames w !! n ∧
    ∀ e, e ∈ Req (registerCall n) :: ingestionRequests n → e ∉ newEvents w w'.
Proof.
  intros Hfuel Hn.
  destruct (updateLoop_terminates fuel (getValue m) CRATES w Hfuel) as [w1 Hloop].
  eexists. split; [by rewrite update_unfold, Hloop|].
  apply leftAlone_newEvents. etrans; [|apply leftAlone_diagnose].
  revert Hloop. apply (forOf_preserves_in (leftAlone n)).
  intros crate w2 w3 Hcrate Hstep.
  apply updateCrate_cases in Hstep
    as [[_ ->]|[(_ & _ & Hload)|[(_ & _ & ->)|(_ & _ & ->)]]]; try done.
  - apply (loadDependency_leftAlone _ _ _ _ _ _ Hload).
    intros Hreach. by apply Hn, (follows_permitted crate).
  - apply leftAlone_register. by intros ->.
Qed.

(** *** Exactly what a load makes full *)

#[local] Instance fullWithin_preorder P : PreOrder (fullWithin P).
Proof.
  split.
  - intros w n Hn. by left.
  - intros w1 w2 w3 H12 H23 n Hn.
    destruct (H23 n Hn) as [Hn2|]; [|by right]. by apply H12.
Qed.

Lemma fullWithin_weaken (P Q : string → Prop) w w' :
  (∀ n, P n → Q n) → fullWithin P w w' → fullWithin Q w w'.
Proof. intros HPQ Hw n Hn. destruct (Hw n Hn); [by left|right; by apply HPQ]. Qed.

Lemma closed_follows w a b : closed w → isFull w a → rtc follows a b → isFull w b.
Proof.
  intros Hclosed Ha Hreach. induction Hreach as [|a c b [Hc Hperm] _ IH]; [done|].
  apply IH. by apply (Hclosed a).
Qed.

Lemma loadDependency_fullWithin fuel caller name w w' :
  loadDependency fuel caller name w = Some w' → fullWithin (rtc follows name) w w'.
Proof.
  revert caller name w w'.
  induction fuel as [|fuel IH]; intros caller name w w' Hrun; [done|].
  rewrite loadDependency_unfold in Hrun.
  destruct (decide (isFull w name)) as [Hfull|Hnf].
  - injection Hrun as <-. intros n Hn. by left.
  - etrans.
    + intros n Hn.
      destruct (loads_full_inv _ _ _ _ (loads_ingest caller name w Hnf) Hn)
        as [Hfull | ->%list_elem_of_singleton]; [by left|by right].
    + revert Hrun. apply (forOf_preserves_in (fullWithin (rtc follows name))).
      intros x w1 w2 Hx Hstep. destruct (decide (x ∈ CRATES)) as [Hperm|].
      * apply IH in Hstep. revert Hstep. apply fullWithin_weaken.
        intros n Hn. by apply rtc_l with x.
      * by injection Hstep as <-.
Qed.

(** X11.  From a cache that is closed under permitted requirements,
    [loadDependency(name)] (given fuel) makes full exactly the crates
    that [name] requires, directly or through other crates, along
    permitted crates, [name] itself included; what was full stays full
    and nothing else becomes full. *)
Theorem loadDependency_fills_exactly_required fuel caller name w :
  closed w → (fuelBound ≤ fuel)%nat →
  ∃ w', loadDependency fuel caller name w = Some w' ∧
    ∀ n, isFull w' n ↔ isFull w n ∨ rtc follows name n.
Proof.
  intros Hclosed Hfuel.
  destruct (loadDependency_terminates fuel caller name w Hfuel) as [w' Hw'].
  exists w'. split; [done|]. intros n. split.
  - by apply (loadDependency_fullWithin fuel caller).
  - pose proof (loadDependency_loadedBy _ _ _ _ _ Hw') as Hby.
    intros [Hn|Hreach].
    + destruct Hby as (L & Hloads & _). by eapply loads_full.
    + apply (closed_follows w' name); [by eapply loadedBy_closed|by eapply loadedBy_full|done].
Qed.

(** X12.  From a cache that is closed under permitted requirements,
    [update] (given fuel) leaves the cache in a state the text
    determines: the full crates are those that were full and those a
    permitted crate named in the text requires, directly or through
    other crates, along permitted crates; every other permitted crate is
    empty, and a name outside the permitted set keeps its status. *)
Theorem update_cache_determined_by_text fuel m w :
  closed w → (fuelBound ≤ fuel)%nat →
  ∃ w', update fuel m w = Some w' ∧
    ∀ n, (isFull w' n ↔
            isFull w n ∨
            ∃ c, c ∈ CRATES ∧ occursIn (c +:+ "::") (getValue m) ∧ rtc follows c n) ∧
         (¬ isFull w' n →
            cachedNames w' !! n =
              if decide (n ∈ CRATES) then Some empty else cachedNames w !! n).
Proof.
  intros Hclosed Hfuel.
  destruct (updateLoop_terminates fuel (getValue m) CRATES w Hfuel) as [w1 Hloop].
  eexists. split; [by rewrite update_unfold, Hloop|].
  change (∀ n, (isFull w1 n ↔
                  isFull w n ∨
                  ∃ c, c ∈ CRATES ∧ occursIn (c +:+ "::") (getValue m) ∧ rtc follows c n) ∧
               (¬ isFull w1 n →
                  cachedNames w1 !! n =
                    if decide (n ∈ CRATES) then Some empty else cachedNames w !! n)).
  pose proof (updateLoop_did _ _ _ _ _ Hloop)
    as (L & R & tops & Hp & _ & _ & Hused & HR & Hnl & _ & _).
  assert (closed w1) as Hclosed1.
  { eapply stepOneDid_closed; [done|]. by eapply updateLoop_did. }
  intros n. split; [split|].
  - revert n. change (fullWithin
      (λ n, ∃ c, c ∈ CRATES ∧ occursIn (c +:+ "::") (getValue m) ∧ rtc follows c n) w w1).
    revert Hloop. apply forOf_preserves_in; [apply _|].
    intros crate w2 w3 Hcrate Hstep.
    apply updateCrate_cases in Hstep
      as [[_ ->]|[(_ & Htest & Hload)|[(_ & _ & ->)|(_ & Hno & ->)]]]; try done.
    + apply (loadDependency_fullWithin _ _ _ _ _) in Hload. revert Hload.
      apply fullWithin_weaken. intros n Hn. exists crate.
      split_and!; [done|by apply RegExp_test_spec|done].
    + intros n Hn. left. unfold isFull in *. simpl in Hn.
      destruct (decide (crate = n)) as [->|Hne].
      * by rewrite lookup_insert_eq in Hn.
      * by rewrite lookup_insert_ne in Hn.
  - intros [Hn|(c & Hc & Huse & Hreach)].
    + by eapply progress_full.
    + apply (closed_follows w1 c); [done| |done].
      apply Hused; [done|]. by apply RegExp_test_spec.
  - intros Hnf. case_decide as Hperm.
    + pose proof (progress_cacheGrows _ _ _ _ Hp n) as Hgrow.
      destruct Hp as (_ & _ & _ & _ & _ & Hcache & _).
      destruct (cachedNames w !! n) as [s|] eqn:Hs.
      * unfold isFull in Hnf. destruct (cachedNames w1 !! n) as [[]|]; [done|done|].
        destruct s; simpl in Hgrow; lia.
      * destruct (Hnl n Hperm Hs) as [Hin|Hin]; rewrite Hcache.
        -- destruct Hnf. unfold isFull. by rewrite Hcache, decide_True.
        -- destruct (decide (n ∈ L)) as [HinL|].
           ++ destruct Hnf. unfold isFull. by rewrite Hcache, decide_True.
           ++ by rewrite decide_True.
    + destruct Hp as (_ & HL & _ & _ & _ & Hcache & _).
      rewrite Hcache, !decide_False; [done| |].
      * intros Hin. apply HR in Hin as [? _]. done.
      * intros Hin. apply Hnf. unfold isFull. by rewrite Hcache, decide_True.
Qed.

(** *** The order of step 1, crate by crate *)

#[local] Instance fullBy_dec (w : world) tr n : Decision (fullBy w tr n).
Proof. unfold fullBy. apply _. Defined.

Lemma fullBy_app_l (w : world) tr seg n : fullBy w tr n → fullBy w (tr ++ seg) n.
Proof. intros [Hn|Hn]; [by left|right]. apply elem_of_app. by left. Qed.

Lemma tracks_refl (w : world) : tracks w [] w.
Proof.
  split; [by rewrite app_nil_r|]. intros n. split_and!.
  - by intros [Hn|Hn%elem_of_nil].
  - by intros _ Hn%elem_of_nil.
  - done.
Qed.

Lemma tracks_full (w0 : world) tr w n : tracks w0 tr w → fullBy w0 tr n → isFull w n.
Proof. intros [_ Hc]. apply Hc. Qed.

Lemma tracks_full_inv (w0 : world) tr w n : tracks w0 tr w → isFull w n → fullBy w0 tr n.
Proof.
  intros [_ Hc] Hn. destruct (decide (fullBy w0 tr n)) as [|Hnf]; [done|].
  destruct (Hc n) as (_ & He & Hs).
  destruct (decide (Req (registerCall n) ∈ tr)) as [Hreg|Hreg].
  - specialize (He Hnf Hreg). unfold isFull, isEmpty in *. congruence.
  - unfold isFull in Hn. rewrite (Hs Hnf Hreg) in Hn. destruct Hnf. by left.
Qed.

Lemma tracks_seen (w0 : world) tr w n :
  tracks w0 tr w → seenBy w0 tr n ↔ cachedNames w !! n ≠ None.
Proof.
  intros [_ Hc]. destruct (Hc n) as (Hf & He & Hs).
  destruct (decide (fullBy w0 tr n)) as [Hfull|Hnf].
  { split; [|by left]. intros _. rewrite (Hf Hfull). discriminate. }
  destruct (decide (Req (registerCall n) ∈ tr)) as [Hreg|Hreg].
  { split; [|by right; right]. intros _. rewrite (He Hnf Hreg). discriminate. }
  rewrite (Hs Hnf Hreg). split.
  - intros [?|[Hn|?]]; [done| |done]. rewrite Hn. discriminate.
  - intros Hn. destruct (cachedNames w0 !! n) as [[]|] eqn:Hst; [|by right; left|done].
    destruct Hnf. by left.
Qed.

Lemma ingestCall_in_ingestions n L :
  Req (ingestCall n) ∈ concat (ingestion <$> L) ↔ n ∈ L.
Proof.
  split.
  - intros Hin. destruct (decide (n ∈ L)) as [|Hn]; [done|].
    exfalso. revert Hin. apply not_elem_of_concat_fmap. intros n' Hn'.
    apply (ingestion_request_other _ n); [|by intros ->].
    unfold ingestionRequests. rewrite !elem_of_cons. auto.
  - intros (l1 & l2 & ->)%list_elem_of_split.
    rewrite fmap_app, concat_app, fmap_cons, concat_cons, !elem_of_app.
    right. left. unfold ingestion. rewrite !elem_of_cons. auto 10.
Qed.

Lemma registerCall_not_in_ingestions n L :
  Req (registerCall n) ∉ concat (ingestion <$> L).
Proof. apply not_elem_of_concat_fmap. intros. apply registration_request_not_ingestion. Qed.

Lemma ingestCall_not_in_registration n crate : Req (ingestCall n) ∉ registration crate.
Proof.
  apply (ingestion_request_not_registration _ n).
  unfold ingestionRequests. rewrite !elem_of_cons. auto.
Qed.

Lemma updateCrate_tracks fuel text crate (w0 : world) tr w w' :
  tracks w0 tr w → updateCrate fuel text crate w = Some w' →
  ∃ seg, stepOneAt text w0 tr crate seg ∧ tracks w0 (tr ++ seg) w'.
Proof.
  intros Htr Hstep. pose proof Htr as [Htrace Hcache].
  apply updateCrate_cases in Hstep
    as [[Hfull ->]|[(Hnf & Htest & Hload)|[(Htest & Hempty & ->)|(Htest & Hnone & ->)]]].
  - exists []. rewrite app_nil_r. split; [|done]. split; intros _; (split; [done|]).
    + intros Hn. destruct Hn. by eapply tracks_full_inv.
    + intros Hn. destruct Hn. left. by eapply tracks_full_inv.
  - pose proof (loadDependency_loadedBy _ _ _ _ _ Hload)
      as (L & Hloads & Hshape & _ & Hreq).
    rewrite decide_False in Hshape by done. destruct Hshape as (L' & -> & Hperm).
    pose proof Hloads as (Hnd & Hnot & Ht & Hc & _).
    exists (concat (ingestion <$> crate :: L')).
    assert (tracks w0 (tr ++ concat (ingestion <$> crate :: L')) w') as Htr'; last first.
    { split; [split|done].
      - intros _. split.
        + intros Hfull. destruct Hnf. by eapply tracks_full.
        + intros _. exists L'. split_and!; [done..| |].
          * rewrite Forall_forall in Hperm. apply Forall_forall. intros n Hn. split_and!.
            -- by apply Hperm.
            -- intros Hfull. apply (Hnot n); [by right|]. by eapply tracks_full.
            -- destruct (loadDependency_fullWithin _ _ _ _ _ Hload n) as [Hwas|]; [|  |done].
               ++ eapply loads_loaded; [done|by right].
               ++ destruct (Hnot n); [by right|done].
          * intros n c Hn [Hc' Hp]. eapply tracks_full_inv; [done|]. by eapply Hreq.
      - intros Hno. destruct Hno. by apply RegExp_test_spec. }
    { split; [by rewrite Ht, Htrace, app_assoc|]. intros n.
      assert (fullBy w0 (tr ++ concat (ingestion <$> crate :: L')) n →
              fullBy w0 tr n ∨ n ∈ crate :: L') as Hsplit.
      { intros [Hn|[Hn|Hn]%elem_of_app]; [left; by left|left; by right|right].
        by apply ingestCall_in_ingestions. }
      assert (n ∈ crate :: L' → fullBy w0 (tr ++ concat (ingestion <$> crate :: L')) n)
        as Hloaded.
      { intros Hn. right. apply elem_of_app. right. by apply ingestCall_in_ingestions. }
      split_and!.
      * intros [Hn|Hn]%Hsplit.
        -- eapply loads_full; [done|]. by eapply tracks_full.
        -- by eapply loads_loaded.
      * intros Hnfb [Hreg|Hreg]%elem_of_app;
          [|by apply registerCall_not_in_ingestions in Hreg].
        unfold isEmpty. rewrite Hc, decide_False by (intros Hn; by apply Hnfb, Hloaded).
        apply Hcache; [|done]. intros Hn. by apply Hnfb, fullBy_app_l.
      * intros Hnfb Hreg.
        rewrite Hc, decide_False by (intros Hn; by apply Hnfb, Hloaded).
        apply Hcache.
        -- intros Hn. by apply Hnfb, fullBy_app_l.
        -- intros Hn. apply Hreg, elem_of_app. by left. }
  - exists []. rewrite app_nil_r. split; [|done]. split.
    + intros Huse%RegExp_test_spec. congruence.
    + intros _. split; [done|]. intros Hns. destruct Hns.
      apply (tracks_seen w0 tr w crate Htr). unfold isEmpty in Hempty. by rewrite Hempty.
  - exists (registration crate). split; [split|].
    + intros Huse%RegExp_test_spec. congruence.
    + intros _. split; [|done].
      intros Hseen%(tracks_seen w0 tr w crate Htr). by destruct Hseen.
    + split; [simpl; by rewrite Htrace, <- !app_assoc|]. intros n.
      assert (fullBy w0 (tr ++ registration crate) n → fullBy w0 tr n) as Hsplit.
      { intros [Hn|[Hn|Hn]%elem_of_app]; [by left|by right|].
        by apply ingestCall_not_in_registration in Hn. }
      assert (fullBy w0 tr n → n ≠ crate) as Hother.
      { intros Hn%(tracks_full w0 tr w n Htr) ->. unfold isFull, notLoaded in *. congruence. }
      unfold isFull, isEmpty. simpl. split_and!.
      * intros Hn%Hsplit. rewrite lookup_insert_ne by (by intros <-; apply Hother in Hn).
        by eapply tracks_full.
      * intros Hnfb Hreg. destruct (decide (crate = n)) as [->|Hne].
        { apply lookup_insert_eq. }
        rewrite lookup_insert_ne by done. apply Hcache.
        -- intros Hn. by apply Hnfb, fullBy_app_l.
        -- apply elem_of_app in Hreg as [Hreg|Hreg]; [done|].
           by apply registration_request_other in Hreg.
      * intros Hnfb Hreg.
        assert (crate ≠ n) as Hne.
        { intros ->. apply Hreg, elem_of_app. right. by left. }
        rewrite lookup_insert_ne by done. apply Hcache.
        -- intros Hn. by apply Hnfb, fullBy_app_l.
        -- intros Hn. apply Hreg, elem_of_app. by left.
Qed.

Lemma updateLoop_tracks fuel text l (w0 : world) tr w w' :
  tracks w0 tr w → forOf (updateCrate fuel text) l w = Some w' →
  ∃ segs, stepOneInOrder text w0 tr l segs ∧ tracks w0 (tr ++ concat segs) w'.
Proof.
  revert tr w. induction l as [|x l IH]; intros tr w Htr Hrun; cbn [forOf] in Hrun.
  - injection Hrun as <-. exists []. simpl. by rewrite app_nil_r.
  - destruct (updateCrate fuel text x w) as [w1|] eqn:Hx; [|done].
    destruct (updateCrate_tracks _ _ _ _ _ _ _ Htr Hx) as (seg & Hseg & Htr1).
    destruct (IH _ _ Htr1 Hrun) as (segs & Hsegs & Htr').
    exists (seg :: segs). split; [by split|].
    by rewrite concat_cons, app_assoc.
Qed.

(** C7.  [update] returns (given fuel), and what it requested is the
    segments of step 1, one per crate of the permitted set and in the
    order of the set, followed by the diagnostics request.  Each segment
    is decided by the text and by what happened before it: a crate the
    text uses and that is not full by then is ingested, and after it
    permitted crates it requires that were not full; a crate the text
    does not use and that has no status by then is registered; any other
    crate is passed over.  Every request is completed before the next is
    issued, and nothing but dependency loading comes before the
    diagnostics request. *)
Theorem update_requests_in_order fuel m w :
  (fuelBound ≤ fuel)%nat →
  ∃ w' segs, update fuel m w = Some w' ∧
    stepOneInOrder (getValue m) w [] CRATES segs ∧
    newEvents w w' = concat segs ++ [Req (diagnosticsCall m); Done (diagnosticsCall m)] ∧
    sequential (newEvents w w') ∧
    Forall loadingEvent (concat segs) ∧
    ¬ loadingEvent (Req (diagnosticsCall m)).
Proof.
  intros Hfuel.
  destruct (updateLoop_terminates fuel (getValue m) CRATES w Hfuel) as [w1 Hloop].
  destruct (updateLoop_tracks _ _ _ _ _ _ _ (tracks_refl w) Hloop)
    as (segs & Hsegs & [Ht _]).
  pose proof (updateLoop_segments _ _ _ _ _ Hloop) as (segs' & Ht' & _ & Hseq & Hload).
  assert (concat segs' = concat segs) as Heq.
  { rewrite Ht' in Ht. by apply app_inv_head in Ht. }
  rewrite Heq in Hseq, Hload. simpl in Ht.
  eexists _, segs. split; [by rewrite update_unfold, Hloop|].
  assert (newEvents w (setModelMarkers m
            (diagnosticsOf (sessionCalls (trace w1)) (uri_path m) (getValue m))
            (await (diagnosticsCall m) w1)) =
          concat segs ++ [Req (diagnosticsCall m); Done (diagnosticsCall m)]) as Hnew.
  { apply newEvents_app. simpl. by rewrite Ht, <- app_assoc. }
  split_and!; [done|done| |done|].
  - rewrite Hnew. apply sequential_app; [done|]. by repeat constructor.
  - simpl. discriminate.
Qed.

(** *** The spec's [markSeen] is the loop body for an unused crate *)

Lemma updateCrate_unused_markSeen fuel text crate w :
  RegExp_test (crate +:+ "::") text = false →
  updateCrate fuel text crate w = Some (markSeen crate w).
Proof.
  intros Htest. unfold Loader.updateCrate, markSeen. rewrite Htest.
  destruct (decide (cachedNames w !! crate = Some full)); [done|].
  destruct (decide (cachedNames w !! crate = Some empty)) as [He|He].
  - by rewrite decide_False by (by intros ?).
  - by rewrite decide_True.
Qed.

Lemma runOp_markSeen fuel name w : runOp fuel (OpMarkSeen name) w = Some (markSeen name w).
Proof.
  simpl. apply updateCrate_unused_markSeen.
  destruct (name +:+ "::") eqn:Heq; [by destruct name|done].
Qed.

End LoaderFacts.

(** *** The loader and the pipeline on the sample workspace *)

Lemma loadDependency_twice_ingests_once_witness :
  ∃ w1 w2 : @world string,
    loadDependency sampleCrates sampleStore sampleNeeded 5 None "anchor_lang" init = Some w1 ∧
    loadDependency sampleCrates sampleStore sampleNeeded 1 None "anchor_lang" w1 = Some w2 ∧
    trace w2 = trace w1 ∧ cachedNames w2 = cachedNames w1 ∧ markers w2 = markers w1 ∧
    isFull w2 "anchor_lang" ∧
    ∀ e, e ∈ ingestionRequests sampleStore "anchor_lang" →
         (occurrences e (newEvents init w2) ≤ 1)%nat.
Proof.
  apply (loadDependency_twice_ingests_once sampleCrates sampleStore sampleNeeded).
  - unfold fuelBound. simpl. lia.
  - lia.
Defined.

Lemma loadDependency_terminates_on_cycles_witness :
  ∃ w' : @world string,
    loadDependency sampleCrates sampleStore sampleNeeded 5 None "anchor_lang" init = Some w' ∧
    isFull w' "anchor_lang" ∧ isFull w' "solana_program".
Proof.
  destruct (loadDependency_terminates_on_cycles (Diag := string)
              sampleCrates sampleStore sampleNeeded sampleDiagnostics
              5 None "anchor_lang" init) as (w' & Hrun & HA & HB).
  - unfold fuelBound. simpl. lia.
  - exists w'. split; [exact Hrun|]. split; [exact HA|]. apply HB.
    + exists 0%nat, []. reflexivity.
    + apply (bool_decide_unpack _). vm_compute. exact I.
    + apply (bool_decide_unpack _). vm_compute. exact I.
Defined.

Lemma status_monotonic_witness :
  ∃ w' : @world string,
    runOps sampleCrates sampleStore sampleNeeded sampleDiagnostics 5
      [OpUpdate plainModel; OpMarkSeen "spl_token"; OpLoadDependency "solana_program";
       OpUpdate sampleModel] laterWorld = Some w' ∧
    isFull w' "anchor_lang" ∧ ¬ isEmpty w' "anchor_lang" ∧ ¬ notLoaded w' "anchor_lang".
Proof.
  destruct (status_monotonic sampleCrates sampleStore sampleNeeded sampleDiagnostics 5
              [OpUpdate plainModel; OpMarkSeen "spl_token";
               OpLoadDependency "solana_program"; OpUpdate sampleModel] laterWorld)
    as (w' & Hrun & _ & Hfull).
  - unfold fuelBound. simpl. lia.
  - exists w'. split; [exact Hrun|]. apply Hfull. reflexivity.
Defined.

Lemma update_loads_used_crate_witness :
  ∃ w' : @world string,
    update sampleCrates sampleStore sampleNeeded sampleDiagnostics 5 sampleModel init = Some w' ∧
    isFull w' "anchor_lang" ∧
    (∀ e, e ∈ ingestionRequests sampleStore "anchor_lang" →
          occurrences e (newEvents init w') = 1%nat) ∧
    (∀ crate, invocationsOf (Some "anchor_lang", crate) (newLoadCalls init w') =
              if decide (crate ∈ sampleCrates)
              then timesIn crate (requirements sampleStore sampleNeeded "anchor_lang")
              else 0%nat).
Proof.
  apply (update_loads_used_crate sampleCrates sampleStore sampleNeeded sampleDiagnostics
           5 sampleModel "anchor_lang" "prelude::*;" init).
  - apply (bool_decide_unpack _). vm_compute. exact I.
  - unfold isFull. simpl. rewrite lookup_empty. discriminate.
  - exists "use ", "". reflexivity.
  - unfold fuelBound. simpl. lia.
Defined.

Lemma sampleCrates_unused (c : string) :
  c ∈ sampleCrates → ¬ occursIn (c +:+ "::") (getValue plainModel).
Proof.
  intros Hc. rewrite <- RegExp_test_spec. unfold sampleCrates in Hc.
  rewrite !elem_of_cons in Hc.
  destruct Hc as [->|[->|[->|Hc]]]; [| | |by apply elem_of_nil in Hc];
    vm_compute; discriminate.
Qed.

Lemma update_without_usage_marks_seen_witness :
  ∃ w' : @world string,
    update sampleCrates sampleStore sampleNeeded sampleDiagnostics 0 plainModel init = Some w' ∧
    (∀ c, c ∈ sampleCrates →
       match cachedNames (@init string) !! c with
       | None => isEmpty w' c ∧
                 occurrences (Req (registerCall c)) (newEvents init w') = 1%nat
       | Some s => cachedNames w' !! c = Some s ∧
                   occurrences (Req (registerCall c)) (newEvents init w') = 0%nat
       end) ∧
    (∀ n e, e ∈ ingestionRequests sampleStore n →
            occurrences e (newEvents init w') = 0%nat) ∧
    (∀ n, isFull w' n → isFull (@init string) n).
Proof.
  apply (update_without_usage_marks_seen sampleCrates sampleStore sampleNeeded
           sampleDiagnostics 0 plainModel init).
  exact sampleCrates_unused.
Defined.

Lemma update_requests_in_order_witness :
  ∃ (w' : @world string) segs,
    update sampleCrates sampleStore sampleNeeded sampleDiagnostics 5 sampleModel init = Some w' ∧
    stepOneInOrder sampleCrates sampleStore sampleNeeded (getValue sampleModel)
      (@init string) [] sampleCrates segs ∧
    newEvents init w' =
      concat segs ++ [Req (diagnosticsCall sampleModel); Done (diagnosticsCall sampleModel)] ∧
    sequential (newEvents init w') ∧
    Forall loadingEvent (concat segs) ∧
    ¬ loadingEvent (Req (diagnosticsCall sampleModel)).
Proof.
  apply (update_requests_in_order sampleCrates sampleStore sampleNeeded sampleDiagnostics
           5 sampleModel init).
  unfold fuelBound. simpl. lia.
Defined.

(** *** Overlapping calls of [update]

    The status of a crate is kept by the operations called once the
    crate is full ([full_stays_full_under_overlap]).  A call of [update] that read
    the status of a crate before the crate became full, and was suspended
    at its await since, is not such an operation. *)

(** C4, at two calls of [update] that overlap.  [update] reads the
    status of a crate before its await and writes ["empty"] after it.
    The first call, for a text that uses [anchor_lang], awaits the engine
    call that ingests the crate when the second, for a text that does
    not, is called: the second reads no status and awaits the
    registration.  The first goes on and marks the crate full; then the
    second goes on and marks it empty.  Full is not terminal. *)
Theorem overlapping_update_marks_full_crate_empty :
  Forall (sessionTurn sampleCrates sampleStore sampleNeeded sampleDiagnostics) overlapTurns ∧
  isFull (takeTurns ([], init) (take 5 overlapTurns)).2 "anchor_lang" ∧
  isEmpty (takeTurns ([], init) overlapTurns).2 "anchor_lang" ∧
  trace (takeTurns ([], init) overlapTurns).2 =
    [Req (FetchText "/crates/anchor_lang.rs"); Done (FetchText "/crates/anchor_lang.rs");
     Req (FetchText "/crates/anchor_lang.toml"); Done (FetchText "/crates/anchor_lang.toml");
     Req (ingestCall sampleStore "anchor_lang");
     Req (registerCall "anchor_lang");
     Done (ingestCall sampleStore "anchor_lang");
     Req (FetchText "/crates/solana_program.rs");
     Done (registerCall "anchor_lang");
     Req (registerCall "solana_program")].
Proof.
  split_and!.
  - unfold overlapTurns. repeat constructor; by eexists _, _.
  - vm_compute. reflexivity.
  - vm_compute. reflexivity.
  - vm_compute. reflexivity.
Qed.

Lemma update_replaces_markers_witness :
  ∃ w1 w' : @world string,
    forOf (updateCrate sampleCrates sampleStore sampleNeeded 5 (getValue sampleModel))
      sampleCrates laterWorld = Some w1 ∧
    update sampleCrates sampleStore sampleNeeded sampleDiagnostics 5 sampleModel laterWorld
      = Some w' ∧
    trace w' = trace w1 ++ [Req (diagnosticsCall sampleModel);
                            Done (diagnosticsCall sampleModel)] ∧
    markers w' !! uri_path sampleModel =
      Some (sampleDiagnostics (sessionCalls (trace w1)) (uri_path sampleModel)
              (getValue sampleModel)) ∧
    ∀ path, path ≠ uri_path sampleModel → markers w' !! path = markers laterWorld !! path.
Proof.
  apply (update_replaces_markers sampleCrates sampleStore sampleNeeded sampleDiagnostics
           5 sampleModel laterWorld).
  unfold fuelBound. simpl. lia.
Defined.

Lemma update_leaves_no_crate_unknown_witness :
  ∃ w' : @world string,
    update sampleCrates sampleStore sampleNeeded sampleDiagnostics 5 sampleModel init
      = Some w' ∧
    ∀ c, c ∈ sampleCrates →
      (occursIn (c +:+ "::") (getValue sampleModel) → isFull w' c) ∧
      (isFull w' c ∨ isEmpty w' c).
Proof.
  apply (update_leaves_no_crate_unknown sampleCrates sampleStore sampleNeeded
           sampleDiagnostics 5 sampleModel init).
  unfold fuelBound. simpl. lia.
Defined.

Lemma update_again_only_diagnoses_witness :
  ∃ w1 w2 : @world string,
    update sampleCrates sampleStore sampleNeeded sampleDiagnostics 5 sampleModel init
      = Some w1 ∧
    update sampleCrates sampleStore sampleNeeded sampleDiagnostics 0 sampleModel w1
      = Some w2 ∧
    newEvents w1 w2 = [Req (diagnosticsCall sampleModel);
                       Done (diagnosticsCall sampleModel)] ∧
    cachedNames w2 = cachedNames w1.
Proof.
  apply (update_again_only_diagnoses sampleCrates sampleStore sampleNeeded
           sampleDiagnostics 5 0 sampleModel init).
  unfold fuelBound. simpl. lia.
Defined.

Lemma update_no_redundant_request_witness :
  ∃ w' : @world string,
    update sampleCrates sampleStore sampleNeeded sampleDiagnostics 5 sampleModel laterWorld
      = Some w' ∧
    (∀ e, e ∈ Req (registerCall "anchor_lang") :: ingestionRequests sampleStore "anchor_lang" →
          (occurrences e (newEvents laterWorld w') ≤ 1)%nat) ∧
    (isFull laterWorld "anchor_lang" →
     ∀ e, e ∈ ingestionRequests sampleStore "anchor_lang" →
          occurrences e (newEvents laterWorld w') = 0%nat) ∧
    (¬ notLoaded laterWorld "anchor_lang" →
     occurrences (Req (registerCall "anchor_lang")) (newEvents laterWorld w') = 0%nat).
Proof.
  apply (update_no_redundant_request sampleCrates sampleStore sampleNeeded
           sampleDiagnostics 5 sampleModel laterWorld "anchor_lang").
  unfold fuelBound. simpl. lia.
Defined.

Lemma loadDependency_touches_only_required_witness :
  ∃ w' : @world string,
    loadDependency sampleCrates sampleStore sampleNeeded 5 None "anchor_lang" init = Some w' ∧
    ∀ n, ¬ rtc (follows sampleCrates sampleStore sampleNeeded) "anchor_lang" n →
      cachedNames w' !! n = cachedNames (@init string) !! n ∧
      ∀ e, e ∈ Req (registerCall n) :: ingestionRequests sampleStore n →
           e ∉ newEvents init w'.
Proof.
  apply (loadDependency_touches_only_required sampleCrates sampleStore sampleNeeded
           5 None "anchor_lang" init).
  unfold fuelBound. simpl. lia.
Defined.

Lemma update_touches_only_permitted_witness :
  ∃ w' : @world string,
    update sampleCrates sampleStore sampleNeeded sampleDiagnostics 5 sampleModel init
      = Some w' ∧
    cachedNames w' !! "borsh" = cachedNames (@init string) !! "borsh" ∧
    ∀ e, e ∈ Req (registerCall "borsh") :: ingestionRequests sampleStore "borsh" →
         e ∉ newEvents init w'.
Proof.
  apply (update_touches_only_permitted sampleCrates sampleStore sampleNeeded
           sampleDiagnostics 5 sampleModel init "borsh").
  - unfold fuelBound. simpl. lia.
  - apply (bool_decide_unpack _). vm_compute. exact I.
Defined.


(** * Properties of the local-file load *)

Section EndsWithFacts.

Lemma length_append s t :
  String.length (s +:+ t) = (String.length s + String.length t)%nat.
Proof.
  induction s as [|c s IH]; [by rewrite append_nil_l|].
  rewrite append_cons. simpl. by rewrite IH.
Qed.

Lemma substring_all s : substring 0 (String.length s) s = s.
Proof. induction s as [|c s IH]; [done|]. simpl. by rewrite IH. Qed.

Lemma substring_append_r pre suf :
  substring (String.length pre) (String.length suf) (pre +:+ suf) = suf.
Proof.
  induction pre as [|c pre IH]; [rewrite append_nil_l; apply substring_all|].
  rewrite append_cons. simpl. apply IH.
Qed.

Lemma substring_split s i :
  (i ≤ String.length s)%nat →
  s = substring 0 i s +:+ substring i (String.length s - i) s.
Proof.
  revert i. induction s as [|c s IH]; intros i Hi.
  - destruct i; [done|simpl in Hi; lia].
  - destruct i as [|i].
    + simpl. rewrite append_nil_l. by rewrite substring_all.
    + simpl in *. rewrite append_cons. f_equal. apply IH. lia.
Qed.

(** [endsWith] decides "has this suffix". *)
Lemma endsWith_spec s suffix :
  endsWith s suffix = true ↔ ∃ stem, s = stem +:+ suffix.
Proof.
  unfold endsWith. split.
  - destruct (Nat.leb_spec (String.length suffix) (String.length s)) as [Hle|]; [|done].
    intros Heq%String.eqb_eq.
    exists (substring 0 (String.length s - String.length suffix) s).
    pose proof (substring_split s (String.length s - String.length suffix)) as Hs.
    replace (String.length s - (String.length s - String.length suffix))%nat
      with (String.length suffix) in Hs by lia.
    rewrite Heq in Hs. apply Hs. lia.
  - intros [stem ->]. rewrite length_append.
    rewrite (proj2 (Nat.leb_le _ _)) by lia.
    replace (String.length stem + String.length suffix - String.length suffix)%nat
      with (String.length stem) by lia.
    rewrite substring_append_r. apply String.eqb_refl.
Qed.

End EndsWithFacts.

Section WorkspaceFacts.

Import Workspace.

Context {Content Result Resolver : Type}.
Context (getFileContent : string → Content).

Local Abbreviation chan := (@Channel.chan (list (string * Content)) Result Resolver).
Local Abbreviation rustFiles := (rustFiles getFileContent).
Local Abbreviation loadLocalFiles := (@loadLocalFiles Content Result Resolver getFileContent).

Lemma rustFiles_paths keys :
  (rustFiles keys).*1 = filter (λ path, endsWith path ".rs" = true) keys.
Proof.
  unfold Workspace.rustFiles.
  induction (filter (λ path, endsWith path ".rs" = true) keys) as [|path l IH]; [done|].
  rewrite !fmap_cons. simpl. by rewrite IH.
Qed.

(** X13.  [loadLocalFiles] posts one request, with method
    ["loadLocalFiles"], the next id and one argument: the list of the
    files whose path ends in [.rs], each with its own content, in the
    order of the keys.  A path is in the list as often as among the keys;
    a file with another extension never is.  The request is posted also
    when there is no Rust file, and the call waits in the pending table
    under its id. *)
Theorem loadLocalFiles_posts_rust_files keys res (st : chan) :
  ∃ files st',
    loadLocalFiles keys res st = Some st' ∧
    posted st' = posted st ++ [Request "loadLocalFiles" [files] (next_id st)] ∧
    pendingResolve st' !! propertyKey (JNum (next_id st)) = Some res ∧
    files.*1 `sublist_of` keys ∧
    (∀ path, path ∈ files.*1 ↔ path ∈ keys ∧ ∃ stem, path = stem +:+ ".rs") ∧
    Forall (λ file, file.2 = getFileContent file.1) files.
Proof.
  exists (rustFiles keys), (callWorker "loadLocalFiles" [rustFiles keys] res st).
  split_and!.
  - done.
  - done.
  - simpl. apply lookup_insert_eq.
  - rewrite rustFiles_paths. apply sublist_filter.
  - intros path. rewrite rustFiles_paths, list_elem_of_filter, endsWith_spec. tauto.
  - unfold Workspace.rustFiles. apply Forall_fmap, Forall_forall. by intros path _.
Qed.

End WorkspaceFacts.

(** * Properties of the inlay-hint provider *)

Section ProviderFacts.

Import Providers.

Lemma inlayHintOf_None h : inlayHintOf h = None ↔ hintType h ≠ 1 ∧ hintType h ≠ 2.
Proof. unfold inlayHintOf. repeat case_decide; split; try done; intros []; done. Qed.

(** X14.  [provideInlayHints] throws exactly when the engine returned a
    hint whose type is neither 1 nor 2: one such hint loses all the
    hints of the answer. *)
Theorem provideInlayHints_throws_iff_unknown_type hints :
  provideInlayHints hints = None ↔
  ∃ h, h ∈ hints ∧ hintType h ≠ 1 ∧ hintType h ≠ 2.
Proof.
  unfold provideInlayHints. rewrite mapM_None, Exists_exists.
  split; intros (h & Hin & Hh); exists h; (split; [done|]); by apply inlayHintOf_None.
Qed.

(** X15.  When every hint has type 1 or 2, [provideInlayHints] returns
    one hint per hint of the engine, in the same order: a type hint sits
    at the end of its range with [": "] before the label, a parameter
    hint at the start of its range with [": "] after the label and
    padding on the right. *)
Theorem provideInlayHints_translates_in_order hints :
  Forall (λ h, hintType h = 1 ∨ hintType h = 2) hints →
  ∃ out, provideInlayHints hints = Some out ∧ length out = length hints ∧
    ∀ i h, hints !! i = Some h →
      ∃ o, out !! i = Some o ∧
        (kind o = Type_ ↔ hintType h = 1) ∧
        (kind o = Parameter_ ↔ hintType h = 2) ∧
        position_of o =
          (if decide (hintType h = 1)
           then Position (endColumn (hint_range h)) (endLineNumber (hint_range h))
           else Position (startColumn (hint_range h)) (startLineNumber (hint_range h))) ∧
        label o = (if decide (hintType h = 1) then ": " +:+ hint_label h
                   else hint_label h +:+ ": ") ∧
        paddingRight o = (if decide (hintType h = 1) then None else Some true).
Proof.
  intros Hknown.
  destruct (provideInlayHints hints) as [out|] eqn:Hout.
  - exists out. split; [done|]. unfold provideInlayHints in Hout.
    split; [symmetry; by eapply length_mapM|].
    apply mapM_Some_1 in Hout. intros i h Hi.
    destruct (Forall2_lookup_l _ _ _ _ _ Hout Hi) as (o & Ho & Hoh).
    exists o. split; [done|]. unfold inlayHintOf in Hoh.
    repeat case_decide; simplify_eq; simpl; split_and!; try done; split; try done; lia.
  - apply mapM_None_1, Exists_exists in Hout as (h & Hin & [H1 H2]%inlayHintOf_None).
    rewrite Forall_forall in Hknown. destruct (Hknown h Hin); done.
Qed.

End ProviderFacts.

(** * Properties of [createArgs] *)

Section CommandFacts.

Import Commands.

Lemma createArgsLoop_optional args :
  createArgsLoop true args = true ↔ Forall (λ a, isTruthy (optional a) = true) args.
Proof.
  induction args as [|a args IH]; simpl; [by split; [constructor|]|].
  destruct (isTruthy (optional a)) eqn:Ha; simpl.
  - rewrite IH. split; [by constructor|by inversion 1].
  - split; [done|]. inversion 1; congruence.
Qed.

Lemma createArgsLoop_required_first args :
  createArgsLoop false args = true ↔
  ∃ required optionals, args = required ++ optionals ∧
    Forall (λ a, isTruthy (optional a) = false) required ∧
    Forall (λ a, isTruthy (optional a) = true) optionals.
Proof.
  induction args as [|a args IH]; simpl.
  - split; [|done]. intros _. exists [], []. by split_and!.
  - destruct (isTruthy (optional a)) eqn:Ha.
    + rewrite createArgsLoop_optional. split.
      * intros Hall. exists [], (a :: args). split_and!; [done|constructor|by constructor].
      * intros (req & opt & Heq & Hreq & Hopt). destruct req as [|r req].
        -- simpl in Heq. subst opt. by inversion Hopt.
        -- simplify_eq/=. inversion Hreq; congruence.
    + rewrite IH. split.
      * intros (req & opt & -> & Hreq & Hopt). exists (a :: req), opt.
        split_and!; [done|by constructor|done].
      * intros (req & opt & Heq & Hreq & Hopt). destruct req as [|r req].
        -- simpl in Heq. subst opt. inversion Hopt; congruence.
        -- simplify_eq/=. exists req, opt. split_and!; [done|by inversion Hreq|done].
Qed.

(** X16.  [createArgs] returns its arguments, unchanged, exactly when
    they are some required arguments followed by some optional ones; an
    argument whose [optional] is absent or [false] counts as required. *)
Theorem createArgs_accepts_required_then_optional args :
  createArgs args = inr args ↔
  ∃ required optionals, args = required ++ optionals ∧
    Forall (λ a, isTruthy (optional a) = false) required ∧
    Forall (λ a, isTruthy (optional a) = true) optionals.
Proof.
  rewrite <- createArgsLoop_required_first. unfold createArgs.
  destruct (createArgsLoop false args); split; done.
Qed.

(** X17.  [createArgs] throws, with the message "Optional arguments must
    come after required arguments", exactly when some required argument
    comes after an optional one; whatever it returns otherwise is the
    list it was given. *)
Theorem createArgs_throws_iff_required_after_optional args :
  (createArgs args = inl "Optional arguments must come after required arguments" ↔
   ∃ i j a b, (i < j)%nat ∧ args !! i = Some a ∧ args !! j = Some b ∧
              isTruthy (optional a) = true ∧ isTruthy (optional b) = false) ∧
  (∀ out, createArgs args = inr out → out = args).
Proof.
  split.
  - assert (createArgs args = inl "Optional arguments must come after required arguments"
            ↔ createArgsLoop false args = false) as ->.
    { unfold createArgs. destruct (createArgsLoop false args); split; done. }
    assert (∀ l, createArgsLoop true l = false ↔
                 ∃ j b, l !! j = Some b ∧ isTruthy (optional b) = false) as Hopt.
    { intros l. induction l as [|x l IH]; simpl.
      - split; [done|]. by intros (j & b & Hj & _).
      - destruct (isTruthy (optional x)) eqn:Hx; simpl.
        + rewrite IH. split.
          * intros (j & b & Hj & Hb). by exists (S j), b.
          * intros (j & b & Hj & Hb). destruct j as [|j]; [simplify_eq/=; congruence|].
            by exists j, b.
        + split; [|done]. intros _. by exists 0%nat, x. }
    induction args as [|x args IH]; simpl.
    + split; [done|]. by intros (i & j & a & b & _ & Hi & _).
    + destruct (isTruthy (optional x)) eqn:Hx.
      * rewrite Hopt. split.
        -- intros (j & b & Hj & Hb). exists 0%nat, (S j), x, b. split_and!; [lia|done..].
        -- intros (i & j & a & b & Hlt & Hi & Hj & Ha & Hb).
           destruct j as [|j]; [lia|]. by exists j, b.
      * rewrite IH. split.
        -- intros (i & j & a & b & Hlt & Hi & Hj & Ha & Hb).
           exists (S i), (S j), a, b. split_and!; [lia|done..].
        -- intros (i & j & a & b & Hlt & Hi & Hj & Ha & Hb).
           destruct j as [|j]; [lia|]. destruct i as [|i]; [simplify_eq/=; congruence|].
           exists i, j, a, b. split_and!; [lia|done..].
  - intros out. unfold createArgs. destruct (createArgsLoop false args); [|done].
    by intros [= <-].
Qed.

End CommandFacts.

(** * Properties of the tutorial lookups *)

Section TutorialFacts.

Import PgTutorial.

Context {TutorialData : Type}.
Context (name : TutorialData → string).
Context (TUTORIALS : list TutorialData).

Local Abbreviation getTutorialData := (getTutorialData name TUTORIALS).
Local Abbreviation isWorkspaceTutorial := (isWorkspaceTutorial name TUTORIALS).
Local Abbreviation isCurrentWorkspaceTutorial := (isCurrentWorkspaceTutorial name TUTORIALS).
Local Abbreviation getUserTutorialNames := (getUserTutorialNames name TUTORIALS).

Lemma find_first {A} (f : A → bool) l x :
  List.find f l = Some x ↔
  ∃ i, l !! i = Some x ∧ f x = true ∧ ∀ j y, (j < i)%nat → l !! j = Some y → f y = false.
Proof.
  induction l as [|a l IH]; simpl.
  - split; [done|]. by intros (i & Hi & _).
  - destruct (f a) eqn:Ha.
    + split.
      * intros [= <-]. exists 0%nat. split_and!; [done..|]. intros; lia.
      * intros (i & Hi & Hx & Hfirst). destruct i as [|i]; [by simplify_eq/=|].
        specialize (Hfirst 0%nat a). simpl in Hfirst. rewrite Hfirst in Ha; [done|lia|done].
    + rewrite IH. split.
      * intros (i & Hi & Hx & Hfirst). exists (S i). split_and!; [done..|].
        intros [|j] y Hj Hy; [by simplify_eq/=|]. apply (Hfirst j); [lia|done].
      * intros (i & Hi & Hx & Hfirst). destruct i as [|i]; [simplify_eq/=; congruence|].
        exists i. split_and!; [done..|]. intros j y Hj Hy. apply (Hfirst (S j)); [lia|done].
Qed.

Lemma isWorkspaceTutorial_found n :
  isWorkspaceTutorial n = true ↔ is_Some (getTutorialData n).
Proof.
  unfold PgTutorial.isWorkspaceTutorial, PgTutorial.getTutorialData.
  induction TUTORIALS as [|t l IH]; simpl.
  - split; [done|]. by intros [? ?].
  - destruct (bool_decide (name t = n)); simpl; [|done].
    split; [by eexists|done].
Qed.

(** X18.  [getTutorialData] returns the first tutorial of the catalogue
    that bears the name, and [isWorkspaceTutorial] holds of a name
    exactly when [getTutorialData] finds a tutorial for it. *)
Theorem getTutorialData_first_of_name tutorialName :
  (∀ t, getTutorialData tutorialName = Some t ↔
        ∃ i, TUTORIALS !! i = Some t ∧ name t = tutorialName ∧
             ∀ j t', (j < i)%nat → TUTORIALS !! j = Some t' → name t' ≠ tutorialName) ∧
  (isWorkspaceTutorial tutorialName = true ↔ is_Some (getTutorialData tutorialName)).
Proof.
  split.
  - intros t. unfold PgTutorial.getTutorialData. rewrite find_first.
    split; intros (i & Hi & Hn & Hfirst); exists i; (split; [done|]).
    + split; [by apply bool_decide_eq_true in Hn|].
      intros j t' Hj Ht'. by apply (bool_decide_eq_false (name t' = tutorialName)), (Hfirst j).
    + split; [by apply bool_decide_eq_true|].
      intros j t' Hj Ht'. by apply (bool_decide_eq_false (name t' = tutorialName)), (Hfirst j).
  - apply isWorkspaceTutorial_found.
Qed.

(** X19.  [getUserTutorialNames] keeps, in their order, exactly the
    workspace names for which [getTutorialData] finds a tutorial, and
    [isCurrentWorkspaceTutorial] holds exactly when the current workspace
    has a name, not the empty one, that [getTutorialData] finds. *)
Theorem getUserTutorialNames_are_tutorials names current :
  (∃ out, getUserTutorialNames (Some names) = Some out ∧ out `sublist_of` names ∧
     ∀ n, n ∈ out ↔ n ∈ names ∧ is_Some (getTutorialData n)) ∧
  (isCurrentWorkspaceTutorial current = true ↔
   ∃ n, current = Some n ∧ n ≠ "" ∧ is_Some (getTutorialData n)).
Proof.
  pose proof isWorkspaceTutorial_found as Hiff.
  split.
  - eexists. split; [done|]. split; [apply sublist_filter|].
    intros n. by rewrite list_elem_of_filter, Hiff, (comm and).
  - unfold PgTutorial.isCurrentWorkspaceTutorial. destruct current as [n|].
    + case_decide as Hn.
      * split; [done|]. by intros (n' & [= <-] & Hne & _).
      * rewrite Hiff. split; [by exists n|]. by intros (n' & [= <-] & _ & Hs).
    + split; [done|]. by intros (n & Hn & _).
Qed.

End TutorialFacts.

Lemma loadDependency_fills_exactly_required_witness :
  ∃ w' : @world string,
    loadDependency sampleCrates sampleStore sampleNeeded 5 None "anchor_lang" init = Some w' ∧
    ∀ n, isFull w' n ↔
         isFull (@init string) n ∨
         rtc (follows sampleCrates sampleStore sampleNeeded) "anchor_lang" n.
Proof.
  apply (loadDependency_fills_exactly_required sampleCrates sampleStore sampleNeeded
           5 None "anchor_lang" init).
  - apply closed_init.
  - unfold fuelBound. simpl. lia.
Defined.

Lemma update_cache_determined_by_text_witness :
  ∃ w' : @world string,
    update sampleCrates sampleStore sampleNeeded sampleDiagnostics 5 sampleModel init
      = Some w' ∧
    ∀ n, (isFull w' n ↔
            isFull (@init string) n ∨
            ∃ c, c ∈ sampleCrates ∧ occursIn (c +:+ "::") (getValue sampleModel) ∧
                 rtc (follows sampleCrates sampleStore sampleNeeded) c n) ∧
         (¬ isFull w' n →
            cachedNames w' !! n =
              if decide (n ∈ sampleCrates) then Some empty
              else cachedNames (@init string) !! n).
Proof.
  apply (update_cache_determined_by_text sampleCrates sampleStore sampleNeeded
           sampleDiagnostics 5 sampleModel init).
  - apply closed_init.
  - unfold fuelBound. simpl. lia.
Defined.

Lemma provideInlayHints_translates_in_order_witness :
  ∃ out, Providers.provideInlayHints sampleHints = Some out ∧
    length out = length sampleHints ∧
    ∀ i h, sampleHints !! i = Some h →
      ∃ o, out !! i = Some o ∧
        (Providers.kind o = Providers.Type_ ↔ Providers.hintType h = 1) ∧
        (Providers.kind o = Providers.Parameter_ ↔ Providers.hintType h = 2) ∧
        Providers.position_of o =
          (if decide (Providers.hintType h = 1)
           then Providers.Position (Providers.endColumn (Providers.hint_range h))
                  (Providers.endLineNumber (Providers.hint_range h))
           else Providers.Position (Providers.startColumn (Providers.hint_range h))
                  (Providers.startLineNumber (Providers.hint_range h))) ∧
        Providers.label o =
          (if decide (Providers.hintType h = 1) then ": " +:+ Providers.hint_label h
           else Providers.hint_label h +:+ ": ") ∧
        Providers.paddingRight o =
          (if decide (Providers.hintType h = 1) then None else Some true).
Proof.
  apply (provideInlayHints_translates_in_order sampleHints).
  apply (bool_decide_unpack _). vm_compute. exact I.
Defined.

Lemma full_is_final_for_later_calls_witness :
  isFull (takeTurns ([], laterWorld) overlapTurns).2 "anchor_lang".
Proof.
  apply (full_is_final_for_later_calls sampleCrates sampleStore sampleNeeded
           sampleDiagnostics "anchor_lang" laterWorld overlapTurns).
  - reflexivity.
  - unfold overlapTurns. repeat constructor; by eexists _, _.
Defined.

Lemma overlapping_loads_ingest_twice_witness :
  let call c := Spawn (loadDependencyFlow sampleCrates sampleStore sampleNeeded 5 c
                         "anchor_lang" Finished) in
  let s := takeTurns ([], @init string)
             [call None; call None; Settle 0; Settle 0; Settle 1; Settle 1] in
  let rs := FetchText "/crates/anchor_lang.rs" in
  let toml := FetchText "/crates/anchor_lang.toml" in
  newEvents init s.2 =
    [Req rs; Req rs;
     Done rs; Req toml; Done toml; Req (ingestCall sampleStore "anchor_lang");
     Done rs; Req toml; Done toml; Req (ingestCall sampleStore "anchor_lang")] ∧
  cachedNames s.2 = cachedNames (@init string).
Proof.
  apply (overlapping_loads_ingest_twice sampleCrates sampleStore sampleNeeded
           4 None None "anchor_lang" init).
  unfold isFull. simpl. rewrite lookup_empty. discriminate.
Defined.
